(** * A shallow embedding of the business rules engine (rules_engine.py)

    The development follows the source file class by class:
    - [PyStr]: the [str] methods the engine calls;
    - [PyFloat], [tree], [value], [heap]: the dynamically typed data of the
      interpreter, with mutable lists and dicts living in a heap of objects;
    - [SafeEvaluator]: the condition language;
    - [RuleExecutor]: the action interpreter;
    - [RulesEngine]: the ruleset store and the rule evaluation loop.

    Exceptions are values of [exn]; a computation that may raise returns a
    [result]. Code that mutates objects threads the [heap]. *)

From Stdlib Require Import ZArith List String Ascii Bool Lia Arith.
From Stdlib Require Import DecimalString Permutation Sorted.
From Stdlib Require PrimFloat SpecFloat FloatOps.
Import ListNotations.
Open Scope string_scope.
Open Scope list_scope.
Open Scope nat_scope.
#[local] Arguments String.append : simpl never.

Infix "+:+" := String.append (at level 60, right associativity).

Set Implicit Arguments.
Set Warnings "-register-all,-inexact-float".

(** ** Exceptions and results *)

(** The exception classes the modelled code can raise. [Unsupported] is no
    exception of Python: it marks a run that leaves the data this model
    represents (a context key that is not a string). *)
Inductive exn : Type :=
| TypeError
| ValueError
| KeyError
| AttributeError
| OverflowError
| RecursionError
| FileNotFoundError
| YAMLError
| Unsupported.

Definition exn_eqb (a b : exn) : bool :=
  match a, b with
  | TypeError, TypeError | ValueError, ValueError | KeyError, KeyError
  | AttributeError, AttributeError | OverflowError, OverflowError
  | RecursionError, RecursionError | FileNotFoundError, FileNotFoundError
  | YAMLError, YAMLError | Unsupported, Unsupported => true
  | _, _ => false
  end.

Inductive result (A : Type) : Type :=
| Ok (a : A)
| Raise (e : exn).
Arguments Ok {A} a.
Arguments Raise {A} e.

Definition bind {A B : Type} (m : result A) (k : A -> result B) : result B :=
  match m with
  | Ok a => k a
  | Raise e => Raise e
  end.

Notation "x <- m ;; k" := (bind m (fun x => k))
  (at level 61, m at next level, right associativity).
Notation "' p <- m ;; k" := (bind m (fun p => k))
  (at level 61, p pattern, m at next level, right associativity).

Definition is_ok {A : Type} (m : result A) : bool :=
  match m with Ok _ => true | Raise _ => false end.

(** ** Python strings

    A [str] is modelled by the Rocq [string] of its UTF-8 encoding. The
    engine searches for ASCII text and cuts where it found it, which reads
    the same on the encoding; white space and digits are the ASCII ones. *)
Module PyStr.

Definition code (c : ascii) : nat := nat_of_ascii c.

(** [str.isspace] on an ASCII character. *)
Definition is_space (c : ascii) : bool :=
  let n := code c in
  ((9 <=? n) && (n <=? 13)) || ((28 <=? n) && (n <=? 32)).

Fixpoint lstrip (s : string) : string :=
  match s with
  | String c s' => if is_space c then lstrip s' else s
  | EmptyString => EmptyString
  end.

Fixpoint rstrip (s : string) : string :=
  match s with
  | String c s' =>
      match rstrip s' with
      | EmptyString => if is_space c then EmptyString else String c EmptyString
      | r => String c r
      end
  | EmptyString => EmptyString
  end.

(** [s.strip()] *)
Definition strip (s : string) : string := rstrip (lstrip s).

(** [s.startswith(p)] *)
Definition startswith (p s : string) : bool := String.prefix p s.

(** [s[n:]] *)
Definition drop (n : nat) (s : string) : string :=
  String.substring n (String.length s - n) s.

(** [s[:n]] *)
Definition take (n : nat) (s : string) : string := String.substring 0 n s.

(** [s.endswith(p)] *)
Definition endswith (p s : string) : bool :=
  (String.length p <=? String.length s)
  && String.eqb (drop (String.length s - String.length p) s) p.

(** [s[1:-1]] *)
Definition inner (s : string) : string :=
  String.substring 1 (String.length s - 2) s.

(** [s.find(sub)]: [None] is Python's -1. *)
Definition find (sub s : string) : option nat := String.index 0 sub s.

(** [sub in s] *)
Definition contains (sub s : string) : bool :=
  match find sub s with Some _ => true | None => false end.

Definition lower_char (c : ascii) : ascii :=
  let n := code c in
  if (65 <=? n) && (n <=? 90) then ascii_of_nat (n + 32) else c.

(** [s.lower()]; only ever compared with an ASCII keyword. *)
Fixpoint lower (s : string) : string :=
  match s with
  | String c s' => String (lower_char c) (lower s')
  | EmptyString => EmptyString
  end.

(** [s.split(".")], the separator being one character. *)
Fixpoint split_char (sep : ascii) (s : string) : list string :=
  match s with
  | EmptyString => [EmptyString]
  | String c s' =>
      if Ascii.eqb c sep then EmptyString :: split_char sep s'
      else match split_char sep s' with
           | p :: ps => String c p :: ps
           | [] => [String c EmptyString]
           end
  end.

(** [s.replace(old, new)] for a non-empty [old]: occurrences are replaced
    left to right without overlap. [skip] counts the characters of a
    matched occurrence that are still to be passed over. *)
Fixpoint replace_from (skip : nat) (old new s : string) : string :=
  match s with
  | EmptyString => EmptyString
  | String c s' =>
      match skip with
      | S k => replace_from k old new s'
      | O =>
          if String.prefix old s
          then new +:+ replace_from (String.length old - 1) old new s'
          else String c (replace_from 0 old new s')
      end
  end.

Definition replace (old new s : string) : string := replace_from 0 old new s.

(** [list(s)]: the one-character strings of [s]. *)
Fixpoint chars (s : string) : list string :=
  match s with
  | EmptyString => []
  | String c s' => String c EmptyString :: chars s'
  end.

(** [sep.join(parts)] *)
Definition join (sep : string) (parts : list string) : string :=
  String.concat sep parts.

Definition is_digit (c : ascii) : bool :=
  let n := code c in (48 <=? n) && (n <=? 57).

Definition digit_val (c : ascii) : Z := Z.of_nat (code c - 48).

(** The digits of an [int] literal: single underscores are allowed between
    digits. [prev] tells whether the previous character was a digit. *)
Fixpoint parse_digits (acc : Z) (prev : bool) (s : string) : option Z :=
  match s with
  | EmptyString => if prev then Some acc else None
  | String c s' =>
      if is_digit c then parse_digits (10 * acc + digit_val c)%Z true s'
      else if Ascii.eqb c "_" && prev then parse_digits acc false s'
      else None
  end.

(** [int(s)] in base 10: [None] is ValueError. *)
Definition int_of_string (s : string) : option Z :=
  match strip s with
  | String "-" s' => option_map Z.opp (parse_digits 0 false s')
  | String "+" s' => parse_digits 0 false s'
  | s' => parse_digits 0 false s'
  end.

(** [str(z)] for an [int]. *)
Definition string_of_Z (z : Z) : string :=
  NilZero.string_of_int (Z.to_int z).

(** [s.rsplit(sep, 1)], the separator being one character: [s] cut at its
    last separator, or [s] alone when it has none. *)
Fixpoint rsplit1 (sep : ascii) (s : string) : list string :=
  match s with
  | EmptyString => [EmptyString]
  | String c s' =>
      match rsplit1 sep s' with
      | [p; q] => [String c p; q]
      | _ => if Ascii.eqb c sep then [EmptyString; s'] else [String c s']
      end
  end.

End PyStr.

(** The double quote character, as a one-character string. *)
Definition dquote : string := String (ascii_of_nat 34) EmptyString.

(** ** Floating point numbers

    [float] belongs to the interpreter, not to the engine: its operations are
    the fields of [PyFloat], and every statement about the engine holds for
    every implementation of them. [float_classify] gives the exact value of a
    float: not a number, an infinity, or the dyadic number [m * 2^e]. *)
Inductive fclass : Type :=
| FNaN
| FInf (negative : bool)
| FFin (m e : Z).

Class PyFloat : Type := {
  pyfloat : Type;
  (** [float(z)] for an [int]: [None] is OverflowError. *)
  float_of_Z : Z -> option pyfloat;
  (** [float(s)] for a [str]: [None] is ValueError. *)
  float_of_string : string -> option pyfloat;
  float_classify : pyfloat -> fclass;
  float_add : pyfloat -> pyfloat -> pyfloat;
  float_sub : pyfloat -> pyfloat -> pyfloat;
  float_mul : pyfloat -> pyfloat -> pyfloat;
  (** [x / y] for a divisor that is not zero. *)
  float_div : pyfloat -> pyfloat -> pyfloat;
  (** [round(x, 4)] *)
  float_round4 : pyfloat -> pyfloat;
  (** [repr(x)], which is also [str(x)]. *)
  float_repr : pyfloat -> string
}.

(** Order of two exact values; [None] when one of them is not a number. *)
Definition num_compare (a b : fclass) : option comparison :=
  match a, b with
  | FNaN, _ | _, FNaN => None
  | FInf true, FInf true | FInf false, FInf false => Some Eq
  | FInf true, _ | _, FInf false => Some Lt
  | FInf false, _ | _, FInf true => Some Gt
  | FFin m1 e1, FFin m2 e2 =>
      let e := Z.min e1 e2 in
      Some (Z.compare (m1 * 2 ^ (e1 - e)) (m2 * 2 ^ (e2 - e)))%Z
  end.

(** ** Dicts

    A dict keeps its keys in insertion order: an association list in which
    a key occurs once. The keys are strings, as in JSON objects and in the
    [Dict[str, Any]] the engine declares. *)
Section Dict.
Variable V : Type.

Definition dict := list (string * V).

(** [d.get(k)], [None] standing for an absent key. *)
Fixpoint dict_get (k : string) (d : dict) : option V :=
  match d with
  | [] => None
  | (k', v) :: d' => if String.eqb k k' then Some v else dict_get k d'
  end.

(** [k in d] *)
Definition dict_mem (k : string) (d : dict) : bool :=
  match dict_get k d with Some _ => true | None => false end.

(** [d[k] = v]: an existing key keeps its place, a new one goes last. *)
Fixpoint dict_set (k : string) (v : V) (d : dict) : dict :=
  match d with
  | [] => [(k, v)]
  | (k', v') :: d' =>
      if String.eqb k k' then (k', v) :: d' else (k', v') :: dict_set k v d'
  end.

(** [del d[k]] for a key that may be absent. *)
Fixpoint dict_del (k : string) (d : dict) : dict :=
  match d with
  | [] => []
  | (k', v') :: d' =>
      if String.eqb k k' then d' else (k', v') :: dict_del k d'
  end.

End Dict.

(** ** Values

    [tree] is a value written out in full: what a YAML document parses to,
    and what a heap value looks like when read through its references
    ([snapshot]). [TRec] stands for a container met again inside itself. *)
Section Data.
Context {F : PyFloat}.

Inductive tree : Type :=
| TNone
| TBool (b : bool)
| TInt (z : Z)
| TFloat (f : pyfloat)
| TStr (s : string)
| TList (items : list tree)
| TDict (items : list (string * tree))
| TRec (is_dict : bool).

(** A value as the interpreter holds it: lists and dicts are references to
    mutable objects. *)
Inductive value : Type :=
| VNone
| VBool (b : bool)
| VInt (z : Z)
| VFloat (f : pyfloat)
| VStr (s : string)
| VRef (l : nat).

Inductive obj : Type :=
| OList (items : list value)
| ODict (items : list (string * value)).

(** The heap: object number [l] is at position [l]; objects are never freed. *)
Definition heap := list obj.

Definition heap_get (h : heap) (l : nat) : option obj := nth_error h l.

Fixpoint heap_set (h : heap) (l : nat) (o : obj) : heap :=
  match h, l with
  | [], _ => []
  | _ :: h', O => o :: h'
  | o' :: h', S l' => o' :: heap_set h' l' o
  end.

Definition heap_alloc (h : heap) (o : obj) : heap * nat :=
  (h ++ [o], List.length h).

Definition is_dict_obj (o : obj) : bool :=
  match o with ODict _ => true | OList _ => false end.

(** Reading a value through the heap. [path] holds the containers being
    read; one of them met again is cut to [TRec], as [repr] does. A
    reference to no object reads as [None]; a heap built by allocation has
    none. *)
Fixpoint reify (fuel : nat) (h : heap) (path : list nat) (v : value) : tree :=
  match v with
  | VNone => TNone
  | VBool b => TBool b
  | VInt z => TInt z
  | VFloat f => TFloat f
  | VStr s => TStr s
  | VRef l =>
      match heap_get h l with
      | None => TNone
      | Some o =>
          if existsb (Nat.eqb l) path then TRec (is_dict_obj o)
          else match fuel with
               | O => TRec (is_dict_obj o)
               | S n =>
                   match o with
                   | OList xs => TList (map (reify n h (l :: path)) xs)
                   | ODict kvs =>
                       TDict (map (fun kv =>
                                     (fst kv, reify n h (l :: path) (snd kv)))
                                  kvs)
                   end
               end
      end
  end.

(** No chain of distinct containers is longer than the heap. *)
Definition snapshot (h : heap) (v : value) : tree :=
  reify (List.length h) h [] v.

(** Building the objects of a tree in the heap. *)
Fixpoint store_tree (t : tree) (h : heap) : heap * value :=
  match t with
  | TNone => (h, VNone)
  | TBool b => (h, VBool b)
  | TInt z => (h, VInt z)
  | TFloat f => (h, VFloat f)
  | TStr s => (h, VStr s)
  | TList ts =>
      let '(h', vs) :=
        (fix go (ts : list tree) (h : heap) : heap * list value :=
           match ts with
           | [] => (h, [])
           | t :: ts' =>
               let '(h1, v) := store_tree t h in
               let '(h2, vs) := go ts' h1 in (h2, v :: vs)
           end) ts h in
      (h' ++ [OList vs], VRef (List.length h'))
  | TDict kvs =>
      let '(h', vs) :=
        (fix go (kvs : list (string * tree)) (h : heap)
           : heap * list (string * value) :=
           match kvs with
           | [] => (h, [])
           | (k, t) :: kvs' =>
               let '(h1, v) := store_tree t h in
               let '(h2, vs) := go kvs' h1 in (h2, (k, v) :: vs)
           end) kvs h in
      (h' ++ [ODict vs], VRef (List.length h'))
  | TRec _ => (h, VNone)
  end.

End Data.

(** ** Built-in operations on values *)
Section Builtins.
Context {F : PyFloat}.

(** [memo] of [copy.deepcopy]: the copy of each object copied so far. *)
Definition memo_t := list (nat * nat).

Definition memo_get (memo : memo_t) (l : nat) : option nat :=
  match find (fun p => Nat.eqb (fst p) l) memo with
  | Some (_, l') => Some l'
  | None => None
  end.

(** The items of a list copied one after the other by [copy]. *)
Fixpoint copy_list
  (copy : memo_t -> heap -> value -> result (heap * memo_t * value))
  (xs : list value) (h : heap) (memo : memo_t)
  : result (heap * memo_t * list value) :=
  match xs with
  | [] => Ok (h, memo, [])
  | x :: xs' =>
      '(h1, memo1, y) <- copy memo h x ;;
      '(h2, memo2, ys) <- copy_list copy xs' h1 memo1 ;;
      Ok (h2, memo2, y :: ys)
  end.

(** The values of a dict copied one after the other by [copy]. *)
Fixpoint copy_dict
  (copy : memo_t -> heap -> value -> result (heap * memo_t * value))
  (kvs : list (string * value)) (h : heap) (memo : memo_t)
  : result (heap * memo_t * list (string * value)) :=
  match kvs with
  | [] => Ok (h, memo, [])
  | (k, x) :: kvs' =>
      '(h1, memo1, y) <- copy memo h x ;;
      '(h2, memo2, ys) <- copy_dict copy kvs' h1 memo1 ;;
      Ok (h2, memo2, (k, y) :: ys)
  end.

(** [copy.deepcopy]: an object is entered in [memo] with its empty copy
    before its items are copied, so that shared and cyclic structures keep
    their shape. Each nested call copies an object not yet in [memo]: a
    depth of [length h] is never exceeded. A reference to no object is
    returned as it is. *)
Fixpoint deepcopy (fuel : nat) (memo : memo_t) (h : heap) (v : value)
  : result (heap * memo_t * value) :=
  match v with
  | VRef l =>
      match memo_get memo l with
      | Some l' => Ok (h, memo, VRef l')
      | None =>
          match heap_get h l, fuel with
          | None, _ => Ok (h, memo, v)
          | Some _, O => Raise RecursionError
          | Some (OList xs), S n =>
              let l' := List.length h in
              '(h1, memo1, ys) <-
                copy_list (deepcopy n) xs (h ++ [OList []]) ((l, l') :: memo) ;;
              Ok (heap_set h1 l' (OList ys), memo1, VRef l')
          | Some (ODict kvs), S n =>
              let l' := List.length h in
              '(h1, memo1, ys) <-
                copy_dict (deepcopy n) kvs (h ++ [ODict []]) ((l, l') :: memo) ;;
              Ok (heap_set h1 l' (ODict ys), memo1, VRef l')
          end
      end
  | _ => Ok (h, memo, v)
  end.

Definition hex_digit (n : nat) : ascii :=
  ascii_of_nat (if n <? 10 then 48 + n else 87 + n).

(** One character inside [repr] of a [str] delimited by [quote]. *)
Definition repr_char (quote c : ascii) : string :=
  let n := PyStr.code c in
  if Ascii.eqb c "\" then "\\"
  else if Ascii.eqb c quote then String "\" (String c EmptyString)
  else if n =? 9 then "\t"
  else if n =? 10 then "\n"
  else if n =? 13 then "\r"
  else if (n <? 32) || (n =? 127)
       then String "\" (String "x" (String (hex_digit (n / 16))
                                           (String (hex_digit (n mod 16))
                                                   EmptyString)))
  else String c EmptyString.

(** [repr(s)] for a [str]: single quotes, unless the text holds a single
    quote and no double quote. *)
Definition repr_str (s : string) : string :=
  let q : ascii := if PyStr.contains "'" s && negb (PyStr.contains dquote s)
                   then ascii_of_nat 34 else "'"%char in
  String q (String.concat "" (map (repr_char q) (list_ascii_of_string s)))
  +:+ String q EmptyString.

(** [repr(v)] *)
Fixpoint repr (t : tree) : string :=
  match t with
  | TNone => "None"
  | TBool true => "True"
  | TBool false => "False"
  | TInt z => PyStr.string_of_Z z
  | TFloat f => float_repr f
  | TStr s => repr_str s
  | TList ts => "[" +:+ PyStr.join ", " (map repr ts) +:+ "]"
  | TDict kvs =>
      "{" +:+ PyStr.join ", "
                (map (fun kv => repr_str (fst kv) +:+ ": " +:+ repr (snd kv))
                     kvs) +:+ "}"
  | TRec false => "[...]"
  | TRec true => "{...}"
  end.

(** [str(v)], which is also what an f-string field [{v}] shows. *)
Definition str (t : tree) : string :=
  match t with
  | TStr s => s
  | _ => repr t
  end.

(** [bool(v)] *)
Definition truthy (t : tree) : bool :=
  match t with
  | TNone => false
  | TBool b => b
  | TInt z => negb (Z.eqb z 0)
  | TFloat f => match float_classify f with FFin 0 _ => false | _ => true end
  | TStr s => negb (String.eqb s "")
  | TList ts => match ts with [] => false | _ => true end
  | TDict kvs => match kvs with [] => false | _ => true end
  | TRec _ => true
  end.

Definition float_of_int (z : Z) : result pyfloat :=
  match float_of_Z z with
  | Some f => Ok f
  | None => Raise OverflowError
  end.

(** [float(v)] *)
Definition as_float (t : tree) : result pyfloat :=
  match t with
  | TFloat f => Ok f
  | TInt z => float_of_int z
  | TBool b => float_of_int (if b then 1 else 0)
  | TStr s =>
      match float_of_string s with
      | Some f => Ok f
      | None => Raise ValueError
      end
  | _ => Raise TypeError
  end.

(** [x == 0] for a float. *)
Definition float_is_zero (f : pyfloat) : bool :=
  match float_classify f with FFin 0 _ => true | _ => false end.

(** The exact value of a number: [bool] and [int] compare with [float]
    without loss. *)
Definition num_of (t : tree) : option fclass :=
  match t with
  | TBool b => Some (FFin (if b then 1 else 0) 0)
  | TInt z => Some (FFin z 0)
  | TFloat f => Some (float_classify f)
  | _ => None
  end.

(** [a == b]. Lists are equal when of one length and equal item by item;
    dicts when of one size and equal key by key. Comparing a container that
    holds itself does not end in Python: RecursionError. *)
Fixpoint py_eq (a b : tree) {struct a} : result bool :=
  match num_of a, num_of b with
  | Some x, Some y =>
      Ok (match num_compare x y with Some Eq => true | _ => false end)
  | _, _ =>
      match a, b with
      | TNone, TNone => Ok true
      | TStr s1, TStr s2 => Ok (String.eqb s1 s2)
      | TList xs, TList ys =>
          if List.length xs =? List.length ys then
            (fix all2 (xs ys : list tree) : result bool :=
               match xs, ys with
               | x :: xs', y :: ys' =>
                   e <- py_eq x y ;; if e then all2 xs' ys' else Ok false
               | _, _ => Ok true
               end) xs ys
          else Ok false
      | TDict xs, TDict ys =>
          if List.length xs =? List.length ys then
            (fix all_in (xs : list (string * tree)) : result bool :=
               match xs with
               | [] => Ok true
               | (k, x) :: xs' =>
                   match dict_get k ys with
                   | None => Ok false
                   | Some y =>
                       e <- py_eq x y ;; if e then all_in xs' else Ok false
                   end
               end) xs
          else Ok false
      | TRec false, (TList _ | TRec false) | TList _, TRec false
      | TRec true, (TDict _ | TRec true) | TDict _, TRec true =>
          Raise RecursionError
      | _, _ => Ok false
      end
  end.

(** [k in t] for a string [k]: a key of a dict, a substring of a string, an
    item of a list. *)
Definition py_in (k : string) (t : tree) : result bool :=
  match t with
  | TDict d => Ok (dict_mem k d)
  | TStr s => Ok (PyStr.contains k s)
  | TList ts =>
      Ok (existsb (fun x => match x with
                            | TStr s => String.eqb k s
                            | _ => false
                            end) ts)
  | _ => Raise TypeError
  end.

(** [t[k]] for a string [k] *)
Definition py_getitem (t : tree) (k : string) : result tree :=
  match t with
  | TDict d => match dict_get k d with Some v => Ok v | None => Raise KeyError end
  | _ => Raise TypeError
  end.

(** [t.get(k, default)] *)
Definition py_get (t : tree) (k : string) (default : tree) : result tree :=
  match t with
  | TDict d => Ok (match dict_get k d with Some v => v | None => default end)
  | _ => Raise AttributeError
  end.

(** [iter(t)]: the items of a list, the keys of a dict, the characters of a
    string. *)
Definition py_iter (t : tree) : result (list tree) :=
  match t with
  | TList ts => Ok ts
  | TDict d => Ok (map (fun kv => TStr (fst kv)) d)
  | TStr s => Ok (map TStr (PyStr.chars s))
  | _ => Raise TypeError
  end.

(** [len(t)] *)
Definition py_len (t : tree) : result nat :=
  match t with
  | TList ts => Ok (List.length ts)
  | TDict d => Ok (List.length d)
  | TStr s => Ok (String.length s)
  | _ => Raise TypeError
  end.

(** A value used as a key of the context. Lists and dicts are unhashable;
    a key that is not a string is outside the model. *)
Definition as_key (field : tree) : result string :=
  match field with
  | TStr s => Ok s
  | TList _ | TDict _ | TRec _ => Raise TypeError
  | _ => Raise Unsupported
  end.

(** The six comparison operators of the condition language. *)
Inductive cmp_op : Type := OpGe | OpLe | OpNe | OpEq | OpGt | OpLt.

Definition holds (op : cmp_op) (c : comparison) : bool :=
  match op, c with
  | OpGe, (Gt | Eq) | OpLe, (Lt | Eq) | OpNe, (Lt | Gt)
  | OpEq, Eq | OpGt, Gt | OpLt, Lt => true
  | _, _ => false
  end.

(** [a < b], [a <= b], [a > b], [a >= b]: numbers by value, strings by code
    points, lists by their first differing item and then by length; any
    other pair of operands is a TypeError. *)
Fixpoint py_order (op : cmp_op) (a b : tree) {struct a} : result bool :=
  match num_of a, num_of b with
  | Some x, Some y =>
      Ok (match num_compare x y with Some c => holds op c | None => false end)
  | _, _ =>
      match a, b with
      | TStr s1, TStr s2 => Ok (holds op (String.compare s1 s2))
      | TList xs, TList ys =>
          (fix go (xs ys : list tree) : result bool :=
             match xs, ys with
             | x :: xs', y :: ys' =>
                 e <- py_eq x y ;; if e then go xs' ys' else py_order op x y
             | _, _ =>
                 Ok (holds op (Nat.compare (List.length xs) (List.length ys)))
             end) xs ys
      | TRec false, (TList _ | TRec false) | TList _, TRec false =>
          Raise RecursionError
      | _, _ => Raise TypeError
      end
  end.

(** [operator.ge], [operator.le], [operator.ne], [operator.eq],
    [operator.gt], [operator.lt]. *)
Definition apply_op (op : cmp_op) (a b : tree) : result bool :=
  match op with
  | OpEq => py_eq a b
  | OpNe => e <- py_eq a b ;; Ok (negb e)
  | _ => py_order op a b
  end.

End Builtins.

(** ** class SafeEvaluator

    The evaluator only reads its context: [ctx] is the context as read at
    the time of the evaluation. *)
Module SafeEvaluator.
Section Self.
Context {F : PyFloat}.
Variable ctx : tree.

Definition op_strs : list string := [">="; "<="; "!="; "=="; ">"; "<"].

Definition OPS : dict cmp_op :=
  [(">=", OpGe); ("<=", OpLe); ("!=", OpNe); ("==", OpEq); (">", OpGt);
   ("<", OpLt)].

Definition _resolve_value (token : string) : tree :=
  let token := PyStr.strip token in
  if String.eqb token "true" then TBool true
  else if String.eqb token "false" then TBool false
  else if String.eqb token "null" then TNone
  else if (PyStr.startswith "'" token && PyStr.endswith "'" token)
          || (PyStr.startswith dquote token && PyStr.endswith dquote token)
  then TStr (PyStr.inner token)
  else
    match PyStr.int_of_string token with
    | Some z => TInt z
    | None =>
        match float_of_string token with
        | Some f => TFloat f
        | None =>
            (fix walk (parts : list string) (val : tree) : tree :=
               match parts with
               | [] => val
               | p :: parts' =>
                   match val with
                   | TDict d =>
                       walk parts' (match dict_get p d with
                                    | Some v => v
                                    | None => TNone
                                    end)
                   | _ => TNone
                   end
               end) (PyStr.split_char "." token) ctx
        end
    end.

Definition push (c : ascii) (parts : list string) : list string :=
  match parts with
  | p :: ps => String c p :: ps
  | [] => [String c EmptyString]
  end.

Definition is_opener (c : ascii) : bool :=
  Ascii.eqb c "(" || Ascii.eqb c "'" || Ascii.eqb c (ascii_of_nat 34).

Definition is_closer (c : ascii) : bool :=
  Ascii.eqb c ")" || Ascii.eqb c "'" || Ascii.eqb c (ascii_of_nat 34).

(** The [while] loop of [_split_on_keyword], from position [i] on: [s] is
    [expr[i:]], the head of the result is [current], and [skip] counts the
    characters of a matched keyword that [i += len(kw)] passes over. *)
Fixpoint split_from (kw : string) (skip depth : nat) (s : string)
  : list string :=
  match s with
  | EmptyString => [EmptyString]
  | String c s' =>
      match skip with
      | S k => split_from kw k depth s'
      | O =>
          if is_opener c then push c (split_from kw 0 (S depth) s')
          else if is_closer c && (0 <? depth)
          then push c (split_from kw 0 (depth - 1) s')
          else if (depth =? 0)
                  && String.eqb (PyStr.lower (PyStr.take (String.length kw) s))
                                kw
          then EmptyString :: split_from kw (String.length kw - 1) depth s'
          else push c (split_from kw 0 depth s')
      end
  end.

Definition _split_on_keyword (expr keyword : string) : list string :=
  split_from keyword 0 0 expr.

(** [any(f(p) for p in parts)] and [all(f(p) for p in parts)]: the
    generator is consumed up to the deciding item. *)
Fixpoint any_of (f : string -> result bool) (parts : list string)
  : result bool :=
  match parts with
  | [] => Ok false
  | p :: parts' => b <- f p ;; if b then Ok true else any_of f parts'
  end.

Fixpoint all_of (f : string -> result bool) (parts : list string)
  : result bool :=
  match parts with
  | [] => Ok true
  | p :: parts' => b <- f p ;; if b then all_of f parts' else Ok false
  end.

(** [try: return self.OPS[op_str](left, right) except TypeError: return
    False] *)
Definition compare_values (op : cmp_op) (left right : tree) : result bool :=
  match apply_op op left right with
  | Raise TypeError => Ok false
  | r => r
  end.

Section Recursion.
(** [self.evaluate], called on the text inside outer parentheses. *)
Variable self_evaluate : string -> result bool.

Definition _parse_comparison (expr : string) : result bool :=
  if PyStr.startswith "(" expr && PyStr.endswith ")" expr
  then self_evaluate (PyStr.inner expr)
  else
    (fix try_ops (ops : list string) : result bool :=
       match ops with
       | [] => Ok (truthy (_resolve_value expr))
       | op_str :: ops' =>
           match PyStr.find op_str expr with
           | None => try_ops ops'
           | Some idx =>
               let left_str := PyStr.strip (PyStr.take idx expr) in
               let right_str :=
                 PyStr.strip (PyStr.drop (idx + String.length op_str) expr) in
               let left := _resolve_value left_str in
               let right := _resolve_value right_str in
               match dict_get op_str OPS with
               | Some op => compare_values op left right
               | None => Raise KeyError
               end
           end
       end) op_strs.

Definition _parse_not (expr : string) : result bool :=
  if PyStr.startswith "not " expr
  then b <- _parse_comparison (PyStr.strip (PyStr.drop 4 expr)) ;; Ok (negb b)
  else _parse_comparison expr.

Definition _parse_and (expr : string) : result bool :=
  let parts := _split_on_keyword expr " and " in
  if 1 <? List.length parts
  then all_of (fun p => _parse_not (PyStr.strip p)) parts
  else _parse_not expr.

Definition _parse_or (expr : string) : result bool :=
  let parts := _split_on_keyword expr " or " in
  if 1 <? List.length parts
  then any_of (fun p => _parse_and (PyStr.strip p)) parts
  else _parse_and expr.

End Recursion.

(** [evaluate] calls itself only on the text between outer parentheses, two
    characters shorter at least: [depth] bounds the nesting. *)
Fixpoint evaluate_depth (depth : nat) (expression : string) : result bool :=
  match depth with
  | O => Raise RecursionError
  | S d => _parse_or (evaluate_depth d) (PyStr.strip expression)
  end.

Definition evaluate (expression : string) : result bool :=
  evaluate_depth (S (String.length expression)) expression.

End Self.
End SafeEvaluator.

(** ** Code that mutates objects

    A computation on the heap returns the heap it leaves, also when it
    raises. *)
Section HeapMonad.
Context {F : PyFloat}.

Definition M (A : Type) : Type := heap -> heap * result A.

Definition ret {A : Type} (a : A) : M A := fun h => (h, Ok a).

Definition lift {A : Type} (r : result A) : M A := fun h => (h, r).

Definition mbind {A B : Type} (m : M A) (k : A -> M B) : M B :=
  fun h => match m h with
           | (h', Ok a) => k a h'
           | (h', Raise e) => (h', Raise e)
           end.

(** The dict object at [l]. *)
Definition read_dict (l : nat) : M (dict value) :=
  fun h => match heap_get h l with
           | Some (ODict d) => (h, Ok d)
           | _ => (h, Raise TypeError)
           end.

Definition write (l : nat) (o : obj) : M unit :=
  fun h => (heap_set h l o, Ok tt).

Definition alloc (o : obj) : M nat :=
  fun h => (h ++ [o], Ok (List.length h)).

(** A value of a document entering the heap. *)
Definition store (t : tree) : M value :=
  fun h => let '(h', v) := store_tree t h in (h', Ok v).

(** A heap value read in full. *)
Definition read (v : value) : M tree := fun h => (h, Ok (snapshot h v)).

(** [isinstance(v, list)] *)
Definition isinstance_list (v : value) : M bool :=
  fun h => (h, Ok match v with
                  | VRef l => match heap_get h l with
                              | Some (OList _) => true
                              | _ => false
                              end
                  | _ => false
                  end).

(** [target.append(v)] *)
Definition list_append (target v : value) : M unit :=
  fun h => match target with
           | VRef l => match heap_get h l with
                       | Some (OList xs) =>
                           (heap_set h l (OList (xs ++ [v])), Ok tt)
                       | _ => (h, Raise AttributeError)
                       end
           | _ => (h, Raise AttributeError)
           end.

End HeapMonad.

Notation "x <~ m ;; k" := (mbind m (fun x => k))
  (at level 61, m at next level, right associativity).

(** ** class RuleExecutor

    [ctx] is the location of the context dict. The values an action carries
    belong to the rule document; the model keeps documents apart from the
    heap and builds a value's objects when an action puts it in the
    context. *)
Module RuleExecutor.
Section Self.
Context {F : PyFloat}.

(** [ctx.get(field, default)] *)
Definition ctx_get (ctx : nat) (field : tree) (default : value) : M value :=
  k <~ lift (as_key field) ;;
  d <~ read_dict ctx ;;
  ret (match dict_get k d with Some v => v | None => default end).

(** [ctx[field] = v] *)
Definition ctx_set (ctx : nat) (field : tree) (v : value) : M unit :=
  k <~ lift (as_key field) ;;
  d <~ read_dict ctx ;;
  write ctx (ODict (dict_set k v d)).

(** [float(ctx.get(field, 0))] *)
Definition ctx_float (ctx : nat) (field : tree) : M pyfloat :=
  v <~ ctx_get ctx field (VInt 0) ;;
  t <~ read v ;;
  lift (as_float t).

(** The three actions [ctx[field] = round(float(ctx.get(field, 0)) op
    float(by), 4)]: the value of the field after the assignment. *)
Definition arith (op : pyfloat -> pyfloat -> pyfloat) (ctx : nat)
  (field operand : tree) : M pyfloat :=
  x <~ ctx_float ctx field ;;
  y <~ lift (as_float operand) ;;
  let r := float_round4 (op x y) in
  _ <~ ctx_set ctx field (VFloat r) ;;
  ret r.

(** The two statements of the APPEND action: [if not
    isinstance(ctx.get(field), list): ctx[field] = []] and
    [ctx[field].append(value)]. *)
Definition append_value (ctx : nat) (field value : tree) : M unit :=
  old <~ ctx_get ctx field VNone ;;
  is_list <~ isinstance_list old ;;
  _ <~ (if negb is_list then
          l <~ alloc (OList []) ;; ctx_set ctx field (VRef l)
        else ret tt) ;;
  target <~ ctx_get ctx field VNone ;;
  v <~ store value ;;
  list_append target v.

(** The loop of the LOG action over [ctx.items()]: one [replace] per entry,
    in the order of the context, each applied to the result of the one
    before. *)
Definition render (h : heap) (items : dict value) (message : string) : string :=
  fold_left
    (fun message kv =>
       PyStr.replace ("{" +:+ fst kv +:+ "}") (str (snapshot h (snd kv)))
                     message)
    items message.

Definition _execute_action (action : tree) (ctx : nat) (rule_id : tree)
  : M (option string) :=
  is_set <~ lift (py_in "set" action) ;;
  if is_set then
    field <~ lift (py_getitem action "set") ;;
    value <~ lift (py_get action "value" TNone) ;;
    v <~ store value ;;
    _ <~ ctx_set ctx field v ;;
    ret (Some ("[" +:+ str rule_id +:+ "] SET " +:+ str field +:+ " = "
               +:+ repr value))
  else
  is_multiply <~ lift (py_in "multiply" action) ;;
  if is_multiply then
    field <~ lift (py_getitem action "multiply") ;;
    factor <~ lift (py_get action "by" (TInt 1)) ;;
    r <~ arith float_mul ctx field factor ;;
    ret (Some ("[" +:+ str rule_id +:+ "] MULTIPLY " +:+ str field +:+ " × "
               +:+ str factor +:+ " → " +:+ float_repr r))
  else
  is_add <~ lift (py_in "add" action) ;;
  if is_add then
    field <~ lift (py_getitem action "add") ;;
    amount <~ lift (py_get action "by" (TInt 0)) ;;
    r <~ arith float_add ctx field amount ;;
    ret (Some ("[" +:+ str rule_id +:+ "] ADD " +:+ str field +:+ " + "
               +:+ str amount +:+ " → " +:+ float_repr r))
  else
  is_subtract <~ lift (py_in "subtract" action) ;;
  if is_subtract then
    field <~ lift (py_getitem action "subtract") ;;
    amount <~ lift (py_get action "by" (TInt 0)) ;;
    r <~ arith float_sub ctx field amount ;;
    ret (Some ("[" +:+ str rule_id +:+ "] SUBTRACT " +:+ str field +:+ " - "
               +:+ str amount +:+ " → " +:+ float_repr r))
  else
  is_divide <~ lift (py_in "divide" action) ;;
  if is_divide then
    field <~ lift (py_getitem action "divide") ;;
    divisor <~ lift (py_get action "by" (TInt 1)) ;;
    d <~ lift (as_float divisor) ;;
    _ <~ (if negb (float_is_zero d) then
            x <~ ctx_float ctx field ;;
            ctx_set ctx field (VFloat (float_round4 (float_div x d)))
          else ret tt) ;;
    v <~ ctx_get ctx field VNone ;;
    t <~ read v ;;
    ret (Some ("[" +:+ str rule_id +:+ "] DIVIDE " +:+ str field +:+ " / "
               +:+ str divisor +:+ " → " +:+ str t))
  else
  is_append <~ lift (py_in "append" action) ;;
  if is_append then
    field <~ lift (py_getitem action "append") ;;
    value <~ lift (py_get action "value" TNone) ;;
    _ <~ append_value ctx field value ;;
    ret (Some ("[" +:+ str rule_id +:+ "] APPEND " +:+ repr value +:+ " → "
               +:+ str field))
  else
  is_log <~ lift (py_in "log" action) ;;
  if is_log then
    message <~ lift (py_getitem action "log") ;;
    items <~ read_dict ctx ;;
    rendered <~ (fun h => (h, Ok (render h items (str message)))) ;;
    ret (Some ("[" +:+ str rule_id +:+ "] LOG: " +:+ rendered))
  else ret None.

(** The [for] loop of [execute] over the actions not yet run. *)
Fixpoint execute_loop (actions : list tree) (ctx : nat) (rule_id : tree)
  (logs : list string) : M (list string) :=
  match actions with
  | [] => ret logs
  | action :: actions' =>
      log_entry <~ _execute_action action ctx rule_id ;;
      execute_loop actions' ctx rule_id
        (match log_entry with
         | Some line => if String.eqb line "" then logs else logs ++ [line]
         | None => logs
         end)
  end.

Definition execute (actions : tree) (ctx : nat) (rule_id : tree)
  : M (list string) :=
  items <~ lift (py_iter actions) ;;
  execute_loop items ctx rule_id [].

End Self.
End RuleExecutor.

(** ** class RulesEngine *)
Module RulesEngine.

(** A file of the rules directory: its text and its modification time, which
    the engine only compares for equality. *)
Record file : Type := { content : string; mtime : Z }.

(** The files, by path. Reading and writing an existing directory is taken
    to succeed. *)
Definition filesystem := dict file.

(** [os.path.join(a, b)] on POSIX paths. *)
Definition os_path_join (a b : string) : string :=
  if PyStr.startswith "/" b then b
  else if String.eqb a "" || PyStr.endswith "/" a then a +:+ b
  else a +:+ "/" +:+ b.

Section Self.
Context {F : PyFloat}.
(** [yaml.safe_load] on the text of a document. *)
Variable yaml_safe_load : string -> result tree.
(** [datetime.utcnow().isoformat()] *)
Variable utcnow_isoformat : string.

(** The engine object: [self.rules_dir] and [self._cache]. *)
Record engine : Type := { rules_dir : string; _cache : dict tree }.

(** One entry of the execution log. A key the source leaves out of an entry
    is [None] here. *)
Record log_entry : Type := {
  le_rule_id : tree;
  le_name : tree;
  le_priority : option tree;
  le_description : option tree;
  le_condition : option tree;
  le_matched : bool;
  le_actions_executed : option nat;
  le_error : option exn;
  le_logs : list string
}.

(** The three lists the loop appends to. *)
Record trace : Type := {
  fired : list tree;
  skipped : list tree;
  log : list log_entry
}.

Record metadata_t : Type := {
  md_ruleset : string;
  md_ruleset_name : tree;
  md_version : tree;
  md_priority_mode : tree
}.

(** The dict [evaluate] returns; the two time readings of its metadata are
    left out. *)
Record evaluation : Type := {
  context : value;
  rules_fired : list tree;
  rules_skipped : list tree;
  rules_fired_count : nat;
  rules_total : nat;
  execution_log : list log_entry;
  metadata : metadata_t
}.

(** [key=lambda r: r.get("priority", 50)] *)
Definition sort_key (r : tree) : result tree := py_get r "priority" (TInt 50).

Fixpoint map_result {A B : Type} (f : A -> result B) (l : list A)
  : result (list B) :=
  match l with
  | [] => Ok []
  | x :: l' => y <- f x ;; ys <- map_result f l' ;; Ok (y :: ys)
  end.

(** [list.sort] compares keys with [<] only and is stable. It is modelled by
    insertion from the right: an item goes before the first later item that
    is not smaller. Keys that [<] orders totally have one stable
    arrangement, whatever the sorting method. *)
Fixpoint insert_keyed (x : tree * tree) (sorted : list (tree * tree))
  : result (list (tree * tree)) :=
  match sorted with
  | [] => Ok [x]
  | y :: ys =>
      smaller <- py_order OpLt (fst y) (fst x) ;;
      if smaller then (r <- insert_keyed x ys ;; Ok (y :: r))
      else Ok (x :: y :: ys)
  end.

Fixpoint sort_keyed (l : list (tree * tree)) : result (list (tree * tree)) :=
  match l with
  | [] => Ok []
  | x :: l' => s <- sort_keyed l' ;; insert_keyed x s
  end.

(** [rules.sort(key=lambda r: r.get("priority", 50))] *)
Definition sort_rules (rules : tree) : result tree :=
  match rules with
  | TList rs =>
      keyed <- map_result (fun r => k <- sort_key r ;; Ok (k, r)) rs ;;
      sorted <- sort_keyed keyed ;;
      Ok (TList (map snd sorted))
  | _ => Raise AttributeError
  end.

Definition path_of (self : engine) (name : string) : string :=
  os_path_join self.(rules_dir) (name +:+ ".yaml").

Definition cache_set (self : engine) (name : string) (data : tree) : engine :=
  {| rules_dir := self.(rules_dir);
     _cache := dict_set name data self.(_cache) |}.

Definition load_ruleset (fs : filesystem) (self : engine) (name : string)
  (force_reload : bool) : engine * result tree :=
  let path := path_of self name in
  match dict_get path fs with
  | None => (self, Raise FileNotFoundError)
  | Some f =>
      let mtime := TInt f.(mtime) in
      let cached := dict_get name self.(_cache) in
      let hit :=
        if force_reload then Ok None
        else match cached with
             | None => Ok None
             | Some c =>
                 if truthy c then
                   m <- py_get c "_mtime" TNone ;;
                   same <- py_eq m mtime ;;
                   Ok (if same then Some c else None)
                 else Ok None
             end in
      match hit with
      | Raise e => (self, Raise e)
      | Ok (Some c) => (self, Ok c)
      | Ok None =>
          let loaded :=
            data <- yaml_safe_load f.(content) ;;
            has_ruleset <- py_in "ruleset" data ;;
            if negb has_ruleset then Raise ValueError else
            has_rules <- py_in "rules" data ;;
            if negb has_rules then Raise ValueError else
            rules <- py_getitem data "rules" ;;
            sorted <- sort_rules rules ;;
            match data with
            | TDict d =>
                Ok (TDict (dict_set "_loaded_at" (TStr utcnow_isoformat)
                             (dict_set "_mtime" mtime
                                (dict_set "rules" sorted d))))
            | _ => Raise TypeError
            end in
          match loaded with
          | Raise e => (self, Raise e)
          | Ok data => (cache_set self name data, Ok data)
          end
      end
  end.

Definition get_ruleset_yaml (fs : filesystem) (self : engine) (name : string)
  : result string :=
  match dict_get (path_of self name) fs with
  | None => Raise FileNotFoundError
  | Some f => Ok f.(content)
  end.

(** [save_ruleset_yaml]: [written_at] is the modification time the file
    gets. What is returned is the file system, the engine and the result:
    the source writes the file and drops the cache entry before it computes
    the rule count. *)
Definition save_ruleset_yaml (written_at : Z) (fs : filesystem)
  (self : engine) (name content : string)
  : filesystem * engine * result (string * nat) :=
  let checked :=
    parsed <- yaml_safe_load content ;;
    has_ruleset <- py_in "ruleset" parsed ;;
    if negb has_ruleset then Raise ValueError else
    has_rules <- py_in "rules" parsed ;;
    if negb has_rules then Raise ValueError else Ok parsed in
  match checked with
  | Raise e => (fs, self, Raise e)
  | Ok parsed =>
      let path := path_of self name in
      let fs' := dict_set path {| content := content; mtime := written_at |} fs in
      let self' :=
        if dict_mem name self.(_cache)
        then {| rules_dir := self.(rules_dir);
                _cache := dict_del name self.(_cache) |}
        else self in
      (fs', self',
       rules <- py_getitem parsed "rules" ;;
       rule_count <- py_len rules ;;
       Ok (path, rule_count))
  end.

(** [copy.deepcopy(input_data)] *)
Definition copy_deepcopy (v : value) : M value :=
  fun h => match deepcopy (S (List.length h)) [] h v with
           | Ok (h', _, v') => (h', Ok v')
           | Raise e => (h, Raise e)
           end.

(** [context.setdefault("tags", [])]: the location of the context dict. *)
Definition setdefault_tags (context : value) : M nat :=
  match context with
  | VRef c =>
      l <~ alloc (OList []) ;;
      fun h => match heap_get h c with
               | Some (ODict d) =>
                   if dict_mem "tags" d then (h, Ok c)
                   else (heap_set h c (ODict (dict_set "tags" (VRef l) d)),
                         Ok c)
               | _ => (h, Raise AttributeError)
               end
  | _ => lift (Raise AttributeError)
  end.

(** One turn of the [for] loop of [evaluate]: the trace after the rule, and
    whether the rule matched. *)
Definition visit (rule : tree) (ctx : nat) (t : trace) : M (trace * bool) :=
  rule_id <~ lift (py_get rule "id" (TStr "???")) ;;
  condition <~ lift (py_get rule "condition" (TStr "")) ;;
  name <~ lift (py_get rule "name" rule_id) ;;
  c <~ read (VRef ctx) ;;
  match (match condition with
         | TStr expression => SafeEvaluator.evaluate c expression
         | _ => Raise AttributeError
         end) with
  | Raise ex =>
      ret ({| fired := t.(fired);
              skipped := t.(skipped) ++ [rule_id];
              log := t.(log) ++
                [{| le_rule_id := rule_id; le_name := name;
                    le_priority := None; le_description := None;
                    le_condition := None; le_matched := false;
                    le_actions_executed := None; le_error := Some ex;
                    le_logs := [] |}] |}, false)
  | Ok true =>
      actions <~ lift (py_get rule "actions" (TList [])) ;;
      action_logs <~ RuleExecutor.execute actions ctx rule_id ;;
      priority <~ lift (py_get rule "priority" (TInt 50)) ;;
      description <~ lift (py_get rule "description" (TStr "")) ;;
      n <~ lift (py_len actions) ;;
      ret ({| fired := t.(fired) ++ [rule_id];
              skipped := t.(skipped);
              log := t.(log) ++
                [{| le_rule_id := rule_id; le_name := name;
                    le_priority := Some priority;
                    le_description := Some description;
                    le_condition := Some condition; le_matched := true;
                    le_actions_executed := Some n; le_error := None;
                    le_logs := action_logs |}] |}, true)
  | Ok false =>
      priority <~ lift (py_get rule "priority" (TInt 50)) ;;
      ret ({| fired := t.(fired);
              skipped := t.(skipped) ++ [rule_id];
              log := t.(log) ++
                [{| le_rule_id := rule_id; le_name := name;
                    le_priority := Some priority; le_description := None;
                    le_condition := Some condition; le_matched := false;
                    le_actions_executed := None; le_error := None;
                    le_logs := [] |}] |}, false)
  end.

(** [priority_mode == "first_match"] *)
Definition is_first_match (priority_mode : tree) : bool :=
  match priority_mode with
  | TStr s => String.eqb s "first_match"
  | _ => false
  end.

(** The [for] loop of [evaluate] over the rules not yet visited; [break]
    leaves them unvisited. *)
Fixpoint run_rules (priority_mode : tree) (rules : list tree) (ctx : nat)
  (t : trace) : M trace :=
  match rules with
  | [] => ret t
  | rule :: rules' =>
      r <~ visit rule ctx t ;;
      if snd r && is_first_match priority_mode then ret (fst r)
      else run_rules priority_mode rules' ctx (fst r)
  end.

(** [evaluate], once the ruleset is loaded. *)
Definition evaluate_loaded (ruleset_name : string) (ruleset_data : tree)
  (input_data : value) : M evaluation :=
  ruleset_meta <~ lift (py_getitem ruleset_data "ruleset") ;;
  rules <~ lift (py_get ruleset_data "rules" (TList [])) ;;
  priority_mode <~ lift (py_get ruleset_meta "priority_mode" (TStr "all")) ;;
  context <~ copy_deepcopy input_data ;;
  ctx <~ setdefault_tags context ;;
  rule_list <~ lift (py_iter rules) ;;
  t <~ run_rules priority_mode rule_list ctx
         {| fired := []; skipped := []; log := [] |} ;;
  total <~ lift (py_len rules) ;;
  ruleset_name' <~ lift (py_get ruleset_meta "name" TNone) ;;
  version <~ lift (py_get ruleset_meta "version" TNone) ;;
  ret {| context := context;
         rules_fired := t.(fired);
         rules_skipped := t.(skipped);
         rules_fired_count := List.length t.(fired);
         rules_total := total;
         execution_log := t.(log);
         metadata := {| md_ruleset := ruleset_name;
                        md_ruleset_name := ruleset_name';
                        md_version := version;
                        md_priority_mode := priority_mode |} |}.

Definition evaluate (fs : filesystem) (self : engine) (ruleset_name : string)
  (input_data : value) (force_reload : bool) (h : heap)
  : engine * heap * result evaluation :=
  match load_ruleset fs self ruleset_name force_reload with
  | (self', Raise e) => (self', h, Raise e)
  | (self', Ok ruleset_data) =>
      let '(h', r) := evaluate_loaded ruleset_name ruleset_data input_data h in
      (self', h', r)
  end.

(** One item of what [list_rulesets] returns: the dict of a ruleset that
    loads, or the identifier and the error of one that does not. *)
Inductive listed : Type :=
| Summary (info : dict tree)
| Broken (id : string) (error : exn).

(** The dict [list_rulesets] builds for a loaded ruleset, its values in the
    order in which the source computes them. *)
Definition summary (name : string) (data : tree) : result (dict tree) :=
  ruleset <- py_getitem data "ruleset" ;;
  name' <- py_get ruleset "name" (TStr name) ;;
  description <- py_get ruleset "description" (TStr "") ;;
  version <- py_get ruleset "version" (TStr "—") ;;
  author <- py_get ruleset "author" (TStr "—") ;;
  rules <- py_get data "rules" (TList []) ;;
  rule_count <- py_len rules ;;
  priority_mode <- py_get ruleset "priority_mode" (TStr "all") ;;
  Ok [("id", TStr name); ("name", name'); ("description", description);
      ("version", version); ("author", author);
      ("rule_count", TInt (Z.of_nat rule_count));
      ("priority_mode", priority_mode)].

(** The [for] loop of [list_rulesets] over the file names not yet seen. *)
Fixpoint list_loop (fnames : list string) (fs : filesystem) (self : engine)
  (rulesets : list listed) : engine * list listed :=
  match fnames with
  | [] => (self, rulesets)
  | fname :: fnames' =>
      if PyStr.endswith ".yaml" fname || PyStr.endswith ".yml" fname then
        let name := hd "" (PyStr.rsplit1 "." fname) in
        match load_ruleset fs self name false with
        | (self', Ok data) =>
            list_loop fnames' fs self'
              (rulesets ++ [match summary name data with
                            | Ok info => Summary info
                            | Raise e => Broken name e
                            end])
        | (self', Raise e) =>
            list_loop fnames' fs self' (rulesets ++ [Broken name e])
        end
      else list_loop fnames' fs self rulesets
  end.

(** [list_rulesets]; [listing] is what [os.listdir(self.rules_dir)]
    returns, in its order. *)
Definition list_rulesets (listing : list string) (fs : filesystem)
  (self : engine) : engine * list listed :=
  list_loop listing fs self [].

End Self.
End RulesEngine.

(** ** IEEE 754 binary64 floats

    An implementation of [PyFloat] on the kernel's binary64 floats, on which
    the examples run: conversions from integers and decimal text are
    correctly rounded (ties to even), [round] rounds the exact value to four
    decimals and then to the nearest float, and [repr] is the shortest
    decimal text that reads back as the same float. *)
Module Binary64.
Import PrimFloat SpecFloat FloatOps.
Local Open Scope Z_scope.

Definition classify64 (f : float) : fclass :=
  match Prim2SF f with
  | S754_zero _ => FFin 0 0
  | S754_infinity s => FInf s
  | S754_nan => FNaN
  | S754_finite s m e => FFin (if s then Z.neg m else Z.pos m) e
  end.

(** [p / q] rounded to the nearest integer, ties to even, for [0 < q]. *)
Definition div_nearest_even (p q : Z) : Z :=
  let d := p / q in
  match Z.compare (2 * (p mod q)) q with
  | Lt => d
  | Gt => d + 1
  | Eq => if Z.even d then d else d + 1
  end.

(** The float nearest to [a / q] (negated when [negative]), for [0 <= a]
    and [0 < q]: 53 significant bits, fewer below the normal range. *)
Definition nearest (negative : bool) (a q : Z) : float :=
  if a =? 0 then (if negative then neg_zero else zero)
  else
    let g := Z.log2 a - Z.log2 q in
    let below := if 0 <=? g then a <? q * 2 ^ g else a * 2 ^ (- g) <? q in
    let e := Z.max ((if below then g - 1 else g) - 52) (-1074) in
    let m := if 0 <=? e then div_nearest_even a (q * 2 ^ e)
             else div_nearest_even (a * 2 ^ (- e)) q in
    SF2Prim (binary_normalize prec emax (if negative then - m else m) e
                              negative).

Definition of_Z64 (z : Z) : option float :=
  let f := nearest (z <? 0) (Z.abs z) 1 in
  match Prim2SF f with
  | S754_infinity _ => None
  | _ => Some f
  end.

Definition round4_64 (f : float) : float :=
  match Prim2SF f with
  | S754_finite s m e =>
      let n := if 0 <=? e then Z.pos m * 2 ^ e * 10000
               else div_nearest_even (Z.pos m * 10000) (2 ^ (- e)) in
      nearest s n 10000
  | _ => f
  end.

(** [a * 10^s] as a fraction. *)
Definition scaled (a s : Z) : Z * Z :=
  if 0 <=? s then (a * 10 ^ s, 1) else (a, 10 ^ (- s)).

(** Whether [d * 10^s] reads back as the positive float [f]. *)
Definition reads_back (f : float) (d s : Z) : bool :=
  let '(a, q) := scaled d s in PrimFloat.eqb (nearest false a q) f.

(** The decimal digits of the shortest text that reads back as the finite
    positive float [m * 2^e], with the position of its decimal point. *)
Definition shortest_digits (f : float) (m e : Z) : Z * Z :=
  let '(num, den) := if 0 <=? e then (m * 2 ^ e, 1) else (m, 2 ^ (- e)) in
  let below10 (k : Z) : bool :=
    if 0 <=? k then num <? 10 ^ k * den else num * 10 ^ (- k) <? den in
  let k0 := (Z.log2 m + e) * 30103 / 100000 - 1 in
  let k := (fix up (n : nat) (k : Z) : Z :=
              match n with
              | O => k
              | S n' => if below10 k then k else up n' (k + 1)
              end) 6%nat k0 in
  (fix search (n : nat) (digits : Z) : Z * Z :=
     match n with
     | O => (0, 0)
     | S n' =>
         let s := k - digits in
         let lo := if 0 <=? s then num / (10 ^ s * den)
                   else num * 10 ^ (- s) / den in
         let hi := lo + 1 in
         let lo_ok := reads_back f lo s in
         let hi_ok := reads_back f hi s in
         let '(la, lq) := scaled lo s in
         let '(ha, hq) := scaled hi s in
         (* v - lo <= hi - v, over the common denominator den * lq *)
         let lo_closer :=
           (num * lq - la * den) * hq <=? (ha * den - num * hq) * lq in
         if lo_ok && (negb hi_ok || lo_closer) then (lo, s)
         else if hi_ok then (hi, s)
         else search n' (digits + 1)
     end) 17%nat 1.

Fixpoint zeros (n : nat) : string :=
  match n with O => EmptyString | S n' => String "0" (zeros n') end.

(** Trailing zeros of the digits move into the exponent. *)
Fixpoint strip_zeros (fuel : nat) (d s : Z) : Z * Z :=
  match fuel with
  | O => (d, s)
  | S n => if (d mod 10 =? 0) && negb (d =? 0) then strip_zeros n (d / 10) (s + 1)
           else (d, s)
  end.

Definition repr_finite (f : float) (m e : Z) : string :=
  let '(d0, s0) := shortest_digits f m e in
  let '(d, s) := strip_zeros 20 d0 s0 in
  let ds := PyStr.string_of_Z d in
  let nd := Z.of_nat (String.length ds) in
  let decpt := s + nd in
  if (-4 <? decpt) && (decpt <=? 16) then
    if decpt <=? 0 then "0." +:+ zeros (Z.to_nat (- decpt)) +:+ ds
    else if nd <=? decpt then ds +:+ zeros (Z.to_nat (decpt - nd)) +:+ ".0"
    else PyStr.take (Z.to_nat decpt) ds +:+ "." +:+ PyStr.drop (Z.to_nat decpt) ds
  else
    let x := decpt - 1 in
    let xs := PyStr.string_of_Z (Z.abs x) in
    PyStr.take 1 ds +:+ (if 1 <? nd then "." +:+ PyStr.drop 1 ds else "")
    +:+ "e" +:+ (if x <? 0 then "-" else "+")
    +:+ (if Z.abs x <? 10 then "0" else "") +:+ xs.

Definition repr64 (f : float) : string :=
  match Prim2SF f with
  | S754_zero s => if s then "-0.0" else "0.0"
  | S754_infinity s => if s then "-inf" else "inf"
  | S754_nan => "nan"
  | S754_finite s m e =>
      (if s then "-" else "") +:+ repr_finite (abs f) (Z.pos m) e
  end.

(** The text before the first character that satisfies [p], and the text
    after it when there is one. *)
Fixpoint split_first (p : ascii -> bool) (s : string) : string * option string :=
  match s with
  | EmptyString => (EmptyString, None)
  | String c s' =>
      if p c then (EmptyString, Some s')
      else let '(a, b) := split_first p s' in (String c a, b)
  end.

Fixpoint count_digits (s : string) : Z :=
  match s with
  | EmptyString => 0
  | String c s' => (if PyStr.is_digit c then 1 else 0) + count_digits s'
  end.

(** A run of digits that may be empty. *)
Definition digits_opt (s : string) : option Z :=
  if String.eqb s "" then Some 0 else PyStr.parse_digits 0 false s.

Definition signed_digits (s : string) : option Z :=
  match s with
  | String "-" s' => option_map Z.opp (PyStr.parse_digits 0 false s')
  | String "+" s' => PyStr.parse_digits 0 false s'
  | _ => PyStr.parse_digits 0 false s
  end.

(** [float(s)]: an optional sign, then [inf], [infinity] or [nan] in any
    case, or decimal digits with an optional point and exponent. *)
Definition of_string64 (s : string) : option float :=
  let s := PyStr.strip s in
  let '(negative, body) :=
    match s with
    | String "-" r => (true, r)
    | String "+" r => (false, r)
    | _ => (false, s)
    end in
  let name := PyStr.lower body in
  if String.eqb name "inf" || String.eqb name "infinity"
  then Some (if negative then neg_infinity else infinity)
  else if String.eqb name "nan" then Some nan
  else
    let '(mant, expo) :=
      split_first (fun c => Ascii.eqb c "e" || Ascii.eqb c "E") body in
    let '(ip, fp) := split_first (fun c => Ascii.eqb c ".") mant in
    let fp := match fp with Some t => t | None => EmptyString end in
    if String.eqb ip "" && String.eqb fp "" then None
    else
      match digits_opt ip, digits_opt fp,
            match expo with Some t => signed_digits t | None => Some 0 end with
      | Some i, Some f, Some x =>
          let nf := count_digits fp in
          let m := i * 10 ^ nf + f in
          let magnitude := x - nf + Z.log2 m * 30103 / 100000 in
          if m =? 0 then Some (if negative then neg_zero else zero)
          else if 400 <? magnitude
          then Some (if negative then neg_infinity else infinity)
          else if magnitude <? -400
          then Some (if negative then neg_zero else zero)
          else let '(a, q) := scaled m (x - nf) in Some (nearest negative a q)
      | _, _, _ => None
      end.

#[global] Instance floats : PyFloat := {|
  pyfloat := float;
  float_of_Z := of_Z64;
  float_of_string := of_string64;
  float_classify := classify64;
  float_add := add;
  float_sub := sub;
  float_mul := mul;
  float_div := div;
  float_round4 := round4_64;
  float_repr := repr64
|}.

End Binary64.

(** * Example data

    Contexts, rules and rule documents on which the properties below are
    evaluated, on binary64 floats. *)
Module Fixtures.
Import RulesEngine PrimFloat.

(** The context [{age: 67, name: 'bob', base_premium: 360.0}] at location
    0. *)
Definition heap0 : heap :=
  [ODict [("age", VInt 67); ("name", VStr "bob");
          ("base_premium", VFloat 360%float)]].

Definition ctx0 : tree := snapshot heap0 (VRef 0).

Definition empty_trace : trace := {| fired := []; skipped := []; log := [] |}.

(** A rule with the empty condition and one action. *)
Definition unconditional_rule : tree :=
  TDict [("id", TStr "R1"); ("condition", TStr "");
         ("actions", TList [TDict [("set", TStr "flag"); ("value", TInt 1)]])].

(** A rule that compares a string with a number. *)
Definition mismatched_rule : tree :=
  TDict [("id", TStr "R2"); ("condition", TStr "name > 5");
         ("actions", TList [TDict [("set", TStr "flag"); ("value", TInt 1)]])].

Definition log_action : dict tree :=
  [("log", TStr "Premium is {base_premium}")].

(** A context in which one value is the placeholder of another entry. *)
Definition heap_nested : heap :=
  [ODict [("a", VStr "{b}"); ("b", VStr "x")]].

(** A context in which a field holds [None]. *)
Definition heap_none : heap := [ODict [("x", VNone)]].

(** An action list on a context without the field it works on. *)
Definition totals : list tree :=
  [TDict [("add", TStr "total"); ("by", TInt 2)];
   TDict [("multiply", TStr "total"); ("by", TFloat 1.5%float)];
   TDict [("divide", TStr "total"); ("by", TInt 0)];
   TDict [("append", TStr "tags"); ("value", TStr "senior")];
   TDict [("set", TStr "name"); ("value", TList [TStr "a"; TStr "b"])];
   TDict [("log", TStr "total is {total}")]].

(** Three rules: the first does not match a context of age 67, the two
    others do. *)
Definition minor_rule : tree :=
  TDict [("id", TStr "minor"); ("priority", TInt 10);
         ("condition", TStr "age < 18");
         ("actions", TList [TDict [("set", TStr "band"); ("value", TStr "minor")]])].

Definition senior_rule : tree :=
  TDict [("id", TStr "senior"); ("priority", TInt 20);
         ("condition", TStr "age > 60");
         ("actions",
          TList [TDict [("multiply", TStr "base_premium"); ("by", TFloat 0.9%float)];
                 TDict [("append", TStr "tags"); ("value", TStr "senior")]])].

Definition adult_rule : tree :=
  TDict [("id", TStr "adult"); ("priority", TInt 30);
         ("condition", TStr "age >= 18");
         ("actions", TList [TDict [("set", TStr "band"); ("value", TStr "adult")]])].

Definition first_match : tree := TStr "first_match".

(** The input [{age: 67, base_premium: 400.0}], and the context the loop
    starts from: its copy with [tags]. *)
Definition heap_input : heap :=
  [ODict [("age", VInt 67); ("base_premium", VFloat 400%float)]].

Definition heap_start : heap :=
  heap_input ++
  [ODict [("age", VInt 67); ("base_premium", VFloat 400%float);
          ("tags", VRef 2)];
   OList []].

Definition after_minor : trace :=
    match snd (run_rules first_match [minor_rule] 1 empty_trace heap_start) with
    | Ok t => t
    | Raise _ => empty_trace
    end.

Definition after_senior : heap * trace :=
    match visit senior_rule 1 after_minor heap_start with
    | (h, Ok (t, _)) => (h, t)
    | (h, Raise _) => (h, empty_trace)
    end.

(** Documents and their texts. [yaml_safe_load] is what [yaml.safe_load]
    returns for the texts of the examples; it is used on these texts
    only. *)
Definition newline : string := String (ascii_of_nat 10) EmptyString.

Definition lines (l : list string) : string := String.concat newline l.

Definition priorities_text : string :=
  lines ["ruleset:"; "  name: Demo"; "rules:";
         "- id: R30"; "  priority: 30"; "  condition: 'true'";
         "- id: R10"; "  priority: 10"; "  condition: 'true'";
         "- id: R50"; "  priority: 50"; "  condition: 'true'"].

Definition priority_rule (id : string) (p : Z) : tree :=
  TDict [("id", TStr id); ("priority", TInt p); ("condition", TStr "true")].

Definition priorities_rules : list tree :=
  [priority_rule "R30" 30; priority_rule "R10" 10; priority_rule "R50" 50].

Definition priorities_doc : dict tree :=
  [("ruleset", TDict [("name", TStr "Demo")]);
   ("rules", TList priorities_rules)].

Definition two_words_text : string := lines ["- ruleset"; "- rules"].

Definition insurance_text : string :=
  lines ["ruleset:"; "  name: Insurance"; "  priority_mode: first_match";
         "rules:";
         "- id: minor"; "  priority: 10"; "  condition: age < 18";
         "  actions:"; "  - set: band"; "    value: minor";
         "- id: senior"; "  priority: 20"; "  condition: age > 60";
         "  actions:"; "  - multiply: base_premium"; "    by: 0.9";
         "  - append: tags"; "    value: senior";
         "- id: adult"; "  priority: 30"; "  condition: age >= 18";
         "  actions:"; "  - set: band"; "    value: adult"].

Definition insurance_doc : dict tree :=
  [("ruleset", TDict [("name", TStr "Insurance");
                      ("priority_mode", first_match)]);
   ("rules", TList [minor_rule; senior_rule; adult_rule])].

(** A mapping without the rule sequence. *)
Definition no_rules_text : string := lines ["ruleset:"; "  name: Demo"].

Definition yaml_safe_load (text : string) : result tree :=
  if String.eqb text priorities_text then Ok (TDict priorities_doc)
  else if String.eqb text two_words_text
  then Ok (TList [TStr "ruleset"; TStr "rules"])
  else if String.eqb text insurance_text then Ok (TDict insurance_doc)
  else if String.eqb text no_rules_text
  then Ok (TDict [("ruleset", TDict [("name", TStr "Demo")])])
  else Raise YAMLError.

Definition now : string := "2024-05-01T12:00:00".

Definition demo_file : file := {| content := priorities_text; mtime := 1 |}.

Definition files : filesystem := [("rules/demo.yaml", demo_file)].

Definition fresh_engine : engine := {| rules_dir := "rules"; _cache := [] |}.

Definition demo_run : engine * heap * result evaluation :=
    evaluate yaml_safe_load now files fresh_engine "demo" (VRef 0) false
             heap_input.

Definition demo_result : evaluation :=
  match snd demo_run with
  | Ok res => res
  | Raise _ =>
      {| context := VNone; rules_fired := []; rules_skipped := [];
         rules_fired_count := 0; rules_total := 0; execution_log := [];
         metadata := {| md_ruleset := ""; md_ruleset_name := TNone;
                        md_version := TNone; md_priority_mode := TNone |} |}
  end.

(** The insurance ruleset on the input of age 67. *)
Definition insurance_files : filesystem :=
  [("rules/insurance.yaml", {| content := insurance_text; mtime := 7 |})].

Definition insurance_run : engine * heap * result evaluation :=
    evaluate yaml_safe_load now insurance_files fresh_engine "insurance"
             (VRef 0) false heap_input.

Definition insurance_result : evaluation :=
  match snd insurance_run with
  | Ok res => res
  | Raise _ => demo_result
  end.

(** A condition of the specification's examples, and a context in which
    both of its comparisons hold. *)
Definition south_condition : string := "region == 'south' and accidents == 0".

Definition south_context : tree :=
  TDict [("region", TStr "south"); ("accidents", TInt 0)].

(** Three actions, the second with a misspelt key. *)
Definition mixed_actions : list tree :=
  [TDict [("set", TStr "flag"); ("value", TInt 1)];
   TDict [("sett", TStr "flag"); ("value", TInt 2)];
   TDict [("log", TStr "flag is {flag}")]].

Definition set_action : dict tree :=
  [("set", TStr "name"); ("value", TList [TStr "a"; TStr "b"])].

Definition append_action : dict tree :=
  [("append", TStr "tags"); ("value", TStr "senior")].

(** The items of the context of [heap0]. *)
Definition items0 : dict value :=
  [("age", VInt 67); ("name", VStr "bob");
   ("base_premium", VFloat 360%float)].

Definition multiply_action : dict tree :=
  [("multiply", TStr "base_premium"); ("by", TFloat 0.9%float)].

(** A rule whose condition is the YAML boolean [true]. *)
Definition yaml_true : dict tree :=
  [("id", TStr "R3"); ("condition", TBool true);
   ("actions", TList [TDict [("set", TStr "flag"); ("value", TInt 1)]])].

Definition yaml_true_rule : tree := TDict yaml_true.

(** The demo ruleset loaded by a fresh engine. *)
Definition demo_load : engine * result tree :=
  load_ruleset yaml_safe_load now files fresh_engine "demo" false.

Definition demo_data : tree :=
  match snd demo_load with
  | Ok data => data
  | Raise _ => TNone
  end.

(** The file of the demo ruleset with another text and the modification
    time it had. *)
Definition stale_files : filesystem :=
  [("rules/demo.yaml", {| content := two_words_text; mtime := 1 |})].

(** A directory with a ruleset in a [.yml] file and a file that is no
    ruleset. *)
Definition listing : list string := ["demo.yaml"; "loans.yml"; "README.md"].

(** A mapping whose rules are a string. *)
Definition text_rules_text : string :=
  lines ["ruleset:"; "  name: Demo"; "rules: abc"].

Definition yaml_safe_load' (text : string) : result tree :=
  if String.eqb text text_rules_text
  then Ok (TDict [("ruleset", TDict [("name", TStr "Demo")]);
                  ("rules", TStr "abc")])
  else yaml_safe_load text.

End Fixtures.

(** * Properties *)

(** ** Vocabulary of the statements *)
Section Vocabulary.
Context {F : PyFloat}.
Import RulesEngine.

(** The value the walk of [_resolve_value] finds under the single key [k]
    of a context. *)
Definition lookup_top (c : tree) (k : string) : tree :=
  match c with
  | TDict d => match dict_get k d with Some v => v | None => TNone end
  | _ => TNone
  end.

(** The kinds of operands a comparison tells apart; [bool], [int] and
    [float] are one kind, the numbers. *)
Inductive kind : Type := KNone | KNumber | KStr | KList | KDict.

Definition kind_of (t : tree) : kind :=
  match t with
  | TNone => KNone
  | TBool _ | TInt _ | TFloat _ => KNumber
  | TStr _ => KStr
  | TList _ | TRec false => KList
  | TDict _ | TRec true => KDict
  end.

Definition kind_eqb (a b : kind) : bool :=
  match a, b with
  | KNone, KNone | KNumber, KNumber | KStr, KStr | KList, KList
  | KDict, KDict => true
  | _, _ => false
  end.

(** The keys [_execute_action] looks for, in its order. *)
Definition action_keys : list string :=
  ["set"; "multiply"; "add"; "subtract"; "divide"; "append"; "log"].

(** The branch an action descriptor takes: its first key among
    [action_keys]. *)
Definition action_kind (a : dict tree) : option string :=
  find (fun k => dict_mem k a) action_keys.

(** [action.get("by", default)] *)
Definition operand (a : dict tree) (default : tree) : tree :=
  match dict_get "by" a with Some v => v | None => default end.

(** [ctx.get(field, default)] on the items of the context. *)
Definition field_or (items : dict value) (field : string) (default : value)
  : value :=
  match dict_get field items with Some v => v | None => default end.

(** [rule.get("id", "???")] of a rule that is a dict. *)
Definition rule_id_of (rule : tree) : tree :=
  match py_get rule "id" (TStr "???") with
  | Ok i => i
  | Raise _ => TNone
  end.

Definition unmatched (e : log_entry) : bool := negb e.(le_matched).

(** The priority of a rule when it is an integer, 50 when the rule has
    none. *)
Definition priority_of (rule : tree) : option Z :=
  match rule with
  | TDict r =>
      match dict_get "priority" r with
      | None => Some 50%Z
      | Some (TInt z) => Some z
      | Some _ => None
      end
  | _ => None
  end.

Definition int_priority (rule : tree) : bool :=
  match priority_of rule with Some _ => true | None => false end.

Definition prio (rule : tree) : Z :=
  match priority_of rule with Some z => z | None => 50%Z end.

(** The rules of priority [p], in the order of the list. *)
Definition with_priority (p : Z) (rules : list tree) : list tree :=
  filter (fun r => Z.eqb (prio r) p) rules.

(** A value [float] converts. *)
Definition numeric (t : tree) : bool := is_ok (as_float t).

Definition numeric_value (v : value) : bool :=
  match v with
  | VBool b => numeric (TBool b)
  | VInt z => numeric (TInt z)
  | VFloat f => true
  | VStr s => numeric (TStr s)
  | _ => false
  end.

Definition mem_str (k : string) (l : list string) : bool :=
  existsb (String.eqb k) l.

(** [action.get("value")] *)
Definition value_of (a : dict tree) : tree :=
  match dict_get "value" a with Some v => v | None => TNone end.

(** The operand an arithmetic action takes when it has no [by]. *)
Definition default_operand (k : string) : tree :=
  if String.eqb k "add" || String.eqb k "subtract" then TInt 0 else TInt 1.

(** A check on an action descriptor, given the fields on which the rule
    does arithmetic: the descriptor is a dict that names its field by a
    string; an arithmetic action works on one of [fields] with an operand
    that converts to a number; SET gives these fields numbers only; APPEND
    leaves them alone. *)
Definition action_safe (fields : list string) (action : tree) : bool :=
  match action with
  | TDict a =>
      match action_kind a with
      | None => true
      | Some k =>
          if String.eqb k "log" then true
          else
            match dict_get k a with
            | Some (TStr field) =>
                if String.eqb k "set"
                then negb (mem_str field fields) || numeric (value_of a)
                else if String.eqb k "append"
                then negb (mem_str field fields)
                else mem_str field fields
                     && numeric (operand a (default_operand k))
            | _ => false
            end
      end
  | _ => false
  end.

(** The context is a dict in which each of [fields] is absent or holds a
    value that converts to a number. *)
Definition ctx_numeric (fields : list string) (h : heap) (ctx : nat) : Prop :=
  exists items,
    heap_get h ctx = Some (ODict items)
    /\ forall f v, mem_str f fields = true -> dict_get f items = Some v ->
                   numeric_value v = true.

(** A heap in which every reference is to one of its objects. *)
Definition val_lt (n : nat) (v : value) : Prop :=
  match v with VRef l => l < n | _ => True end.

Definition obj_lt (n : nat) (o : obj) : Prop :=
  match o with
  | OList xs => Forall (val_lt n) xs
  | ODict kvs => Forall (fun kv => val_lt n (snd kv)) kvs
  end.

Definition closed (h : heap) : Prop := Forall (obj_lt (List.length h)) h.

(** The heap a call of [evaluate] leaves. *)
Definition heap_after (r : engine * heap * result evaluation) : heap :=
  snd (fst r).

(** The rules the loop of [evaluate] goes over, for a loaded document. *)
Definition rules_of (ruleset_data : tree) : result (list tree) :=
  rules <- py_get ruleset_data "rules" (TList []) ;; py_iter rules.

(** *** Sorting *)

(** Insertion of [r] before the first rule whose priority is not smaller. *)
Fixpoint insert_rule (r : tree) (l : list tree) : list tree :=
  match l with
  | [] => [r]
  | y :: ys => if Z.ltb (prio y) (prio r) then y :: insert_rule r ys
               else r :: y :: ys
  end.

Fixpoint insertion_sort (l : list tree) : list tree :=
  match l with
  | [] => []
  | r :: l' => insert_rule r (insertion_sort l')
  end.

Definition keyed (r : tree) : tree * tree := (TInt (prio r), r).

Definition by_priority (a b : tree) : Prop := (prio a <= prio b)%Z.

(** *** Framing

    The heap a run starts from has [n] objects. The objects the run makes
    lie from [n] on, and hold references to such objects only: whatever is
    written is written from [n] on. *)

Definition val_ge (n : nat) (v : value) : Prop :=
  match v with VRef l => n <= l | _ => True end.

Definition obj_ge (n : nat) (o : obj) : Prop :=
  match o with
  | OList xs => Forall (val_ge n) xs
  | ODict kvs => Forall (fun kv => val_ge n (snd kv)) kvs
  end.

Definition good (n : nat) (h : heap) : Prop :=
  n <= List.length h
  /\ forall l o, n <= l -> heap_get h l = Some o -> obj_ge n o.

(** [m] keeps the first [n] objects as they are, keeps the heap good, and
    returns values that satisfy [Q]. *)
Definition frames {A : Type} (n : nat) (m : M A) (Q : A -> Prop) : Prop :=
  forall h, good n h ->
    firstn n (fst (m h)) = firstn n h
    /\ good n (fst (m h))
    /\ forall a, snd (m h) = Ok a -> Q a.

Definition memo_ge (n : nat) (memo : memo_t) : Prop :=
  Forall (fun p => n <= snd p) memo.

(** What a copy leaves: the first [n] objects as they were, a good heap, a
    memo and a value that refer to objects from [n] on. *)
Definition copied {A : Type} (n : nat) (h : heap) (P : A -> Prop)
  (r : result (heap * memo_t * A)) : Prop :=
  match r with
  | Ok (h', memo', a) =>
      firstn n h' = firstn n h /\ good n h' /\ memo_ge n memo' /\ P a
  | Raise _ => True
  end.

End Vocabulary.

(** ** Text *)
Section TextVocabulary.

(** [c in s] for a character [c]. *)
Fixpoint has_char (c : ascii) (s : string) : bool :=
  match s with
  | EmptyString => false
  | String c' s' => Ascii.eqb c c' || has_char c s'
  end.

(** [tail] added to the last of [parts]. *)
Fixpoint app_last (parts : list string) (tail : string) : list string :=
  match parts with
  | [] => [tail]
  | [p] => [p +:+ tail]
  | p :: ps => p :: app_last ps tail
  end.

(** A quote character of the condition language. *)
Definition is_quote (c : ascii) : bool :=
  Ascii.eqb c "'" || Ascii.eqb c (ascii_of_nat 34).

Fixpoint all_chars (p : ascii -> bool) (s : string) : bool :=
  match s with
  | EmptyString => true
  | String c s' => p c && all_chars p s'
  end.

(** The characters the comparison operators are written with. *)
Definition op_char (c : ascii) : bool := has_char c "<>=!".

(** A character of an operand written in ASCII without white space,
    operator characters and parentheses. *)
Definition word_char (c : ascii) : bool :=
  (PyStr.code c <? 128) && negb (PyStr.is_space c) && negb (op_char c)
  && negb (has_char c "()").

(** An operand of one word: a field name, a dotted path, a number, a
    literal without white space. *)
Definition is_word (s : string) : bool :=
  negb (String.eqb s "") && all_chars word_char s.

(** White space only. *)
Definition blank (s : string) : bool := all_chars PyStr.is_space s.

(** The keyword is read nowhere in [s]. *)
Fixpoint keyword_free (kw s : string) : bool :=
  match s with
  | EmptyString => true
  | String _ s' =>
      negb (String.eqb (PyStr.lower (PyStr.take (String.length kw) s)) kw)
      && keyword_free kw s'
  end.

(** A condition without [and], [or] and opening parenthesis, written
    without white space around it. *)
Definition simple (s : string) : bool :=
  String.eqb (PyStr.strip s) s && negb (String.eqb s "")
  && keyword_free " and " (" " +:+ s +:+ " ")
  && keyword_free " or " (" " +:+ s +:+ " ")
  && negb (has_char "(" s).

(** A text without quote and without opening parenthesis. *)
Definition unquoted (s : string) : bool :=
  all_chars (fun c => negb (SafeEvaluator.is_opener c)) s.

End TextVocabulary.

(** ** Actions *)
Section ActionVocabulary.
Context {F : PyFloat}.

(** An action descriptor in which [_execute_action] finds one of its
    keys. *)
Definition recognised (action : tree) : bool :=
  existsb (fun k => match py_in k action with
                    | Ok true => true
                    | _ => false
                    end) action_keys.

(** What every log line of a rule starts with. *)
Definition label (rule_id : tree) : string := "[" +:+ str rule_id +:+ "] ".

(** [list(d)]: the keys of a dict, in its order. *)
Definition keys {V : Type} (d : dict V) : list string := map fst d.

(** From [h] to [h'] the dict at [ctx] keeps its keys, in their order; new
    keys come after them. *)
Definition keeps_keys (ctx : nat) (h h' : heap) : Prop :=
  forall d, heap_get h ctx = Some (ODict d) ->
  exists d' added,
    heap_get h' ctx = Some (ODict d') /\ keys d' = keys d ++ added.

(** [m] keeps the keys of the dict at [ctx], however it ends. *)
Definition key_keeping {A : Type} (ctx : nat) (m : M A) : Prop :=
  forall h, keeps_keys ctx h (fst (m h)).

(** The three actions that assign [round(float(field) op float(by), 4)]:
    the operation on floats, and the word and the sign of the log line. *)
Definition arith_op (k : string)
  : option ((pyfloat -> pyfloat -> pyfloat) * string * string) :=
  if String.eqb k "multiply" then Some (float_mul, "MULTIPLY", "×")
  else if String.eqb k "add" then Some (float_add, "ADD", "+")
  else if String.eqb k "subtract" then Some (float_sub, "SUBTRACT", "-")
  else None.

End ActionVocabulary.

(** ** The listing of the rulesets *)
Section ListingVocabulary.
Context {F : PyFloat}.
Import RulesEngine.

(** A file name [list_rulesets] takes for a ruleset. *)
Definition ruleset_file (fname : string) : bool :=
  PyStr.endswith ".yaml" fname || PyStr.endswith ".yml" fname.

(** [fname.rsplit(".", 1)[0]] *)
Definition stem (fname : string) : string :=
  hd "" (PyStr.rsplit1 "." fname).

(** The identifier an item of the listing carries. *)
Definition listed_id (item : listed) : option tree :=
  match item with
  | Summary info => dict_get "id" info
  | Broken id _ => Some (TStr id)
  end.

End ListingVocabulary.

(** ** Values written in full *)
Section ValueVocabulary.
Context {F : PyFloat}.

(** A tree without a cut: what a document or a JSON text parses to. *)
Fixpoint plain (t : tree) : bool :=
  match t with
  | TList ts => forallb plain ts
  | TDict kvs => forallb (fun kv => plain (snd kv)) kvs
  | TRec _ => false
  | _ => true
  end.

(** A value that is no reference to an object. *)
Definition scalar (v : value) : bool :=
  match v with VRef _ => false | _ => true end.

End ValueVocabulary.

(** Running the heap operations of a computation applied to its heap. *)
Ltac run_heap :=
  cbv beta iota zeta delta
    [mbind lift ret read read_dict write alloc store isinstance_list
     list_append RuleExecutor.ctx_get RuleExecutor.ctx_set RuleExecutor.ctx_float
     RuleExecutor.arith as_key fst snd negb].

Ltac kind_cases H :=
  unfold action_kind, action_keys in H; cbn [find] in H;
  repeat match type of H with
         | (if ?b then _ else _) = _ =>
             let E := fresh "E" in destruct b eqn:E;
             [ try (inversion H; fail) | ]
         end;
  try discriminate H.

(** ** The condition language *)
Section EvaluatorFacts.
Context {F : PyFloat}.

(** C1, as the code has it: the empty condition is no special case. It is
    read as a bare operand, the empty path, which is the entry of the
    context under the empty key; the condition is true exactly when that
    entry exists and is truthy, and false for a context without it. (That
    [float("")] is a ValueError is the interpreter's.) *)
Theorem empty_condition_reads_empty_key (c : tree) :
  float_of_string "" = None ->
  SafeEvaluator.evaluate c "" = Ok (truthy (lookup_top c "")).
Proof.
  intros Hf.
  unfold SafeEvaluator.evaluate. cbn.
  unfold SafeEvaluator._resolve_value. cbn. rewrite Hf.
  destruct c; cbn; try reflexivity.
Qed.

Lemma py_eq_kinds (a b : tree) :
  kind_eqb (kind_of a) (kind_of b) = false -> py_eq a b = Ok false.
Proof.
  destruct a as [| | | | | | |[]], b as [| | | | | | |[]];
    cbn; intros H; try discriminate H; reflexivity.
Qed.

Lemma py_order_kinds (op : cmp_op) (a b : tree) :
  kind_eqb (kind_of a) (kind_of b) = false ->
  py_order op a b = Raise TypeError.
Proof.
  destruct a as [| | | | | | |[]], b as [| | | | | | |[]];
    cbn; intros H; try discriminate H; reflexivity.
Qed.

(** C2, as the code has it: a comparison between operands of incompatible
    types does not fail. The TypeError of an ordering operator is caught
    inside the evaluator and read as false; [==] is false and [!=] is true
    without any error. *)
Theorem mismatched_comparison_does_not_raise (op : cmp_op) (left right : tree) :
  kind_eqb (kind_of left) (kind_of right) = false ->
  SafeEvaluator.compare_values op left right
  = Ok (match op with OpNe => true | _ => false end).
Proof.
  intros H. unfold SafeEvaluator.compare_values, apply_op.
  destruct op; rewrite ?(py_eq_kinds _ _ H), ?(py_order_kinds _ _ _ H);
    reflexivity.
Qed.

End EvaluatorFacts.

(** ** The action interpreter *)
Section ExecutorFacts.
Context {F : PyFloat}.

Lemma dict_mem_get (V : Type) (k : string) (d : dict V) :
  dict_mem k d = true -> exists v, dict_get k d = Some v.
Proof.
  unfold dict_mem. destruct (dict_get k d); [eauto | discriminate].
Qed.

Lemma dict_get_set (V : Type) (k k' : string) (v : V) (d : dict V) :
  dict_get k (dict_set k' v d)
  = if String.eqb k k' then Some v else dict_get k d.
Proof.
  induction d as [|[k0 v0] d IH]; cbn.
  - destruct (String.eqb k k'); reflexivity.
  - destruct (String.eqb_spec k' k0) as [->|Hne]; cbn.
    + destruct (String.eqb k k0); reflexivity.
    + rewrite IH. destruct (String.eqb_spec k k0) as [->|Hne'].
      * destruct (String.eqb_spec k0 k'); [congruence | reflexivity].
      * reflexivity.
Qed.

Lemma heap_get_lt (h : heap) (l : nat) (o : obj) :
  heap_get h l = Some o -> l < List.length h.
Proof.
  unfold heap_get. intros H. apply nth_error_Some. congruence.
Qed.

Lemma length_heap_set (h : heap) (l : nat) (o : obj) :
  List.length (heap_set h l o) = List.length h.
Proof.
  revert l. induction h as [|o' h IH]; intros [|l]; cbn; auto.
Qed.

Lemma heap_get_set_eq (h : heap) (l : nat) (o : obj) :
  l < List.length h -> heap_get (heap_set h l o) l = Some o.
Proof.
  unfold heap_get. revert l.
  induction h as [|o' h IH]; intros [|l] H; cbn in *; try lia; auto.
  apply IH. lia.
Qed.

Lemma heap_get_set_neq (h : heap) (l l' : nat) (o : obj) :
  l <> l' -> heap_get (heap_set h l o) l' = heap_get h l'.
Proof.
  unfold heap_get. revert l l'.
  induction h as [|o' h IH]; intros [|l] [|l'] H; cbn; auto; try congruence.
Qed.

(** C8: a DIVIDE action whose divisor is zero changes nothing and raises
    nothing; with another divisor the field becomes the quotient of its
    value (0 when absent) by the divisor, rounded to four decimals. *)
Theorem divide_guards_zero (h : heap) (ctx : nat) (items : dict value)
  (a : dict tree) (field : string) (rule_id : tree) (d : pyfloat) :
  heap_get h ctx = Some (ODict items) ->
  action_kind a = Some "divide" ->
  dict_get "divide" a = Some (TStr field) ->
  as_float (operand a (TInt 1)) = Ok d ->
  (float_is_zero d = true ->
   exists line,
     RuleExecutor._execute_action (TDict a) ctx rule_id h = (h, Ok (Some line)))
  /\ (float_is_zero d = false ->
      forall x, as_float (snapshot h (field_or items field (VInt 0))) = Ok x ->
      exists line,
        RuleExecutor._execute_action (TDict a) ctx rule_id h
        = (heap_set h ctx
             (ODict (dict_set field
                       (VFloat (float_round4 (float_div x d))) items)),
           Ok (Some line))).
Proof.
  intros Hctx Hkind Hfield Hd.
  kind_cases Hkind. clear Hkind.
  unfold operand in Hd. unfold field_or.
  split; [intros Hz | intros Hz x Hx];
    unfold RuleExecutor._execute_action;
    cbn [py_in lift mbind]; rewrite E, E0, E1, E2, E3;
    cbn [py_getitem py_get]; rewrite Hfield; cbn [lift mbind];
    rewrite Hd, Hz; run_heap; rewrite Hctx; run_heap.
  - eauto.
  - rewrite Hx. run_heap. rewrite Hctx. run_heap.
    rewrite heap_get_set_eq by (eapply heap_get_lt; eauto). run_heap.
    eauto.
Qed.

(** C3, as the code has it: the log line of a LOG action is the rule's
    identifier in brackets and the word LOG, followed by the message in
    which the placeholders were replaced entry by entry, a replacement
    reading the text the earlier ones left; the action changes nothing. *)
Theorem log_line_is_labelled_rendering (h : heap) (ctx : nat)
  (items : dict value) (a : dict tree) (message rule_id : tree) :
  heap_get h ctx = Some (ODict items) ->
  action_kind a = Some "log" ->
  dict_get "log" a = Some message ->
  RuleExecutor._execute_action (TDict a) ctx rule_id h
  = (h, Ok (Some ("[" +:+ str rule_id +:+ "] LOG: "
                  +:+ RuleExecutor.render h items (str message)))).
Proof.
  intros Hctx Hkind Hmsg.
  kind_cases Hkind. clear Hkind.
  unfold RuleExecutor._execute_action.
  cbn [py_in lift mbind]. rewrite E, E0, E1, E2, E3, E4, E5.
  cbn [py_getitem]. rewrite Hmsg.
  run_heap. rewrite Hctx. reflexivity.
Qed.

End ExecutorFacts.

(** ** The rule evaluation loop *)
Section LoopFacts.
Context {F : PyFloat}.
Import RulesEngine.

(** What one turn of the loop adds to the trace. *)
Lemma visit_shape (rule : tree) (ctx : nat) (t t' : trace) (h h' : heap)
  (m : bool) :
  visit rule ctx t h = (h', Ok (t', m)) ->
  exists e,
    t'.(log) = t.(log) ++ [e]
    /\ e.(le_rule_id) = rule_id_of rule
    /\ e.(le_matched) = m
    /\ t'.(fired) = t.(fired) ++ (if m then [rule_id_of rule] else [])
    /\ t'.(skipped) = t.(skipped) ++ (if m then [] else [rule_id_of rule]).
Proof.
  unfold visit, rule_id_of. run_heap.
  destruct (py_get rule "id" (TStr "???")) as [rule_id|]; [| discriminate].
  destruct (py_get rule "condition" (TStr "")) as [condition|];
    [| discriminate].
  destruct (py_get rule "name" rule_id) as [name|]; [| discriminate].
  match goal with
  | |- context [match ?c with Ok _ => _ | Raise _ => _ end] =>
      destruct c as [[|]|ex]
  end.
  - destruct (py_get rule "actions" (TList [])) as [actions|];
      [| discriminate].
    destruct (RuleExecutor.execute actions ctx rule_id h)
      as [h1 [action_logs|]]; [| discriminate].
    destruct (py_get rule "priority" (TInt 50)); [| discriminate].
    destruct (py_get rule "description" (TStr "")); [| discriminate].
    destruct (py_len actions); [| discriminate].
    intros H. inversion H; subst. cbn.
    eexists. repeat split; rewrite ?app_nil_r; reflexivity.
  - destruct (py_get rule "priority" (TInt 50)); [| discriminate].
    intros H. inversion H; subst. cbn.
    eexists. repeat split; rewrite ?app_nil_r; reflexivity.
  - intros H. inversion H; subst. cbn.
    eexists. repeat split; rewrite ?app_nil_r; reflexivity.
Qed.

Lemma run_rules_cons (mode rule : tree) (rules : list tree) (ctx : nat)
  (t : trace) (h : heap) :
  run_rules mode (rule :: rules) ctx t h
  = match visit rule ctx t h with
    | (h1, Ok (t1, m)) =>
        if m && is_first_match mode then (h1, Ok t1)
        else run_rules mode rules ctx t1 h1
    | (h1, Raise e) => (h1, Raise e)
    end.
Proof.
  cbn [run_rules]. unfold mbind.
  destruct (visit rule ctx t h) as [h1 [[t1 m]|e]]; cbn [fst snd];
    [destruct (m && is_first_match mode) |]; reflexivity.
Qed.

(** What a pass adds to the trace: one entry per rule of a prefix of the
    rules, in their order; the matched ones are the rules fired, the others
    the rules skipped; and in the first_match mode nothing follows a
    matched entry. *)
Lemma run_rules_shape (mode : tree) (rules : list tree) (ctx : nat) :
  forall (t t' : trace) (h h' : heap),
  run_rules mode rules ctx t h = (h', Ok t') ->
  exists new,
    t'.(log) = t.(log) ++ new
    /\ map le_rule_id new = map rule_id_of (firstn (List.length new) rules)
    /\ List.length new <= List.length rules
    /\ t'.(fired) = t.(fired) ++ map le_rule_id (filter le_matched new)
    /\ t'.(skipped) = t.(skipped) ++ map le_rule_id (filter unmatched new)
    /\ (is_first_match mode = false -> List.length new = List.length rules)
    /\ (is_first_match mode = true ->
        forall pre e post,
          new = pre ++ e :: post -> e.(le_matched) = true -> post = []).
Proof.
  induction rules as [|rule rules IH]; intros t t' h h' H.
  - inversion H; subst. exists []. cbn. rewrite !app_nil_r.
    repeat split; auto.
    intros _ [|? ?] ? ? Hn; discriminate Hn.
  - rewrite run_rules_cons in H.
    destruct (visit rule ctx t h) as [h1 [[t1 m]|ex]] eqn:Hv;
      [| discriminate].
    destruct (visit_shape _ _ _ _ Hv) as (e & Hlog & Hid & Hm & Hf & Hs).
    destruct (m && is_first_match mode) eqn:Hstop.
    + inversion H; subst t' h'. clear H.
      apply andb_true_iff in Hstop as [-> Hfirst].
      exists [e]. cbn. unfold unmatched. rewrite Hm. cbn. rewrite Hid.
      repeat split; auto; try lia.
      * congruence.
      * intros _ [|? [|? ?]] ? ? Hn; inversion Hn; reflexivity.
    + destruct (IH _ _ _ _ H) as (new & Hlog' & Hids & Hlen & Hf' & Hs' & Hall & Hlast).
      exists (e :: new). cbn [List.length firstn map filter].
      unfold unmatched in *. rewrite Hm.
      rewrite Hlog', Hlog, Hf', Hf, Hs', Hs, <- !app_assoc, <- Hid.
      repeat split; auto; try lia.
      * f_equal. assumption.
      * destruct m; reflexivity.
      * destruct m; reflexivity.
      * intros Hmode [|e0 pre] e1 post Hn Hmatched.
        -- inversion Hn; subst e1 post.
           rewrite Hmatched in Hm. subst m. rewrite Hmode in Hstop.
           discriminate Hstop.
        -- inversion Hn; subst. eapply Hlast; eauto.
Qed.

(** C5: in the first_match mode the pass ends with the first rule that
    matches. When no rule of [pre] fires and [rule] matches in the state
    they leave, the pass over [pre], [rule] and any further rules [rest]
    ends in the state right after [rule]: nothing of [rest] is evaluated
    or executed. *)
Theorem first_match_stops_the_pass (mode rule : tree) (pre rest : list tree)
  (ctx : nat) (t t1 t2 : trace) (h h1 h2 : heap) :
  is_first_match mode = true ->
  run_rules mode pre ctx t h = (h1, Ok t1) ->
  t1.(fired) = t.(fired) ->
  visit rule ctx t1 h1 = (h2, Ok (t2, true)) ->
  run_rules mode (pre ++ rule :: rest) ctx t h = (h2, Ok t2).
Proof.
  intros Hmode. revert t h.
  induction pre as [|r pre IH]; intros t h Hpre Hfired Hvisit.
  - inversion Hpre; subst t1 h1. cbn [app].
    rewrite run_rules_cons, Hvisit, Hmode. reflexivity.
  - cbn [app]. rewrite run_rules_cons in *.
    destruct (visit r ctx t h) as [h' [[t' m]|ex]] eqn:Hv; [| discriminate].
    destruct (visit_shape _ _ _ _ Hv) as (e & _ & _ & _ & Hf & _).
    destruct m; cbn [andb] in *.
    + rewrite Hmode in *. inversion Hpre; subst t' h'.
      rewrite Hf in Hfired. apply (f_equal (@List.length tree)) in Hfired.
      rewrite length_app in Hfired. cbn in Hfired. lia.
    + apply IH; auto. rewrite Hfired, Hf, app_nil_r. reflexivity.
Qed.

Lemma length_chars (s : string) : List.length (PyStr.chars s) = String.length s.
Proof. induction s; cbn; congruence. Qed.

Lemma py_len_iter (t : tree) (items : list tree) (n : nat) :
  py_iter t = Ok items -> py_len t = Ok n -> n = List.length items.
Proof.
  destruct t; cbn; intros Hi Hn; inversion Hi; inversion Hn; subst;
    rewrite ?length_map, ?length_chars; reflexivity.
Qed.

(** [evaluate_loaded] is the pass over the rules of the document, from the
    empty trace, and its result holds the trace of the pass. *)
Lemma evaluate_loaded_pass (name : string) (data : tree) (input : value)
  (h h' : heap) (res : evaluation) :
  evaluate_loaded name data input h = (h', Ok res) ->
  exists rule_list ctx h0 t,
    rules_of data = Ok rule_list
    /\ res.(rules_total) = List.length rule_list
    /\ run_rules res.(metadata).(md_priority_mode) rule_list ctx
         {| fired := []; skipped := []; log := [] |} h0 = (h', Ok t)
    /\ res.(rules_fired) = t.(fired)
    /\ res.(rules_skipped) = t.(skipped)
    /\ res.(execution_log) = t.(log)
    /\ res.(rules_fired_count) = List.length t.(fired).
Proof.
  unfold evaluate_loaded, rules_of. run_heap.
  destruct (py_getitem data "ruleset") as [meta|]; [| discriminate].
  destruct (py_get data "rules" (TList [])) as [rules|]; [| discriminate].
  destruct (py_get meta "priority_mode" (TStr "all")) as [mode|];
    [| discriminate].
  destruct (copy_deepcopy input h) as [h1 [context|]]; [| discriminate].
  destruct (setdefault_tags context h1) as [h2 [ctx|]]; [| discriminate].
  cbn [bind].
  destruct (py_iter rules) as [rule_list|] eqn:Hiter; [| discriminate].
  destruct (run_rules mode rule_list ctx _ h2) as [h3 [t|]] eqn:Hrun;
    [| discriminate].
  destruct (py_len rules) as [total|] eqn:Hlen; [| discriminate].
  destruct (py_get meta "name" TNone); [| discriminate].
  destruct (py_get meta "version" TNone); [| discriminate].
  intros H. inversion H; subst. cbn.
  exists rule_list, ctx, h2, t.
  repeat split; auto. eapply py_len_iter; eauto.
Qed.

End LoopFacts.

(** ** Sorting by priority *)
Section SortFacts.
Context {F : PyFloat}.
Import RulesEngine.

Lemma py_order_lt_int (a b : Z) :
  py_order OpLt (TInt a) (TInt b) = Ok (Z.ltb a b).
Proof.
  cbn. rewrite !Z.mul_1_r. unfold Z.ltb.
  destruct (a ?= b)%Z; reflexivity.
Qed.

Lemma insert_keyed_int (r : tree) (l : list tree) :
  insert_keyed (keyed r) (map keyed l) = Ok (map keyed (insert_rule r l)).
Proof.
  induction l as [|y ys IH]; [reflexivity |].
  cbn [map insert_keyed insert_rule].
  change (fst (keyed y)) with (TInt (prio y)).
  change (fst (keyed r)) with (TInt (prio r)).
  rewrite py_order_lt_int. cbn [bind].
  destruct (prio y <? prio r)%Z; [| reflexivity].
  rewrite IH. reflexivity.
Qed.

Lemma sort_keyed_int (l : list tree) :
  sort_keyed (map keyed l) = Ok (map keyed (insertion_sort l)).
Proof.
  induction l as [|r l IH]; [reflexivity |].
  cbn [map sort_keyed insertion_sort]. rewrite IH. cbn [bind].
  apply insert_keyed_int.
Qed.

Lemma sort_key_int (r : tree) :
  int_priority r = true -> sort_key r = Ok (TInt (prio r)).
Proof.
  unfold int_priority, prio, priority_of, sort_key.
  destruct r; try discriminate. cbn.
  destruct (dict_get "priority" items) as [[]|]; try discriminate; reflexivity.
Qed.

Lemma keys_of_int_rules (rs : list tree) :
  forallb int_priority rs = true ->
  map_result (fun r => k <- sort_key r ;; Ok (k, r)) rs = Ok (map keyed rs).
Proof.
  induction rs as [|r rs IH]; [reflexivity |].
  cbn [forallb map_result map]. intros H.
  apply andb_true_iff in H as [Hr Hrs].
  rewrite (sort_key_int _ Hr), (IH Hrs). reflexivity.
Qed.

(** On rules whose priorities are integers, the sort of [load_ruleset] is
    the insertion sort on the priorities. *)
Lemma sort_rules_int (rs : list tree) :
  forallb int_priority rs = true ->
  sort_rules (TList rs) = Ok (TList (insertion_sort rs)).
Proof.
  intros H. unfold sort_rules.
  rewrite (keys_of_int_rules _ H). cbn [bind].
  rewrite sort_keyed_int. cbn [bind].
  rewrite map_map. cbn. rewrite map_id. reflexivity.
Qed.

Lemma insert_rule_perm (r : tree) (l : list tree) :
  Permutation (r :: l) (insert_rule r l).
Proof.
  induction l as [|y ys IH]; cbn; [reflexivity |].
  destruct (prio y <? prio r)%Z; [| reflexivity].
  rewrite perm_swap. constructor. exact IH.
Qed.

Lemma insertion_sort_perm (l : list tree) : Permutation l (insertion_sort l).
Proof.
  induction l as [|r l IH]; cbn; [constructor |].
  rewrite <- insert_rule_perm. constructor. exact IH.
Qed.

Lemma insert_rule_sorted (r : tree) (l : list tree) :
  StronglySorted by_priority l -> StronglySorted by_priority (insert_rule r l).
Proof.
  induction l as [|y ys IH]; intros Hs; cbn.
  - repeat constructor.
  - inversion Hs as [|? ? Hys Hall]; subst.
    destruct (prio y <? prio r)%Z eqn:Hlt.
    + constructor; [auto |].
      apply Z.ltb_lt in Hlt.
      rewrite <- (insert_rule_perm r ys). constructor; [| exact Hall].
      unfold by_priority. lia.
    + apply Z.ltb_ge in Hlt.
      constructor; [exact Hs |].
      constructor; [exact Hlt |].
      eapply Forall_impl; [| exact Hall].
      unfold by_priority. intros; lia.
Qed.

Lemma insertion_sort_sorted (l : list tree) :
  StronglySorted by_priority (insertion_sort l).
Proof.
  induction l as [|r l IH]; cbn; [constructor |].
  apply insert_rule_sorted. exact IH.
Qed.

Lemma insert_rule_stable (p : Z) (r : tree) (l : list tree) :
  with_priority p (insert_rule r l) = with_priority p (r :: l).
Proof.
  unfold with_priority.
  induction l as [|y ys IH]; [reflexivity |].
  cbn [insert_rule]. destruct (prio y <? prio r)%Z eqn:Hlt; [| reflexivity].
  apply Z.ltb_lt in Hlt.
  cbn [filter] in *. rewrite IH.
  destruct (prio y =? p)%Z eqn:Hy, (prio r =? p)%Z eqn:Hr; try reflexivity.
  apply Z.eqb_eq in Hy, Hr. lia.
Qed.

Lemma insertion_sort_stable (p : Z) (l : list tree) :
  with_priority p (insertion_sort l) = with_priority p l.
Proof.
  induction l as [|r l IH]; [reflexivity |].
  cbn [insertion_sort]. rewrite insert_rule_stable.
  unfold with_priority in *. cbn [filter]. rewrite IH. reflexivity.
Qed.

End SortFacts.

(** ** Induction on trees *)
Section TreeInduction.
Context {F : PyFloat}.
Variable P : tree -> Prop.
Hypothesis HNone : P TNone.
Hypothesis HBool : forall b, P (TBool b).
Hypothesis HInt : forall z, P (TInt z).
Hypothesis HFloat : forall f, P (TFloat f).
Hypothesis HStr : forall s, P (TStr s).
Hypothesis HList : forall ts, Forall P ts -> P (TList ts).
Hypothesis HDict :
  forall kvs, Forall (fun kv => P (snd kv)) kvs -> P (TDict kvs).
Hypothesis HRec : forall b, P (TRec b).

Fixpoint tree_nested_ind (t : tree) : P t :=
  match t with
  | TNone => HNone
  | TBool b => HBool b
  | TInt z => HInt z
  | TFloat f => HFloat f
  | TStr s => HStr s
  | TList ts =>
      HList ((fix go (ts : list tree) : Forall P ts :=
                match ts with
                | [] => Forall_nil P
                | t :: ts' => Forall_cons t (tree_nested_ind t) (go ts')
                end) ts)
  | TDict kvs =>
      HDict ((fix go (kvs : list (string * tree))
                : Forall (fun kv => P (snd kv)) kvs :=
                match kvs with
                | [] => Forall_nil _
                | (k, t) :: kvs' =>
                    Forall_cons (k, t) (tree_nested_ind t) (go kvs')
                end) kvs)
  | TRec b => HRec b
  end.

End TreeInduction.

(** ** What a run leaves untouched *)
Section FrameFacts.
Context {F : PyFloat}.
Import RulesEngine.

Lemma val_ge_le (n m : nat) (v : value) : n <= m -> val_ge m v -> val_ge n v.
Proof. destruct v; cbn; auto. lia. Qed.

Lemma obj_ge_le (n m : nat) (o : obj) : n <= m -> obj_ge m o -> obj_ge n o.
Proof.
  intros Hle. destruct o; cbn; apply Forall_impl; intros ?;
    apply val_ge_le; exact Hle.
Qed.

Lemma firstn_app_le (A : Type) (n : nat) (l ext : list A) :
  n <= List.length l -> firstn n (l ++ ext) = firstn n l.
Proof.
  intros H. rewrite firstn_app.
  replace (n - List.length l) with 0 by lia.
  cbn. apply app_nil_r.
Qed.

Lemma firstn_heap_set (n l : nat) (h : heap) (o : obj) :
  n <= l -> firstn n (heap_set h l o) = firstn n h.
Proof.
  revert n l. induction h as [|o' h IH]; intros [|n] [|l] H; cbn; auto;
    try lia.
  f_equal. apply IH. lia.
Qed.

Lemma heap_get_app (h : heap) (o : obj) (l : nat) :
  heap_get (h ++ [o]) l
  = if l <? List.length h then heap_get h l
    else if l =? List.length h then Some o else None.
Proof.
  unfold heap_get.
  destruct (l <? List.length h) eqn:Hlt.
  - apply Nat.ltb_lt in Hlt. apply nth_error_app1. exact Hlt.
  - apply Nat.ltb_ge in Hlt. rewrite nth_error_app2 by exact Hlt.
    destruct (l =? List.length h) eqn:He.
    + apply Nat.eqb_eq in He. subst. rewrite Nat.sub_diag. reflexivity.
    + apply Nat.eqb_neq in He.
      destruct (l - List.length h) as [|[|k]] eqn:Hk; cbn; auto. lia.
Qed.

Lemma good_app (n : nat) (h : heap) (o : obj) :
  good n h -> obj_ge n o -> good n (h ++ [o]).
Proof.
  intros [Hlen Hobj] Ho. split.
  - rewrite length_app. lia.
  - intros l o' Hl. rewrite heap_get_app.
    destruct (l <? List.length h); [apply Hobj; exact Hl |].
    destruct (l =? List.length h); [| discriminate].
    intros H. inversion H; subst. exact Ho.
Qed.

Lemma good_set (n l : nat) (h : heap) (o : obj) :
  good n h -> obj_ge n o -> good n (heap_set h l o).
Proof.
  intros [Hlen Hobj] Ho. split.
  - rewrite length_heap_set. exact Hlen.
  - intros l' o' Hl'. destruct (Nat.eq_dec l l') as [<-|Hne].
    + destruct (Nat.lt_ge_cases l (List.length h)) as [Hlt|Hge].
      * rewrite heap_get_set_eq by exact Hlt.
        intros H. inversion H; subst. exact Ho.
      * unfold heap_get. intros H.
        assert (l < List.length (heap_set h l o))
          by (apply nth_error_Some; congruence).
        rewrite length_heap_set in *. lia.
    + rewrite heap_get_set_neq by exact Hne. apply Hobj. exact Hl'.
Qed.

Lemma frames_ret (A : Type) (n : nat) (a : A) (Q : A -> Prop) :
  Q a -> frames n (ret a) Q.
Proof.
  intros Ha h Hg. cbn. split; [reflexivity | split; [exact Hg |]].
  intros a' H. inversion H; subst. exact Ha.
Qed.

Lemma frames_lift (A : Type) (n : nat) (r : result A) :
  frames n (lift r) (fun _ => True).
Proof. intros h Hg. cbn. split; [reflexivity | split; [exact Hg | auto]]. Qed.

Lemma frames_bind (A B : Type) (n : nat) (m : M A) (k : A -> M B)
  (P : A -> Prop) (Q : B -> Prop) :
  frames n m P -> (forall a, P a -> frames n (k a) Q) ->
  frames n (mbind m k) Q.
Proof.
  intros Hm Hk h Hg. unfold mbind.
  destruct (Hm h Hg) as (Hfirst & Hgood & Hpost).
  destruct (m h) as [h1 [a|e]]; cbn [fst snd] in *.
  - destruct (Hk a (Hpost a eq_refl) h1 Hgood) as (Hfirst' & Hgood' & Hpost').
    split; [congruence | split; assumption].
  - split; [assumption | split; [assumption |]].
    intros a H. discriminate H.
Qed.

Lemma frames_weaken (A : Type) (n : nat) (m : M A) (P Q : A -> Prop) :
  frames n m P -> (forall a, P a -> Q a) -> frames n m Q.
Proof.
  intros Hm HPQ h Hg. destruct (Hm h Hg) as (? & ? & Hpost).
  split; [assumption | split; [assumption | auto]].
Qed.

Lemma frames_read_dict (n l : nat) :
  n <= l ->
  frames n (read_dict l) (fun d => Forall (fun kv => val_ge n (snd kv)) d).
Proof.
  intros Hl h Hg. unfold read_dict.
  destruct (heap_get h l) as [[xs|d]|] eqn:Hget; cbn;
    (split; [reflexivity | split; [exact Hg |]]); try discriminate.
  intros a H. inversion H; subst.
  destruct Hg as [_ Hobj]. exact (Hobj l (ODict a) Hl Hget).
Qed.

Lemma frames_write (n l : nat) (o : obj) :
  n <= l -> obj_ge n o -> frames n (write l o) (fun _ => True).
Proof.
  intros Hl Ho h Hg. unfold write. cbn.
  split; [apply firstn_heap_set; exact Hl |].
  split; [apply good_set; assumption | auto].
Qed.

Lemma frames_alloc (n : nat) (o : obj) :
  obj_ge n o -> frames n (alloc o) (fun l => n <= l).
Proof.
  intros Ho h Hg. unfold alloc. cbn.
  split; [apply firstn_app_le; apply Hg |].
  split; [apply good_app; assumption |].
  intros a H. inversion H; subst. apply Hg.
Qed.

Lemma frames_read (n : nat) (v : value) : frames n (read v) (fun _ => True).
Proof. intros h Hg. cbn. split; [reflexivity | split; [exact Hg | auto]]. Qed.

(** The objects of a tree are made after those of the heap, and refer to
    one another only. *)
Lemma store_tree_extends (t : tree) :
  forall h h' v, store_tree t h = (h', v) ->
  exists ext, h' = h ++ ext
              /\ Forall (obj_ge (List.length h)) ext
              /\ val_ge (List.length h) v.
Proof.
  induction t as [| | | | |ts IH|kvs IH|] using tree_nested_ind;
    intros h h' v H; cbn in H;
    try (inversion H; subst; exists []; rewrite app_nil_r; cbn; auto; fail).
  - match type of H with
    | (let '(_, _) := ?go ts h in _) = _ =>
        assert (Hgo : forall h h1 vs, go ts h = (h1, vs) ->
                  exists ext, h1 = h ++ ext
                              /\ Forall (obj_ge (List.length h)) ext
                              /\ Forall (val_ge (List.length h)) vs)
    end.
    { clear H. induction IH as [|t ts Ht _ IHts]; intros h0 h1 vs Hgo.
      - inversion Hgo; subst. exists []. rewrite app_nil_r. auto.
      - destruct (store_tree t h0) as [h2 v2] eqn:Ht2.
        match type of Hgo with
        | (let '(_, _) := ?g ts h2 in _) = _ =>
            destruct (g ts h2) as [h3 vs3] eqn:Hts3
        end.
        inversion Hgo; subst.
        destruct (Ht _ _ _ Ht2) as (e1 & -> & He1 & Hv1).
        destruct (IHts _ _ _ Hts3) as (e2 & -> & He2 & Hv2).
        rewrite length_app in *.
        exists (e1 ++ e2). rewrite app_assoc. split; [reflexivity |].
        split.
        + apply Forall_app. split; [exact He1 |].
          eapply Forall_impl; [| exact He2].
          intros o. apply obj_ge_le. lia.
        + constructor; [exact Hv1 |].
          eapply Forall_impl; [| exact Hv2].
          intros x. apply val_ge_le. lia. }
    match type of H with
    | (let '(_, _) := ?go ts h in _) = _ =>
        destruct (go ts h) as [h1 vs] eqn:Hts
    end.
    inversion H; subst.
    destruct (Hgo _ _ _ Hts) as (ext & -> & Hext & Hvs).
    exists (ext ++ [OList vs]). rewrite app_assoc. split; [reflexivity |].
    split.
    + apply Forall_app. split; [exact Hext |]. constructor; [| constructor].
      exact Hvs.
    + cbn. rewrite length_app. lia.
  - match type of H with
    | (let '(_, _) := ?go kvs h in _) = _ =>
        assert (Hgo : forall h h1 vs, go kvs h = (h1, vs) ->
                  exists ext, h1 = h ++ ext
                              /\ Forall (obj_ge (List.length h)) ext
                              /\ Forall (fun kv => val_ge (List.length h) (snd kv)) vs)
    end.
    { clear H. induction IH as [|[k t] kvs Ht _ IHts]; intros h0 h1 vs Hgo.
      - inversion Hgo; subst. exists []. rewrite app_nil_r. auto.
      - cbn [snd] in Ht.
        destruct (store_tree t h0) as [h2 v2] eqn:Ht2.
        match type of Hgo with
        | (let '(_, _) := ?g kvs h2 in _) = _ =>
            destruct (g kvs h2) as [h3 vs3] eqn:Hts3
        end.
        inversion Hgo; subst.
        destruct (Ht _ _ _ Ht2) as (e1 & -> & He1 & Hv1).
        destruct (IHts _ _ _ Hts3) as (e2 & -> & He2 & Hv2).
        rewrite length_app in *.
        exists (e1 ++ e2). rewrite app_assoc. split; [reflexivity |].
        split.
        + apply Forall_app. split; [exact He1 |].
          eapply Forall_impl; [| exact He2].
          intros o. apply obj_ge_le. lia.
        + constructor; [exact Hv1 |].
          eapply Forall_impl; [| exact Hv2].
          intros x. apply val_ge_le. lia. }
    match type of H with
    | (let '(_, _) := ?go kvs h in _) = _ =>
        destruct (go kvs h) as [h1 vs] eqn:Hts
    end.
    inversion H; subst.
    destruct (Hgo _ _ _ Hts) as (ext & -> & Hext & Hvs).
    exists (ext ++ [ODict vs]). rewrite app_assoc. split; [reflexivity |].
    split.
    + apply Forall_app. split; [exact Hext |]. constructor; [| constructor].
      exact Hvs.
    + cbn. rewrite length_app. lia.
Qed.

Lemma good_app_many (n : nat) (ext : list obj) :
  forall h, good n h -> Forall (obj_ge n) ext -> good n (h ++ ext).
Proof.
  induction ext as [|o ext IH]; intros h Hg Hext.
  - rewrite app_nil_r. exact Hg.
  - inversion Hext; subst.
    change (h ++ o :: ext) with (h ++ [o] ++ ext). rewrite app_assoc.
    apply IH; [apply good_app |]; assumption.
Qed.

Lemma frames_store (n : nat) (t : tree) : frames n (store t) (val_ge n).
Proof.
  intros h Hg. unfold store.
  destruct (store_tree t h) as [h' v] eqn:Hs. cbn.
  destruct (store_tree_extends _ _ Hs) as (ext & -> & Hext & Hv).
  assert (n <= List.length h) by apply Hg.
  split; [apply firstn_app_le; assumption |].
  split.
  - apply good_app_many; [exact Hg |].
    eapply Forall_impl; [| exact Hext]. intros o. apply obj_ge_le. assumption.
  - intros a Ha. inversion Ha; subst. eapply val_ge_le; eassumption.
Qed.

Lemma frames_pure (A : Type) (n : nat) (r : heap -> result A) :
  frames n (fun h => (h, r h)) (fun _ => True).
Proof. intros h Hg. cbn. split; [reflexivity | split; [exact Hg | auto]]. Qed.

Lemma frames_isinstance_list (n : nat) (v : value) :
  frames n (isinstance_list v) (fun _ => True).
Proof. apply frames_pure. Qed.

Lemma frames_list_append (n : nat) (target v : value) :
  val_ge n target -> val_ge n v ->
  frames n (list_append target v) (fun _ => True).
Proof.
  intros Ht Hv h Hg. unfold list_append.
  destruct target as [| | | | |l];
    try (cbn; split; [reflexivity | split; [exact Hg | auto]]; fail).
  destruct (heap_get h l) as [[xs|d]|] eqn:Hget;
    try (cbn; split; [reflexivity | split; [exact Hg | auto]]; fail).
  cbn in Ht. cbn [fst snd].
  split; [apply firstn_heap_set; exact Ht |].
  split; [| auto].
  apply good_set; [exact Hg |]. cbn.
  apply Forall_app. split.
  - destruct Hg as [_ Hobj]. exact (Hobj l (OList xs) Ht Hget).
  - constructor; [exact Hv | constructor].
Qed.

Lemma Forall_dict_set (V : Type) (P : V -> Prop) (k : string) (v : V)
  (d : dict V) :
  P v -> Forall (fun kv => P (snd kv)) d ->
  Forall (fun kv => P (snd kv)) (dict_set k v d).
Proof.
  intros Hv. induction d as [|[k0 v0] d IH]; intros Hd; cbn.
  - constructor; [exact Hv | constructor].
  - inversion Hd; subst. destruct (String.eqb k k0).
    + constructor; assumption.
    + constructor; [assumption | apply IH; assumption].
Qed.

Lemma Forall_dict_get (V : Type) (P : V -> Prop) (k : string) (v : V)
  (d : dict V) :
  Forall (fun kv => P (snd kv)) d -> dict_get k d = Some v -> P v.
Proof.
  induction d as [|[k0 v0] d IH]; intros Hd; cbn; [discriminate |].
  inversion Hd; subst. destruct (String.eqb k k0).
  - intros H. inversion H; subst. assumption.
  - apply IH. assumption.
Qed.

Section Context_.
Variables (n ctx : nat).
Hypothesis Hctx : n <= ctx.

Lemma frames_ctx_get (field : tree) (default : value) :
  val_ge n default ->
  frames n (RuleExecutor.ctx_get ctx field default) (val_ge n).
Proof.
  intros Hd. unfold RuleExecutor.ctx_get.
  eapply frames_bind; [apply frames_lift | intros k _].
  eapply frames_bind; [apply frames_read_dict; exact Hctx | intros d Hitems].
  apply frames_ret.
  destruct (dict_get k d) eqn:Hget; [| exact Hd].
  cbv beta in Hitems.
  eapply (@Forall_dict_get value (val_ge n)); eassumption.
Qed.

Lemma frames_ctx_set (field : tree) (v : value) :
  val_ge n v -> frames n (RuleExecutor.ctx_set ctx field v) (fun _ => True).
Proof.
  intros Hv. unfold RuleExecutor.ctx_set.
  eapply frames_bind; [apply frames_lift | intros k _].
  eapply frames_bind; [apply frames_read_dict; exact Hctx | intros d Hitems].
  apply frames_write; [exact Hctx |].
  cbn. apply (@Forall_dict_set value (val_ge n)); assumption.
Qed.

Lemma frames_ctx_float (field : tree) :
  frames n (RuleExecutor.ctx_float ctx field) (fun _ => True).
Proof.
  unfold RuleExecutor.ctx_float.
  eapply frames_bind; [apply frames_ctx_get; exact I | intros v _].
  eapply frames_bind; [apply frames_read | intros t _].
  apply frames_lift.
Qed.

Lemma frames_arith (op : pyfloat -> pyfloat -> pyfloat) (field operand : tree) :
  frames n (RuleExecutor.arith op ctx field operand) (fun _ => True).
Proof.
  unfold RuleExecutor.arith.
  eapply frames_bind; [apply frames_ctx_float | intros x _].
  eapply frames_bind; [apply frames_lift | intros y _].
  eapply frames_bind; [apply frames_ctx_set; exact I | intros _ _].
  apply frames_ret. exact I.
Qed.

Ltac frames_op :=
  first
    [ apply frames_lift
    | apply frames_store
    | apply frames_read
    | apply frames_arith
    | apply frames_ctx_float
    | apply frames_isinstance_list
    | apply frames_read_dict; exact Hctx
    | apply frames_ctx_get; exact I
    | apply frames_ctx_set; assumption
    | apply frames_list_append; assumption
    | apply frames_pure ].

Ltac frames_go :=
  repeat first
    [ apply frames_ret; exact I
    | eapply frames_bind; [frames_op | intros ? ?]
    | match goal with
      | |- frames _ (if ?b then _ else _) _ => destruct b
      end ].

Lemma frames_append_value (field value : tree) :
  frames n (RuleExecutor.append_value ctx field value) (fun _ => True).
Proof.
  unfold RuleExecutor.append_value.
  frames_go.
  eapply frames_bind.
  - match goal with
    | |- frames _ (if ?b then _ else _) _ => destruct b
    end.
    + eapply frames_bind; [apply frames_alloc; constructor | intros l Hl].
      apply frames_ctx_set. exact Hl.
    + apply frames_ret. exact I.
  - intros ? ?. frames_go. apply frames_list_append; assumption.
Qed.

Lemma frames_execute_action (action rule_id : tree) :
  frames n (RuleExecutor._execute_action action ctx rule_id) (fun _ => True).
Proof.
  unfold RuleExecutor._execute_action.
  frames_go.
  - (* DIVIDE: the guarded assignment *)
    eapply frames_bind.
    + match goal with
      | |- frames _ (if ?b then _ else _) _ => destruct b
      end.
      * eapply frames_bind; [frames_op | intros ? ?].
        apply frames_ctx_set. exact I.
      * apply frames_ret. exact I.
    + intros ? ?. frames_go.
  - eapply frames_bind; [apply frames_append_value | intros ? ?].
    apply frames_ret. exact I.
Qed.

Lemma frames_execute_loop (actions : list tree) (rule_id : tree) :
  forall logs,
  frames n (RuleExecutor.execute_loop actions ctx rule_id logs)
         (fun _ => True).
Proof.
  induction actions as [|action actions IH]; intros logs; cbn.
  - apply frames_ret. exact I.
  - eapply frames_bind; [apply frames_execute_action | intros ? ?].
    apply IH.
Qed.

Lemma frames_execute (actions rule_id : tree) :
  frames n (RuleExecutor.execute actions ctx rule_id) (fun _ => True).
Proof.
  unfold RuleExecutor.execute.
  eapply frames_bind; [apply frames_lift | intros ? ?].
  apply frames_execute_loop.
Qed.

Lemma frames_visit (rule : tree) (t : trace) :
  frames n (visit rule ctx t) (fun _ => True).
Proof.
  unfold visit.
  repeat (eapply frames_bind; [frames_op | intros ? ?]).
  match goal with
  | |- frames _ (match ?c with Ok _ => _ | Raise _ => _ end) _ =>
      destruct c as [[|]|]
  end.
  - eapply frames_bind; [frames_op | intros ? ?].
    eapply frames_bind; [apply frames_execute | intros ? ?].
    frames_go.
  - frames_go.
  - apply frames_ret. exact I.
Qed.

Lemma frames_run_rules (mode : tree) (rules : list tree) :
  forall t, frames n (run_rules mode rules ctx t) (fun _ => True).
Proof.
  induction rules as [|rule rules IH]; intros t; cbn.
  - apply frames_ret. exact I.
  - eapply frames_bind; [apply frames_visit | intros r _].
    destruct (snd r && is_first_match mode).
    + apply frames_ret. exact I.
    + apply IH.
Qed.

End Context_.

Lemma memo_get_ge (n : nat) (memo : memo_t) (l l' : nat) :
  memo_ge n memo -> memo_get memo l = Some l' -> n <= l'.
Proof.
  unfold memo_get. intros Hm.
  destruct (find (fun p => fst p =? l) memo) as [[a b]|] eqn:Hf;
    [| discriminate].
  intros H. inversion H; subst.
  apply find_some in Hf as [Hin _].
  unfold memo_ge in Hm. rewrite Forall_forall in Hm.
  exact (Hm _ Hin).
Qed.

Section Copy.
Variable n : nat.
Variable copy : memo_t -> heap -> value -> result (heap * memo_t * value).
Hypothesis Hcopy :
  forall memo h v, good n h -> memo_ge n memo ->
                   copied n h (val_ge n) (copy memo h v).

Lemma copy_list_copied (xs : list value) :
  forall h memo, good n h -> memo_ge n memo ->
  copied n h (Forall (val_ge n)) (copy_list copy xs h memo).
Proof.
  induction xs as [|x xs IH]; intros h memo Hg Hm; cbn.
  - repeat split; auto; apply Hg.
  - pose proof (Hcopy x Hg Hm) as Hx.
    destruct (copy memo h x) as [[[h1 memo1] y]|]; cbn; [| exact I].
    destruct Hx as (Hf1 & Hg1 & Hm1 & Hy).
    pose proof (IH _ _ Hg1 Hm1) as Hxs.
    destruct (copy_list copy xs h1 memo1) as [[[h2 memo2] ys]|]; cbn;
      [| exact I].
    destruct Hxs as (Hf2 & Hg2 & Hm2 & Hys).
    split; [congruence |]. split; [exact Hg2 |]. split; [exact Hm2 |].
    constructor; assumption.
Qed.

Lemma copy_dict_copied (kvs : list (string * value)) :
  forall h memo, good n h -> memo_ge n memo ->
  copied n h (Forall (fun kv => val_ge n (snd kv)))
         (copy_dict copy kvs h memo).
Proof.
  induction kvs as [|[k x] kvs IH]; intros h memo Hg Hm; cbn.
  - repeat split; auto; apply Hg.
  - pose proof (Hcopy x Hg Hm) as Hx.
    destruct (copy memo h x) as [[[h1 memo1] y]|]; cbn; [| exact I].
    destruct Hx as (Hf1 & Hg1 & Hm1 & Hy).
    pose proof (IH _ _ Hg1 Hm1) as Hxs.
    destruct (copy_dict copy kvs h1 memo1) as [[[h2 memo2] ys]|]; cbn;
      [| exact I].
    destruct Hxs as (Hf2 & Hg2 & Hm2 & Hys).
    split; [congruence |]. split; [exact Hg2 |]. split; [exact Hm2 |].
    constructor; assumption.
Qed.

End Copy.

Lemma deepcopy_copied (n fuel : nat) :
  forall memo h v, good n h -> memo_ge n memo ->
                   copied n h (val_ge n) (deepcopy fuel memo h v).
Proof.
  induction fuel as [|fuel IH]; intros memo h v Hg Hm;
    (destruct v as [| | | | |l]; cbn [deepcopy];
     try (cbn; repeat split; auto; apply Hg));
    (destruct (memo_get memo l) as [l'|] eqn:Hmemo;
     [cbn; repeat split; auto; try apply Hg;
      eapply memo_get_ge; eassumption |]);
    destruct (heap_get h l) as [o|] eqn:Hget.
  - destruct o; exact I.
  - cbn. repeat split; auto; try apply Hg.
    destruct Hg as [Hlen _]. unfold heap_get in Hget.
    apply nth_error_None in Hget. lia.
  - assert (Hlen : n <= List.length h) by apply Hg.
    assert (Hm' : memo_ge n ((l, List.length h) :: memo))
      by (constructor; [exact Hlen | exact Hm]).
    destruct o as [xs|kvs].
    + assert (Hg' : good n (h ++ [OList []]))
        by (apply good_app; [exact Hg | constructor]).
      pose proof (@copy_list_copied n (deepcopy fuel) IH xs _ _ Hg' Hm') as Hxs.
      destruct (copy_list (deepcopy fuel) xs _ _) as [[[h1 memo1] ys]|];
        cbn; [| exact I].
      destruct Hxs as (Hf1 & Hg1 & Hm1 & Hys).
      split; [rewrite firstn_heap_set by exact Hlen;
              rewrite Hf1; apply firstn_app_le; exact Hlen |].
      split; [apply good_set; assumption |].
      split; [exact Hm1 | exact Hlen].
    + assert (Hg' : good n (h ++ [ODict []]))
        by (apply good_app; [exact Hg | constructor]).
      pose proof (@copy_dict_copied n (deepcopy fuel) IH kvs _ _ Hg' Hm') as Hxs.
      destruct (copy_dict (deepcopy fuel) kvs _ _) as [[[h1 memo1] ys]|];
        cbn; [| exact I].
      destruct Hxs as (Hf1 & Hg1 & Hm1 & Hys).
      split; [rewrite firstn_heap_set by exact Hlen;
              rewrite Hf1; apply firstn_app_le; exact Hlen |].
      split; [apply good_set; assumption |].
      split; [exact Hm1 | exact Hlen].
  - cbn. repeat split; auto; try apply Hg.
    destruct Hg as [Hlen _]. unfold heap_get in Hget.
    apply nth_error_None in Hget. lia.
Qed.

Lemma frames_copy_deepcopy (n : nat) (v : value) :
  frames n (copy_deepcopy v) (val_ge n).
Proof.
  intros h Hg. unfold copy_deepcopy.
  pose proof (@deepcopy_copied n (S (List.length h)) [] h v Hg
                (Forall_nil _)) as Hc.
  destruct (deepcopy (S (List.length h)) [] h v) as [[[h' memo'] v']|];
    cbn [fst snd].
  - destruct Hc as (Hf & Hg' & _ & Hv).
    split; [exact Hf | split; [exact Hg' |]].
    intros a Ha. inversion Ha; subst. exact Hv.
  - split; [reflexivity | split; [exact Hg |]]. intros a Ha. discriminate Ha.
Qed.

Lemma frames_setdefault_tags (n : nat) (context : value) :
  val_ge n context -> frames n (setdefault_tags context) (fun c => n <= c).
Proof.
  intros Hc. destruct context as [| | | | |c]; cbn [setdefault_tags];
    try (eapply frames_weaken; [apply frames_lift | intros ? ?]; fail).
  - intros h Hg. cbn. split; [reflexivity | split; [exact Hg |]].
    intros a Ha. discriminate Ha.
  - intros h Hg. cbn. split; [reflexivity | split; [exact Hg |]].
    intros a Ha. discriminate Ha.
  - intros h Hg. cbn. split; [reflexivity | split; [exact Hg |]].
    intros a Ha. discriminate Ha.
  - intros h Hg. cbn. split; [reflexivity | split; [exact Hg |]].
    intros a Ha. discriminate Ha.
  - intros h Hg. cbn. split; [reflexivity | split; [exact Hg |]].
    intros a Ha. discriminate Ha.
  - cbn in Hc.
    eapply frames_bind; [apply frames_alloc; constructor | intros l Hl].
    intros h Hg.
    destruct (heap_get h c) as [[xs|d]|] eqn:Hget; cbn [fst snd];
      try (split; [reflexivity | split; [exact Hg |]];
           intros a Ha; discriminate Ha).
    destruct (dict_mem "tags" d); cbn [fst snd].
    + split; [reflexivity | split; [exact Hg |]].
      intros a Ha. inversion Ha; subst. exact Hc.
    + split; [apply firstn_heap_set; exact Hc |].
      split.
      * apply good_set; [exact Hg |]. cbn.
        apply (@Forall_dict_set value (val_ge n)); [exact Hl |].
        destruct Hg as [_ Hobj]. exact (Hobj c (ODict d) Hc Hget).
      * intros a Ha. inversion Ha; subst. exact Hc.
Qed.

Lemma frames_evaluate_loaded (n : nat) (name : string) (data : tree)
  (input : value) :
  frames n (evaluate_loaded name data input) (fun _ => True).
Proof.
  unfold evaluate_loaded.
  eapply frames_bind; [apply frames_lift | intros ? _].
  eapply frames_bind; [apply frames_lift | intros ? _].
  eapply frames_bind; [apply frames_lift | intros ? _].
  eapply frames_bind; [apply frames_copy_deepcopy | intros context Hcontext].
  eapply frames_bind; [apply frames_setdefault_tags; exact Hcontext
                      | intros ctx Hctx].
  eapply frames_bind; [apply frames_lift | intros ? _].
  eapply frames_bind; [apply frames_run_rules; exact Hctx | intros ? _].
  eapply frames_bind; [apply frames_lift | intros ? _].
  eapply frames_bind; [apply frames_lift | intros ? _].
  eapply frames_bind; [apply frames_lift | intros ? _].
  apply frames_ret. exact I.
Qed.

Lemma good_start (h : heap) : good (List.length h) h.
Proof.
  split; [lia |]. intros l o Hl Hget.
  apply heap_get_lt in Hget. lia.
Qed.

Lemma existsb_eqb_false (l : nat) (path : list nat) :
  existsb (Nat.eqb l) path = false -> ~ In l path.
Proof.
  intros H Hin.
  assert (existsb (Nat.eqb l) path = true)
    by (apply existsb_exists; exists l; split; [exact Hin | apply Nat.eqb_refl]).
  congruence.
Qed.

Lemma closed_get (h : heap) (l : nat) (o : obj) :
  closed h -> heap_get h l = Some o -> obj_lt (List.length h) o.
Proof.
  unfold closed, heap_get. intros Hc Hget.
  rewrite Forall_forall in Hc. apply Hc. eapply nth_error_In. exact Hget.
Qed.

(** Reading a value of a closed heap does not look at objects added to the
    heap. *)
Lemma reify_prefix (h ext : heap) :
  closed h ->
  forall fuel path v, val_lt (List.length h) v ->
  reify fuel (h ++ ext) path v = reify fuel h path v.
Proof.
  intros Hc. induction fuel as [|fuel IH]; intros path v Hv;
    (destruct v as [| | | | |l]; try reflexivity); cbn in Hv; cbn [reify];
    (assert (Hget : heap_get (h ++ ext) l = heap_get h l)
       by (unfold heap_get; apply nth_error_app1; exact Hv));
    rewrite Hget; [reflexivity |].
  destruct (heap_get h l) as [o|] eqn:Ho; [| reflexivity].
  destruct (existsb (Nat.eqb l) path); [reflexivity |].
  pose proof (closed_get _ Hc Ho) as Hlt.
  destruct o as [xs|kvs]; cbn in Hlt; f_equal; apply map_ext_in;
    intros x Hin; rewrite Forall_forall in Hlt.
  - apply IH. apply Hlt. exact Hin.
  - f_equal. apply IH. apply (Hlt _ Hin).
Qed.

(** Reading a value needs no more fuel than there are objects off the
    path. *)
Lemma reify_fuel (h : heap) :
  closed h ->
  forall fuel fuel' path v,
  val_lt (List.length h) v ->
  NoDup path -> (forall l, In l path -> l < List.length h) ->
  List.length h <= fuel + List.length path ->
  List.length h <= fuel' + List.length path ->
  reify fuel h path v = reify fuel' h path v.
Proof.
  intros Hc.
  assert (Hfull : forall path l,
             NoDup path -> (forall x, In x path -> x < List.length h) ->
             List.length h <= List.length path -> l < List.length h ->
             In l path).
  { intros path l Hnd Hin Hlen Hl.
    apply (@NoDup_length_incl nat path (seq 0 (List.length h))).
    - exact Hnd.
    - rewrite length_seq. exact Hlen.
    - intros x Hx. apply in_seq. specialize (Hin x Hx). lia.
    - apply in_seq. lia. }
  induction fuel as [|fuel IH]; intros fuel' path v Hv Hnd Hin Hf Hf';
    (destruct v as [| | | | |l];
     [destruct fuel'; reflexivity .. |]); cbn in Hv.
  - destruct fuel'; cbn [reify]; try reflexivity.
    destruct (heap_get h l); [| reflexivity].
    destruct (existsb (Nat.eqb l) path) eqn:He; [reflexivity |].
    exfalso. apply (existsb_eqb_false _ _ He).
    apply Hfull; auto; lia.
  - destruct fuel' as [|fuel']; cbn [reify].
    + destruct (heap_get h l); [| reflexivity].
      destruct (existsb (Nat.eqb l) path) eqn:He; [reflexivity |].
      exfalso. apply (existsb_eqb_false _ _ He).
      apply Hfull; auto; lia.
    + destruct (heap_get h l) as [o|] eqn:Ho; [| reflexivity].
      destruct (existsb (Nat.eqb l) path) eqn:He; [reflexivity |].
      pose proof (closed_get _ Hc Ho) as Hlt.
      assert (Hnd' : NoDup (l :: path))
        by (constructor; [apply existsb_eqb_false; exact He | exact Hnd]).
      assert (Hin' : forall x, In x (l :: path) -> x < List.length h)
        by (intros x [<-|Hx]; auto).
      destruct o as [xs|kvs]; cbn in Hlt; f_equal; apply map_ext_in;
        intros x Hx; rewrite Forall_forall in Hlt.
      * apply IH; auto; cbn [List.length]; lia.
      * f_equal. apply IH; auto; try (apply (Hlt _ Hx)); cbn [List.length]; lia.
Qed.

(** A value of a closed heap reads the same in every heap that extends
    it. *)
Lemma snapshot_prefix (h h' : heap) (v : value) :
  closed h -> val_lt (List.length h) v ->
  firstn (List.length h) h' = h ->
  snapshot h' v = snapshot h v.
Proof.
  intros Hc Hv Hfirst.
  assert (Hh' : h' = h ++ skipn (List.length h) h')
    by (rewrite <- Hfirst at 1; symmetry; apply firstn_skipn).
  unfold snapshot. rewrite Hh' at 2. rewrite reify_prefix by assumption.
  apply reify_fuel; auto; try (constructor; fail); cbn; try lia.
  rewrite Hh', length_app. lia.
Qed.

End FrameFacts.

(** ** Action lists that run to their end *)
Section SafetyFacts.
Context {F : PyFloat}.
Variable fields : list string.
Variable ctx : nat.
Variable rule_id : tree.
Hypothesis Hzero : numeric (TInt 0) = true.

Lemma snapshot_numeric (h : heap) (v : value) :
  numeric_value v = true -> exists x, as_float (snapshot h v) = Ok x.
Proof.
  unfold snapshot, numeric_value, numeric, is_ok.
  destruct v; try discriminate; destruct (List.length h); cbn [reify];
    intros H;
    match goal with
    | |- exists x, ?r = Ok x =>
        destruct r eqn:E;
        [eauto | first [discriminate H | discriminate E]]
    end.
Qed.

Lemma store_numeric (t : tree) (h : heap) :
  numeric t = true ->
  exists v, store_tree t h = (h, v) /\ numeric_value v = true.
Proof.
  unfold numeric_value. destruct t; cbn [store_tree]; intros H;
    try discriminate H; eauto.
Qed.

Lemma heap_get_app_l (h ext : heap) (l : nat) :
  l < List.length h -> heap_get (h ++ ext) l = heap_get h l.
Proof. intros H. unfold heap_get. apply nth_error_app1. exact H. Qed.

Lemma numeric_ok (t : tree) :
  numeric t = true -> exists x, as_float t = Ok x.
Proof.
  unfold numeric, is_ok. destruct (as_float t); [eauto | discriminate].
Qed.

(** The value of a field of [fields] converts, the field being absent or
    not. *)
Lemma field_converts (h : heap) (items : dict value) (field : string) :
  (forall f v, mem_str f fields = true -> dict_get f items = Some v ->
               numeric_value v = true) ->
  mem_str field fields = true ->
  exists x, as_float (snapshot h (field_or items field (VInt 0))) = Ok x.
Proof.
  intros Hnum Hin. apply snapshot_numeric. unfold field_or.
  destruct (dict_get field items) eqn:Hget; [eapply Hnum; eassumption |].
  exact Hzero.
Qed.

Lemma ctx_numeric_set (h : heap) (items : dict value) (field : string)
  (v : value) :
  heap_get h ctx = Some (ODict items) ->
  (forall f v, mem_str f fields = true -> dict_get f items = Some v ->
               numeric_value v = true) ->
  (mem_str field fields = true -> numeric_value v = true) ->
  ctx_numeric fields (heap_set h ctx (ODict (dict_set field v items))) ctx.
Proof.
  intros Hget Hnum Hv.
  exists (dict_set field v items). split.
  - apply heap_get_set_eq. eapply heap_get_lt. exact Hget.
  - intros f v'. rewrite dict_get_set.
    destruct (String.eqb_spec f field) as [->|Hne].
    + intros Hin Heq. inversion Heq; subst. auto.
    + apply Hnum.
Qed.

Ltac safe_field Hsafe a k field Hf :=
  cbn -[numeric mem_str operand value_of dict_get] in Hsafe;
  destruct (dict_get k a) as [[| | | |field| | |]|] eqn:Hf;
  try discriminate Hsafe.

(** An arithmetic action on a field of [fields], with an operand that
    converts. *)
Lemma safe_arith_runs (op : pyfloat -> pyfloat -> pyfloat) (h : heap)
  (items : dict value) (field : string) (by_ : tree) :
  heap_get h ctx = Some (ODict items) ->
  (forall f v, mem_str f fields = true -> dict_get f items = Some v ->
               numeric_value v = true) ->
  mem_str field fields = true -> numeric by_ = true ->
  exists h' r,
    RuleExecutor.arith op ctx (TStr field) by_ h = (h', Ok r)
    /\ ctx_numeric fields h' ctx.
Proof.
  intros Hget Hnum Hin Hby.
  destruct (@field_converts h items field Hnum Hin) as (x & Hx).
  destruct (@numeric_ok by_ Hby) as (y & Hy).
  unfold field_or in Hx.
  run_heap. rewrite Hget. run_heap. rewrite Hx, Hy. run_heap.
  rewrite Hget. run_heap.
  eexists _, _. split; [reflexivity |].
  apply ctx_numeric_set; auto.
Qed.

Lemma mbind_ok (A B : Type) (m : M A) (k : A -> M B) (h h1 : heap) (a : A) :
  m h = (h1, Ok a) -> mbind m k h = k a h1.
Proof. intros H. unfold mbind. rewrite H. reflexivity. Qed.

Lemma ctx_get_run (h : heap) (items : dict value) (field : string)
  (default : value) :
  heap_get h ctx = Some (ODict items) ->
  RuleExecutor.ctx_get ctx (TStr field) default h
  = (h, Ok (field_or items field default)).
Proof. intros H. run_heap. rewrite H. reflexivity. Qed.

Lemma ctx_set_run (h : heap) (items : dict value) (field : string)
  (v : value) :
  heap_get h ctx = Some (ODict items) ->
  RuleExecutor.ctx_set ctx (TStr field) v h
  = (heap_set h ctx (ODict (dict_set field v items)), Ok tt).
Proof. intros H. run_heap. rewrite H. reflexivity. Qed.

(** APPEND to a field that is none of [fields]. *)
Lemma safe_append_runs (h : heap) (items : dict value) (field : string)
  (val : tree) :
  heap_get h ctx = Some (ODict items) ->
  (forall f v, mem_str f fields = true -> dict_get f items = Some v ->
               numeric_value v = true) ->
  mem_str field fields = false ->
  exists h',
    RuleExecutor.append_value ctx (TStr field) val h = (h', Ok tt)
    /\ ctx_numeric fields h' ctx.
Proof.
  intros Hget Hnum Hout.
  assert (Hctx : ctx < List.length h) by (eapply heap_get_lt; eauto).
  unfold RuleExecutor.append_value.
  rewrite (@mbind_ok _ _ _ _ _ _ _ (@ctx_get_run h items field VNone Hget)).
  unfold isinstance_list at 1. unfold mbind at 1.
  destruct (match field_or items field VNone with
            | VRef l => match heap_get h l with
                        | Some (OList _) => true
                        | _ => false
                        end
            | _ => false
            end) eqn:Hlist; cbn [negb].
  - (* the field holds a list *)
    destruct (field_or items field VNone) as [| | | | |l] eqn:Hold;
      try discriminate Hlist.
    destruct (heap_get h l) as [[xs|]|] eqn:Hl; try discriminate Hlist.
    unfold ret at 1. unfold mbind at 1.
    rewrite (@mbind_ok _ _ _ _ _ _ _ (@ctx_get_run h items field VNone Hget)), Hold.
    destruct (store_tree val h) as [h1 v] eqn:Hstore.
    destruct (store_tree_extends _ _ Hstore) as (ext & -> & _ & _).
    unfold store at 1. unfold mbind at 1. rewrite Hstore.
    unfold list_append.
    rewrite heap_get_app_l, Hl by (eapply heap_get_lt; eauto).
    eexists. split; [reflexivity |].
    exists items. split; [| exact Hnum].
    rewrite heap_get_set_neq by congruence.
    rewrite heap_get_app_l by exact Hctx. exact Hget.
  - (* the field holds no list: a new one is made *)
    unfold alloc at 1. unfold mbind at 1 2.
    assert (Hget1 : heap_get (h ++ [OList []]) ctx = Some (ODict items))
      by (rewrite heap_get_app_l by exact Hctx; exact Hget).
    rewrite (@ctx_set_run _ items field (VRef (List.length h)) Hget1).
    set (items' := dict_set field (VRef (List.length h)) items).
    set (h2 := heap_set (h ++ [OList []]) ctx (ODict items')).
    assert (Hlen2 : List.length h2 = S (List.length h))
      by (unfold h2; rewrite length_heap_set, length_app; cbn; lia).
    assert (Hget2 : heap_get h2 ctx = Some (ODict items'))
      by (unfold h2; apply heap_get_set_eq; rewrite length_app; lia).
    assert (Hnew : heap_get h2 (List.length h) = Some (OList [])).
    { unfold h2. rewrite heap_get_set_neq by lia.
      rewrite heap_get_app, Nat.ltb_irrefl, Nat.eqb_refl. reflexivity. }
    rewrite (@mbind_ok _ _ _ _ _ _ _ (@ctx_get_run h2 items' field VNone Hget2)).
    unfold field_or, items'. rewrite dict_get_set, String.eqb_refl.
    fold items'.
    destruct (store_tree val h2) as [h3 v] eqn:Hstore.
    destruct (store_tree_extends _ _ Hstore) as (ext & -> & _ & _).
    unfold store at 1. unfold mbind at 1. rewrite Hstore.
    unfold list_append.
    rewrite heap_get_app_l, Hnew by lia.
    eexists. split; [reflexivity |].
    exists items'. split.
    + rewrite heap_get_set_neq by lia.
      rewrite heap_get_app_l by lia. exact Hget2.
    + intros f v'. unfold items'. rewrite dict_get_set.
      destruct (String.eqb_spec f field) as [->|Hne]; [congruence |].
      apply Hnum.
Qed.

(** A safe action returns, and leaves the context as [ctx_numeric] wants
    it. *)
Lemma safe_action_runs (action : tree) (h : heap) :
  ctx_numeric fields h ctx ->
  action_safe fields action = true ->
  exists h' r,
    RuleExecutor._execute_action action ctx rule_id h = (h', Ok r)
    /\ ctx_numeric fields h' ctx.
Proof.
  intros (items & Hget & Hnum) Hsafe.
  assert (Hinv : ctx_numeric fields h ctx) by (exists items; auto).
  destruct action as [| | | | | |a|]; try discriminate Hsafe.
  cbn [action_safe] in Hsafe.
  unfold RuleExecutor._execute_action. cbn [py_in lift mbind].
  destruct (action_kind a) as [k|] eqn:Hkind.
  - kind_cases Hkind; inversion Hkind; subst k; clear Hkind;
      rewrite ?E, ?E0, ?E1, ?E2, ?E3, ?E4, ?E5; cbn [py_getitem py_get].
    + (* SET *)
      safe_field Hsafe a "set" field Hf.
      cbn [lift mbind].
      destruct (store_tree (value_of a) h) as [h1 v] eqn:Hstore.
      destruct (store_tree_extends _ _ Hstore) as (ext & -> & _ & _).
      unfold value_of in Hstore.
      run_heap. rewrite Hstore. run_heap.
      rewrite heap_get_app_l, Hget by (eapply heap_get_lt; eauto).
      eexists _, _. split; [reflexivity |].
      apply ctx_numeric_set; auto.
      * rewrite heap_get_app_l by (eapply heap_get_lt; eauto). exact Hget.
      * intros Hin. rewrite Hin in Hsafe. cbn [negb orb] in Hsafe.
        destruct (@store_numeric (value_of a) h Hsafe) as (v' & Hv' & Hnv).
        unfold value_of in Hv'. rewrite Hv' in Hstore.
        inversion Hstore; subst. exact Hnv.
    + (* MULTIPLY *)
      safe_field Hsafe a "multiply" field Hf.
      apply andb_true_iff in Hsafe as [Hin Hby].
      cbn [lift mbind].
      destruct (@safe_arith_runs float_mul h items field _ Hget Hnum Hin Hby)
        as (h' & r & Hrun & Hinv').
      unfold operand, default_operand in Hrun. cbn in Hrun.
      unfold mbind at 1. rewrite Hrun. run_heap. eauto.
    + (* ADD *)
      safe_field Hsafe a "add" field Hf.
      apply andb_true_iff in Hsafe as [Hin Hby].
      cbn [lift mbind].
      destruct (@safe_arith_runs float_add h items field _ Hget Hnum Hin Hby)
        as (h' & r & Hrun & Hinv').
      unfold operand, default_operand in Hrun. cbn in Hrun.
      unfold mbind at 1. rewrite Hrun. run_heap. eauto.
    + (* SUBTRACT *)
      safe_field Hsafe a "subtract" field Hf.
      apply andb_true_iff in Hsafe as [Hin Hby].
      cbn [lift mbind].
      destruct (@safe_arith_runs float_sub h items field _ Hget Hnum Hin Hby)
        as (h' & r & Hrun & Hinv').
      unfold operand, default_operand in Hrun. cbn in Hrun.
      unfold mbind at 1. rewrite Hrun. run_heap. eauto.
    + (* DIVIDE *)
      safe_field Hsafe a "divide" field Hf.
      apply andb_true_iff in Hsafe as [Hin Hby].
      destruct (@numeric_ok _ Hby) as (d & Hd).
      unfold operand, default_operand in Hd. cbn in Hd.
      cbn [lift mbind]. rewrite Hd.
      destruct (float_is_zero d); cbn [negb].
      * run_heap. rewrite Hget. run_heap. eauto.
      * destruct (@field_converts h items field Hnum Hin) as (x & Hx).
        unfold field_or in Hx.
        run_heap. rewrite Hget. run_heap. rewrite Hx. run_heap.
        rewrite Hget. run_heap.
        rewrite heap_get_set_eq by (eapply heap_get_lt; eauto). run_heap.
        eexists _, _. split; [reflexivity |].
        apply ctx_numeric_set; auto.
    + (* APPEND *)
      safe_field Hsafe a "append" field Hf.
      apply negb_true_iff in Hsafe.
      cbn [lift mbind].
      destruct (@safe_append_runs h items field
                  (match dict_get "value" a with
                   | Some v => v
                   | None => TNone
                   end) Hget Hnum Hsafe)
        as (h' & Hrun & Hinv').
      unfold mbind at 1. rewrite Hrun. run_heap. eauto.
    + (* LOG *)
      destruct (dict_get "log" a) as [message|] eqn:Hf.
      * run_heap. rewrite Hget. run_heap. eauto.
      * unfold dict_mem in E5. rewrite Hf in E5. discriminate E5.
  - kind_cases Hkind. rewrite ?E, ?E0, ?E1, ?E2, ?E3, ?E4, ?E5. run_heap. eauto.
Qed.

Lemma safe_loop_runs (actions : list tree) :
  forall h logs,
  ctx_numeric fields h ctx ->
  forallb (action_safe fields) actions = true ->
  exists h' logs',
    RuleExecutor.execute_loop actions ctx rule_id logs h = (h', Ok logs')
    /\ ctx_numeric fields h' ctx.
Proof.
  induction actions as [|action actions IH]; intros h logs Hinv Hsafe.
  - exists h, logs. split; [reflexivity | exact Hinv].
  - cbn [forallb] in Hsafe. apply andb_true_iff in Hsafe as [Ha Hrest].
    destruct (@safe_action_runs action h Hinv Ha) as (h1 & r & Hrun & Hinv1).
    cbn [RuleExecutor.execute_loop].
    rewrite (@mbind_ok _ _ _ _ _ _ _ Hrun).
    apply IH; assumption.
Qed.

(** An arithmetic action on an absent field works on 0. *)
Lemma arith_on_absent_field (op : pyfloat -> pyfloat -> pyfloat) (h : heap)
  (items : dict value) (field : string) (by_ : tree) (z y : pyfloat) :
  heap_get h ctx = Some (ODict items) ->
  dict_get field items = None ->
  as_float (TInt 0) = Ok z ->
  as_float by_ = Ok y ->
  RuleExecutor.arith op ctx (TStr field) by_ h
  = (heap_set h ctx
       (ODict (dict_set field (VFloat (float_round4 (op z y))) items)),
     Ok (float_round4 (op z y))).
Proof.
  intros Hget Habsent Hz Hy.
  run_heap. rewrite Hget. run_heap. rewrite Habsent.
  unfold snapshot. destruct (List.length h); cbn [reify];
    rewrite Hz, Hy; run_heap; rewrite Hget; reflexivity.
Qed.

(** APPEND to an absent field makes a new list, binds the field to it,
    and puts the value in it. *)
Lemma append_to_absent_field (h : heap) (items : dict value) (field : string)
  (val : tree) :
  heap_get h ctx = Some (ODict items) ->
  dict_get field items = None ->
  let l := List.length h in
  let h1 := heap_set (h ++ [OList []]) ctx
              (ODict (dict_set field (VRef l) items)) in
  RuleExecutor.append_value ctx (TStr field) val h
  = (heap_set (fst (store_tree val h1)) l
       (OList [snd (store_tree val h1)]), Ok tt).
Proof.
  intros Hget Habsent l h1.
  assert (Hctx : ctx < List.length h) by (eapply heap_get_lt; eauto).
  unfold RuleExecutor.append_value.
  rewrite (@mbind_ok _ _ _ _ _ _ _ (@ctx_get_run h items field VNone Hget)).
  unfold field_or. rewrite Habsent.
  unfold isinstance_list at 1. unfold mbind at 1. cbn [negb].
  unfold alloc at 1. unfold mbind at 1 2.
  assert (Hget1 : heap_get (h ++ [OList []]) ctx = Some (ODict items))
    by (rewrite heap_get_app_l by exact Hctx; exact Hget).
  rewrite (@ctx_set_run _ items field (VRef (List.length h)) Hget1).
  fold l. fold h1.
  assert (Hget2 : heap_get h1 ctx
                  = Some (ODict (dict_set field (VRef l) items)))
    by (unfold h1; apply heap_get_set_eq; rewrite length_app; lia).
  assert (Hnew : heap_get h1 l = Some (OList [])).
  { unfold h1, l. rewrite heap_get_set_neq by lia.
    rewrite heap_get_app, Nat.ltb_irrefl, Nat.eqb_refl. reflexivity. }
  rewrite (@mbind_ok _ _ _ _ _ _ _
             (@ctx_get_run h1 _ field VNone Hget2)).
  unfold field_or. rewrite dict_get_set, String.eqb_refl.
  destruct (store_tree val h1) as [h3 v] eqn:Hstore.
  destruct (store_tree_extends _ _ Hstore) as (ext & -> & _ & _).
  unfold store at 1. unfold mbind at 1. rewrite Hstore.
  unfold list_append. cbn [fst snd].
  rewrite heap_get_app_l, Hnew; [reflexivity |].
  unfold h1, l. rewrite length_heap_set, length_app. cbn. lia.
Qed.


End SafetyFacts.

(** ** The engine *)
Section EngineFacts.
Context {F : PyFloat}.
Variable yaml_safe_load : string -> result tree.
Variable utcnow_isoformat : string.
Import RulesEngine.

Lemma length_filter_split (A : Type) (p : A -> bool) (l : list A) :
  List.length (filter p l) + List.length (filter (fun x => negb (p x)) l)
  = List.length l.
Proof.
  induction l as [|x l IH]; cbn; [reflexivity |].
  destruct (p x); cbn; lia.
Qed.

Lemma evaluate_loads (fs : filesystem) (self self' : engine) (name : string)
  (input : value) (force : bool) (h h' : heap) (r : result evaluation) :
  evaluate yaml_safe_load utcnow_isoformat fs self name input force h
  = (self', h', r) ->
  (exists e, load_ruleset yaml_safe_load utcnow_isoformat fs self name force
             = (self', Raise e) /\ h' = h /\ r = Raise e)
  \/ (exists data,
        load_ruleset yaml_safe_load utcnow_isoformat fs self name force
        = (self', Ok data)
        /\ evaluate_loaded name data input h = (h', r)).
Proof.
  unfold evaluate.
  destruct (load_ruleset _ _ fs self name force) as [s [data|e]].
  - destruct (evaluate_loaded name data input h) as [h1 r1] eqn:Hrun.
    intros H. inversion H; subst. right. eauto.
  - intros H. inversion H; subst. left. eauto.
Qed.

(** C10: in the result of a run that completes, the count of fired rules is
    the length of their list; the execution log has one entry per rule
    visited, the visited rules being a prefix of the rules of the document
    in their order; the rules fired are those of the matched entries and
    the rules skipped those of the others, so that the two lists together
    are as long as the log and no longer than the rules; and in the
    first_match mode no entry follows a matched one. *)
Theorem completed_run_accounts_for_visited_rules (fs : filesystem)
  (self self' : engine) (name : string) (input : value) (force : bool)
  (h h' : heap) (res : evaluation) :
  evaluate yaml_safe_load utcnow_isoformat fs self name input force h
  = (self', h', Ok res) ->
  exists data rule_list,
    load_ruleset yaml_safe_load utcnow_isoformat fs self name force
    = (self', Ok data)
    /\ rules_of data = Ok rule_list
    /\ res.(rules_total) = List.length rule_list
    /\ res.(rules_fired_count) = List.length res.(rules_fired)
    /\ List.length res.(execution_log)
       = List.length res.(rules_fired) + List.length res.(rules_skipped)
    /\ map le_rule_id res.(execution_log)
       = map rule_id_of (firstn (List.length res.(execution_log)) rule_list)
    /\ res.(rules_fired)
       = map le_rule_id (filter le_matched res.(execution_log))
    /\ res.(rules_skipped)
       = map le_rule_id (filter unmatched res.(execution_log))
    /\ List.length res.(rules_fired) + List.length res.(rules_skipped)
       <= res.(rules_total)
    /\ (is_first_match res.(metadata).(md_priority_mode) = true ->
        forall pre e post,
          res.(execution_log) = pre ++ e :: post ->
          e.(le_matched) = true -> post = []).
Proof.
  intros H.
  destruct (evaluate_loads _ _ _ _ _ _ H)
    as [(e & _ & _ & He) | (data & Hload & Hrun)]; [discriminate He |].
  destruct (evaluate_loaded_pass _ _ _ _ Hrun)
    as (rule_list & ctx & h0 & t & Hrules & Htotal & Hpass & Hf & Hs & Hl & Hc).
  destruct (run_rules_shape _ _ _ _ _ Hpass)
    as (new & Hlog & Hids & Hlen & Hfired & Hskipped & _ & Hlast).
  cbn [log fired skipped app] in Hlog, Hfired, Hskipped.
  exists data, rule_list.
  rewrite Hf, Hs, Hl, Hc, Htotal, Hlog, Hfired, Hskipped, !length_map.
  pose proof (length_filter_split le_matched new) as Hsplit.
  unfold unmatched.
  repeat split; auto; lia.
Qed.

(** A document read from its file (the reload is forced, or the cache has
    no entry of that name), with integer priorities: what [load_ruleset]
    returns holds the rules sorted by insertion. *)
Lemma load_ruleset_fresh (fs : filesystem) (self : engine) (name : string)
  (force : bool) (f : file) (d : dict tree) (rs : list tree) :
  dict_get (path_of self name) fs = Some f ->
  force || negb (dict_mem name self.(_cache)) = true ->
  yaml_safe_load f.(content) = Ok (TDict d) ->
  dict_get "rules" d = Some (TList rs) ->
  forallb int_priority rs = true ->
  forall self' data,
  load_ruleset yaml_safe_load utcnow_isoformat fs self name force
  = (self', Ok data) ->
  rules_of data = Ok (insertion_sort rs).
Proof.
  intros Hfile Hmiss Hyaml Hrules Hint self' data.
  unfold load_ruleset. rewrite Hfile.
  assert (Hhit : (if force then Ok None
                  else match dict_get name self.(_cache) with
                       | None => Ok None
                       | Some c =>
                           if truthy c then
                             m <- py_get c "_mtime" TNone ;;
                             same <- py_eq m (TInt f.(mtime)) ;;
                             Ok (if same then Some c else None)
                           else Ok None
                       end) = Ok (@None tree)).
  { destruct force; [reflexivity |]. unfold dict_mem in Hmiss.
    destruct (dict_get name self.(_cache)); [discriminate | reflexivity]. }
  rewrite Hhit, Hyaml. cbn [bind py_in negb].
  destruct (dict_mem "ruleset" d); cbn [negb]; [| discriminate].
  unfold dict_mem. rewrite Hrules. cbn [negb py_getitem].
  rewrite Hrules. cbn [bind]. rewrite (sort_rules_int _ Hint). cbn [bind].
  intros H. inversion H; subst.
  unfold rules_of. cbn [py_get bind].
  rewrite !dict_get_set. reflexivity.
Qed.

(** C6: a document is sorted when it is loaded, and the loop visits its
    rules in the order of the sorted list. For a document read from its
    file whose rules have integer priorities (50 for a rule without one),
    the rules visited are a prefix of (in the mode all: exactly) a list
    that is a rearrangement of the rules of the document, ascending in
    priority, in which the rules of one priority keep the order they have
    in the document. *)
Theorem rules_run_in_stable_priority_order (fs : filesystem)
  (self self' : engine) (name : string) (input : value) (force : bool)
  (h h' : heap) (res : evaluation) (f : file) (d : dict tree)
  (rs : list tree) :
  dict_get (path_of self name) fs = Some f ->
  force || negb (dict_mem name self.(_cache)) = true ->
  yaml_safe_load f.(content) = Ok (TDict d) ->
  dict_get "rules" d = Some (TList rs) ->
  forallb int_priority rs = true ->
  evaluate yaml_safe_load utcnow_isoformat fs self name input force h
  = (self', h', Ok res) ->
  exists sorted,
    Permutation rs sorted
    /\ StronglySorted (fun a b => (prio a <= prio b)%Z) sorted
    /\ (forall p, with_priority p sorted = with_priority p rs)
    /\ map le_rule_id res.(execution_log)
       = map rule_id_of (firstn (List.length res.(execution_log)) sorted)
    /\ (is_first_match res.(metadata).(md_priority_mode) = false ->
        map le_rule_id res.(execution_log) = map rule_id_of sorted).
Proof.
  intros Hfile Hmiss Hyaml Hrules Hint H.
  destruct (evaluate_loads _ _ _ _ _ _ H)
    as [(e & _ & _ & He) | (data & Hload & Hrun)]; [discriminate He |].
  pose proof (load_ruleset_fresh _ _ _ _ Hfile Hmiss Hyaml Hrules Hint Hload)
    as Hsorted.
  destruct (evaluate_loaded_pass _ _ _ _ Hrun)
    as (rule_list & ctx & h0 & t & Hrl & _ & Hpass & _ & _ & Hl & _).
  rewrite Hsorted in Hrl. inversion Hrl; subst rule_list. clear Hrl.
  destruct (run_rules_shape _ _ _ _ _ Hpass)
    as (new & Hlog & Hids & Hlen & _ & _ & Hall & _).
  cbn [log app] in Hlog. rewrite Hl, Hlog.
  exists (insertion_sort rs).
  split; [apply insertion_sort_perm |].
  split; [apply insertion_sort_sorted |].
  split; [intros p; apply insertion_sort_stable |].
  split; [exact Hids |].
  intros Hmode. rewrite Hids, (Hall Hmode), firstn_all. reflexivity.
Qed.

(** A text that parses to a mapping without one of the two keys is
    refused with ValueError: nothing is written, and the cache is as it
    was. *)
Lemma save_refuses_mapping_without_key (written_at : Z) (fs : filesystem)
  (self : engine) (name content : string) (d : dict tree) :
  yaml_safe_load content = Ok (TDict d) ->
  dict_mem "ruleset" d && dict_mem "rules" d = false ->
  save_ruleset_yaml yaml_safe_load written_at fs self name content
  = (fs, self, Raise ValueError).
Proof.
  intros Hyaml Hkeys. unfold save_ruleset_yaml.
  rewrite Hyaml. cbn [bind py_in].
  destruct (dict_mem "ruleset" d); [| reflexivity].
  cbn [andb] in Hkeys. rewrite Hkeys. reflexivity.
Qed.

(** C9, where the code departs from it: the two checks of
    [save_ruleset_yaml] are membership tests, which a list that holds the
    two words passes as well as a mapping with the two keys. A text that
    parses to such a list has no top-level key at all; it is written over
    the file, the cache entry is dropped, and only then does the call fail,
    with TypeError. *)
Theorem save_writes_a_list_of_the_two_words (written_at : Z)
  (fs : filesystem) (self : engine) (name content : string)
  (items : list tree) :
  yaml_safe_load content = Ok (TList items) ->
  py_in "ruleset" (TList items) = Ok true ->
  py_in "rules" (TList items) = Ok true ->
  save_ruleset_yaml yaml_safe_load written_at fs self name content
  = (dict_set (path_of self name)
       {| content := content; mtime := written_at |} fs,
     if dict_mem name self.(_cache)
     then {| rules_dir := self.(rules_dir);
             _cache := dict_del name self.(_cache) |}
     else self,
     Raise TypeError).
Proof.
  intros Hyaml Hruleset Hrules. unfold save_ruleset_yaml.
  rewrite Hyaml. cbn [bind]. rewrite Hruleset. cbn [bind negb].
  rewrite Hrules. reflexivity.
Qed.


End EngineFacts.

(** ** Strings *)
Section StringFacts.

Lemma append_cons (c : ascii) (a b : string) :
  String c a +:+ b = String c (a +:+ b).
Proof. reflexivity. Qed.

Lemma append_nil_r (s : string) : s +:+ "" = s.
Proof.
  induction s as [| c s IH]; [reflexivity |]. now rewrite append_cons, IH.
Qed.

Lemma append_assoc (a b c : string) : (a +:+ b) +:+ c = a +:+ (b +:+ c).
Proof.
  induction a as [| x a IH]; [reflexivity |]. now rewrite !append_cons, IH.
Qed.

Lemma length_append (a b : string) :
  String.length (a +:+ b) = String.length a + String.length b.
Proof.
  induction a as [| x a IH]; [reflexivity |].
  rewrite append_cons. cbn. now rewrite IH.
Qed.

Lemma drop_0 (s : string) : PyStr.drop 0 s = s.
Proof.
  unfold PyStr.drop. rewrite Nat.sub_0_r.
  induction s as [| c s IH]; cbn; [reflexivity | now rewrite IH].
Qed.

Lemma drop_S (n : nat) (c : ascii) (s : string) :
  PyStr.drop (S n) (String c s) = PyStr.drop n s.
Proof. reflexivity. Qed.

Lemma take_0 (s : string) : PyStr.take 0 s = "".
Proof. destruct s; reflexivity. Qed.

Lemma take_S (n : nat) (c : ascii) (s : string) :
  PyStr.take (S n) (String c s) = String c (PyStr.take n s).
Proof. reflexivity. Qed.

Lemma take_drop (n : nat) : forall s, PyStr.take n s +:+ PyStr.drop n s = s.
Proof.
  induction n as [| n IH]; intros s.
  - now rewrite take_0, drop_0.
  - destruct s as [| c s]; [reflexivity |].
    rewrite take_S, drop_S, append_cons, IH. reflexivity.
Qed.

Lemma length_take (n : nat) :
  forall s, String.length (PyStr.take n s) = Nat.min n (String.length s).
Proof.
  induction n as [| n IH]; intros s.
  - now rewrite take_0.
  - destruct s as [| c s]; [reflexivity |].
    rewrite take_S. cbn. now rewrite IH.
Qed.

Lemma take_append_le (n : nat) :
  forall a b, n <= String.length a -> PyStr.take n (a +:+ b) = PyStr.take n a.
Proof.
  induction n as [| n IH]; intros a b Hn.
  - now rewrite !take_0.
  - destruct a as [| c a]; cbn in Hn; [lia |].
    rewrite append_cons, !take_S, IH by lia. reflexivity.
Qed.

Lemma take_append_length (a b : string) :
  PyStr.take (String.length a) (a +:+ b) = a.
Proof.
  induction a as [| c a IH]; [apply take_0 |].
  cbn [String.length]. rewrite append_cons, take_S, IH. reflexivity.
Qed.

Lemma drop_append_length (a b : string) :
  PyStr.drop (String.length a) (a +:+ b) = b.
Proof.
  induction a as [| c a IH]; [apply drop_0 |].
  cbn [String.length]. rewrite append_cons, drop_S. exact IH.
Qed.

Lemma length_lower (s : string) :
  String.length (PyStr.lower s) = String.length s.
Proof. induction s as [| c s IH]; cbn; [reflexivity | now rewrite IH]. Qed.

Lemma lower_append (a b : string) :
  PyStr.lower (a +:+ b) = PyStr.lower a +:+ PyStr.lower b.
Proof.
  induction a as [| c a IH]; [reflexivity |].
  rewrite append_cons. cbn [PyStr.lower]. now rewrite append_cons, IH.
Qed.

Lemma lower_char_idem (c : ascii) :
  PyStr.lower_char (PyStr.lower_char c) = PyStr.lower_char c.
Proof.
  unfold PyStr.lower_char, PyStr.code.
  destruct ((65 <=? nat_of_ascii c) && (nat_of_ascii c <=? 90)) eqn:E.
  - apply andb_prop in E. destruct E as [E1 E2].
    apply Nat.leb_le in E1. apply Nat.leb_le in E2.
    rewrite nat_ascii_embedding by lia.
    replace (nat_of_ascii c + 32 <=? 90) with false
      by (symmetry; apply Nat.leb_gt; lia).
    now rewrite andb_false_r.
  - now rewrite E.
Qed.

Lemma lower_idem (s : string) : PyStr.lower (PyStr.lower s) = PyStr.lower s.
Proof.
  induction s as [| c s IH]; cbn; [reflexivity |].
  now rewrite lower_char_idem, IH.
Qed.

End StringFacts.

(** ** Splitting a condition on a keyword *)
Section SplitFacts.
Import SafeEvaluator.

Lemma split_from_not_nil (kw : string) (s : string) :
  forall skip depth, split_from kw skip depth s <> [].
Proof.
  induction s as [| c s IH]; intros skip depth; cbn; [discriminate |].
  destruct skip; [| apply IH].
  repeat match goal with
         | |- (if ?b then _ else _) <> _ => destruct b
         end;
    try discriminate;
    unfold push;
    match goal with
    | |- match ?l with _ => _ end <> _ => destruct l; discriminate
    end.
Qed.

Lemma join_push (kw : string) (c : ascii) (l : list string) :
  l <> [] -> PyStr.join kw (push c l) = String c (PyStr.join kw l).
Proof.
  destruct l as [| p [| q l]]; intros H; [congruence | reflexivity |].
  reflexivity.
Qed.

Lemma join_cons (kw p : string) (l : list string) :
  l <> [] -> PyStr.join kw (p :: l) = p +:+ kw +:+ PyStr.join kw l.
Proof. destruct l; [congruence | reflexivity]. Qed.

Lemma split_join_lower (kw : string) :
  kw <> "" ->
  forall s skip depth,
  skip <= String.length s ->
  PyStr.lower (PyStr.join kw (split_from kw skip depth s))
  = PyStr.lower (PyStr.drop skip s).
Proof.
  intros Hkw. induction s as [| c s IH]; intros skip depth Hskip.
  - cbn in Hskip. replace skip with 0 by lia. reflexivity.
  - cbn [split_from]. destruct skip as [| k].
    + rewrite drop_0.
      destruct (is_opener c).
      { rewrite join_push by apply split_from_not_nil.
        cbn [PyStr.lower]. rewrite IH, drop_0 by lia. reflexivity. }
      destruct (is_closer c && (0 <? depth)).
      { rewrite join_push by apply split_from_not_nil.
        cbn [PyStr.lower]. rewrite IH, drop_0 by lia. reflexivity. }
      destruct ((depth =? 0)
                && String.eqb
                     (PyStr.lower (PyStr.take (String.length kw) (String c s)))
                     kw) eqn:E.
      * apply andb_prop in E. destruct E as [_ E]. apply String.eqb_eq in E.
        assert (Hlen : String.length kw <= String.length (String c s)).
        { rewrite <- E at 1. rewrite length_lower, length_take. lia. }
        destruct (String.length kw) as [| n] eqn:En.
        { destruct kw; [congruence | discriminate En]. }
        cbn in Hlen.
        rewrite join_cons by apply split_from_not_nil.
        rewrite !lower_append. cbn [Nat.sub]. rewrite Nat.sub_0_r.
        rewrite IH by lia.
        rewrite <- (take_drop (S n) (String c s)) at 1.
        rewrite lower_append, E, drop_S.
        rewrite <- E at 1. rewrite lower_idem, E. reflexivity.
      * rewrite join_push by apply split_from_not_nil.
        cbn [PyStr.lower]. rewrite IH, drop_0 by lia. reflexivity.
    + rewrite drop_S. apply IH. cbn in Hskip. lia.
Qed.

(** X1: however an expression is split on a keyword, putting the keyword
    back between the parts gives the expression again, up to the case of
    the letters (the keyword is found whatever its case): nothing of the
    expression is lost or added. The keyword is not empty; the loop of the
    source does not end on an empty one. *)
Theorem split_parts_rejoin (expr kw : string) :
  kw <> "" ->
  PyStr.lower (PyStr.join kw (_split_on_keyword expr kw)) = PyStr.lower expr.
Proof.
  intros Hkw. unfold _split_on_keyword.
  rewrite split_join_lower by (trivial; lia). now rewrite drop_0.
Qed.

Lemma closer_not_opener (c : ascii) :
  is_opener c = false -> is_closer c = true -> c = ")"%char.
Proof.
  unfold is_opener, is_closer. intros Ho Hc.
  apply orb_false_elim in Ho. destruct Ho as [Ho Hd].
  apply orb_false_elim in Ho. destruct Ho as [_ Hq].
  rewrite Hq, Hd, !orb_false_r in Hc. now apply Ascii.eqb_eq.
Qed.

(** Inside a quote or a parenthesis nothing is split, and only a closing
    parenthesis leads out. *)
Lemma split_from_deep (kw : string) (s : string) :
  forall depth, has_char ")" s = false ->
  split_from kw 0 (S depth) s = [s].
Proof.
  induction s as [| c s IH]; intros depth Hs; [reflexivity |].
  cbn [has_char] in Hs. apply orb_false_elim in Hs. destruct Hs as [Hc Hs].
  cbn [split_from]. destruct (is_opener c) eqn:Ho.
  { now rewrite IH. }
  destruct (is_closer c) eqn:Hcl.
  { apply closer_not_opener in Hcl; trivial. subst c. discriminate Hc. }
  cbn. now rewrite IH.
Qed.

Lemma app_last_push (c : ascii) (l : list string) (x : string) :
  l <> [] -> app_last (push c l) x = push c (app_last l x).
Proof. destruct l as [| p [| p' l]]; [congruence | reflexivity ..]. Qed.

Lemma app_last_cons (p : string) (l : list string) (x : string) :
  l <> [] -> app_last (p :: l) x = p :: app_last l x.
Proof. destruct l; [congruence | reflexivity]. Qed.

Lemma lower_quote (q : ascii) : is_quote q = true -> PyStr.lower_char q = q.
Proof.
  unfold is_quote. intros H. apply orb_prop in H.
  destruct H as [H | H]; apply Ascii.eqb_eq in H; subst q; reflexivity.
Qed.

Lemma quote_is_opener (q : ascii) : is_quote q = true -> is_opener q = true.
Proof.
  unfold is_quote, is_opener. intros H. apply orb_prop in H.
  destruct H as [H | H]; rewrite H; [now rewrite orb_true_r | apply orb_true_r].
Qed.

Lemma has_char_lower_take (q : ascii) (rest : string) :
  PyStr.lower_char q = q ->
  forall n a, String.length a < n ->
  has_char q (PyStr.lower (PyStr.take n (a +:+ String q rest))) = true.
Proof.
  intros Hq. induction n as [| n IH]; intros a Ha; [lia |].
  destruct a as [| x a].
  - change ("" +:+ String q rest) with (String q rest).
    rewrite take_S. cbn. now rewrite Hq, Ascii.eqb_refl.
  - rewrite append_cons, take_S. cbn [PyStr.lower has_char].
    rewrite IH by (cbn in Ha; lia). apply orb_true_r.
Qed.

(** The keyword is found at the same places of [pre] whatever follows a
    quote put after it. *)
Lemma keyword_before_quote (kw : string) (q : ascii) (a rest : string) :
  PyStr.lower_char q = q ->
  has_char q kw = false ->
  String.eqb (PyStr.lower (PyStr.take (String.length kw)
                                      (a +:+ String q rest))) kw
  = String.eqb (PyStr.lower (PyStr.take (String.length kw) a)) kw.
Proof.
  intros Hq Hkw.
  destruct (Nat.le_gt_cases (String.length kw) (String.length a)) as [Hle | Hgt].
  - now rewrite take_append_le.
  - transitivity false; [| symmetry]; apply String.eqb_neq; intros E.
    + pose proof (has_char_lower_take rest Hq a Hgt) as H.
      rewrite E in H. congruence.
    + apply (f_equal String.length) in E.
      rewrite length_lower, length_take in E. lia.
Qed.

Lemma split_from_before_quote (kw : string) (q : ascii) (rest : string) :
  is_quote q = true ->
  has_char ")" rest = false ->
  has_char q kw = false ->
  forall pre skip depth,
  skip <= String.length pre ->
  split_from kw skip depth (pre +:+ String q rest)
  = app_last (split_from kw skip depth pre) (String q rest).
Proof.
  intros Hq Hrest Hkw.
  induction pre as [| c p IH]; intros skip depth Hskip.
  - cbn in Hskip. replace skip with 0 by lia.
    change ("" +:+ String q rest) with (String q rest).
    cbn [split_from]. rewrite (quote_is_opener _ Hq).
    now rewrite split_from_deep.
  - rewrite append_cons. cbn [split_from]. destruct skip as [| k].
    + destruct (is_opener c).
      { rewrite IH by lia.
        now rewrite app_last_push by apply split_from_not_nil. }
      destruct (is_closer c && (0 <? depth)).
      { rewrite IH by lia.
        now rewrite app_last_push by apply split_from_not_nil. }
      rewrite <- append_cons.
      rewrite (keyword_before_quote _ _ _ (lower_quote _ Hq) Hkw).
      destruct ((depth =? 0)
                && String.eqb
                     (PyStr.lower (PyStr.take (String.length kw) (String c p)))
                     kw) eqn:E.
      * apply andb_prop in E. destruct E as [_ E]. apply String.eqb_eq in E.
        assert (Hlen : String.length kw <= String.length (String c p)).
        { rewrite <- E at 1. rewrite length_lower, length_take. lia. }
        cbn in Hlen.
        rewrite IH by lia.
        now rewrite app_last_cons by apply split_from_not_nil.
      * rewrite IH by lia.
        now rewrite app_last_push by apply split_from_not_nil.
    + apply IH. cbn in Hskip. lia.
Qed.

(** X2: once a quote character has been read, the rest of the expression
    is not split any more unless a closing parenthesis follows: the opening
    and the closing quote of a string are both counted as one level deeper.
    What comes from the first quote on stays with the part that was being
    read, keywords included. *)
Theorem quote_ends_splitting (pre rest kw : string) (q : ascii) :
  is_quote q = true ->
  has_char ")" rest = false ->
  has_char q kw = false ->
  _split_on_keyword (pre +:+ String q rest) kw
  = app_last (_split_on_keyword pre kw) (String q rest).
Proof.
  intros Hq Hrest Hkw. unfold _split_on_keyword.
  apply split_from_before_quote; trivial. lia.
Qed.

End SplitFacts.

(** ** Characters

    Facts about the 256 characters, each checked on every one of them. *)
Section CharFacts.

Ltac all_ascii c :=
  destruct c as [[] [] [] [] [] [] [] []]; vm_compute;
  intros; repeat split; solve [reflexivity | discriminate].

Lemma not_space_lower (c : ascii) :
  Ascii.eqb c " " = false -> Ascii.eqb (PyStr.lower_char c) " " = false.
Proof. all_ascii c. Qed.

(** Lowering the case turns neither white space nor an operator character
    into a letter. *)
Lemma not_letter (c : ascii) :
  PyStr.is_space c || op_char c = true ->
  Ascii.eqb (PyStr.lower_char c) "a" = false
  /\ Ascii.eqb (PyStr.lower_char c) "o" = false.
Proof. all_ascii c. Qed.

Lemma not_the_word_not (c : ascii) :
  PyStr.is_space c || op_char c = true ->
  Ascii.eqb "o" c = false /\ Ascii.eqb "t" c = false.
Proof. all_ascii c. Qed.

Lemma word_char_not_space (c : ascii) :
  word_char c = true -> Ascii.eqb c " " = false.
Proof. all_ascii c. Qed.

Lemma word_char_start (c : ascii) :
  word_char c = true -> Ascii.eqb " " c = false /\ Ascii.eqb "(" c = false.
Proof. all_ascii c. Qed.

Lemma word_char_not_blank (c : ascii) :
  word_char c = true -> PyStr.is_space c = false.
Proof. all_ascii c. Qed.

Lemma word_char_not_op (c : ascii) : word_char c = true -> op_char c = false.
Proof. all_ascii c. Qed.

Lemma space_not_op (c : ascii) : PyStr.is_space c = true -> op_char c = false.
Proof. all_ascii c. Qed.

Lemma op_char_not_space (c : ascii) :
  op_char c = true -> Ascii.eqb c " " = false.
Proof. all_ascii c. Qed.

End CharFacts.

(** ** Expressions without a keyword *)
Section NoKeyword.
Import SafeEvaluator.
Variable kw : string.
Hypothesis Hkw : kw = " and " \/ kw = " or ".

Ltac now_false :=
  repeat match goal with
         | |- (if ?b then _ else _) = false => destruct b
         end;
  reflexivity.

Lemma split_from_step (c : ascii) (s : string) :
  String.eqb (PyStr.lower (PyStr.take (String.length kw) (String c s))) kw
  = false ->
  (forall depth, split_from kw 0 depth s = [s]) ->
  forall depth, split_from kw 0 depth (String c s) = [String c s].
Proof.
  intros Htest Hs depth. cbn [split_from]. rewrite Htest, andb_false_r.
  rewrite !Hs. now destruct (is_opener c), (is_closer c && (0 <? depth)).
Qed.

Lemma keyword_head (c : ascii) (s : string) :
  Ascii.eqb (PyStr.lower_char c) " " = false ->
  String.eqb (PyStr.lower (PyStr.take (String.length kw) (String c s))) kw
  = false.
Proof.
  intros Hc.
  destruct Hkw as [-> | ->];
    cbn [String.length PyStr.take String.substring PyStr.lower String.eqb];
    now rewrite Hc.
Qed.

Lemma keyword_second (c c' : ascii) (s : string) :
  Ascii.eqb (PyStr.lower_char c') "a" = false ->
  Ascii.eqb (PyStr.lower_char c') "o" = false ->
  String.eqb
    (PyStr.lower (PyStr.take (String.length kw) (String c (String c' s)))) kw
  = false.
Proof.
  intros Ha Ho.
  destruct Hkw as [-> | ->];
    cbn [String.length PyStr.take String.substring PyStr.lower String.eqb];
    rewrite ?Ha, ?Ho; cbn [andb]; apply andb_false_r.
Qed.

Lemma keyword_short (c : ascii) :
  String.eqb (PyStr.lower (PyStr.take (String.length kw) (String c ""))) kw
  = false.
Proof.
  destruct Hkw as [-> | ->];
    cbn [String.length PyStr.take String.substring PyStr.lower String.eqb];
    apply andb_false_r.
Qed.

(** The keyword ends with a space: it is not read from a space that a word
    follows up to the end of the text. *)
Lemma keyword_before_word (r : string) :
  all_chars word_char r = true ->
  String.eqb (PyStr.lower (PyStr.take (String.length kw) (String " " r))) kw
  = false.
Proof.
  intros Hr.
  assert (Hsp : forall c, word_char c = true ->
                          Ascii.eqb (PyStr.lower_char c) " " = false)
    by (intros c Hc; apply not_space_lower, word_char_not_space, Hc).
  destruct Hkw as [-> | ->].
  - destruct r as [| c1 [| c2 [| c3 [| c4 r']]]];
      cbn [String.length PyStr.take String.substring PyStr.lower String.eqb];
      [now_false .. |].
    cbn [all_chars] in Hr.
    repeat (apply andb_prop in Hr; destruct Hr as [? Hr]).
    rewrite (Hsp c4) by assumption. now_false.
  - destruct r as [| c1 [| c2 [| c3 r']]];
      cbn [String.length PyStr.take String.substring PyStr.lower String.eqb];
      [now_false .. |].
    cbn [all_chars] in Hr.
    repeat (apply andb_prop in Hr; destruct Hr as [? Hr]).
    rewrite (Hsp c3) by assumption. now_false.
Qed.

Lemma no_keyword_nil : forall depth, split_from kw 0 depth "" = [""].
Proof. reflexivity. Qed.

Lemma no_keyword_word (l s : string) :
  all_chars word_char l = true ->
  (forall depth, split_from kw 0 depth s = [s]) ->
  forall depth, split_from kw 0 depth (l +:+ s) = [l +:+ s].
Proof.
  intros Hl Hs. induction l as [| c l IH]; [exact Hs |].
  cbn [all_chars] in Hl. apply andb_prop in Hl. destruct Hl as [Hc Hl].
  rewrite append_cons. apply split_from_step; [| now apply IH].
  apply keyword_head, not_space_lower, word_char_not_space, Hc.
Qed.

(** White space followed by an operator character. *)
Lemma no_keyword_blank_op (sp : string) (x : ascii) (s : string) :
  blank sp = true -> op_char x = true ->
  (forall depth, split_from kw 0 depth (String x s) = [String x s]) ->
  forall depth, split_from kw 0 depth (sp +:+ String x s) = [sp +:+ String x s].
Proof.
  intros Hsp Hx Hs. induction sp as [| c sp IH]; [exact Hs |].
  cbn [blank all_chars] in Hsp. apply andb_prop in Hsp.
  destruct Hsp as [Hc Hsp].
  rewrite append_cons. apply split_from_step; [| now apply IH].
  destruct sp as [| c' sp].
  - change ("" +:+ String x s) with (String x s).
    apply keyword_second; apply not_letter; rewrite Hx; apply orb_true_r.
  - rewrite append_cons.
    cbn [all_chars] in Hsp. apply andb_prop in Hsp. destruct Hsp as [Hc' _].
    apply keyword_second; apply not_letter; now rewrite Hc'.
Qed.

(** White space followed by a word that ends the text. *)
Lemma no_keyword_blank_word (sp r : string) :
  blank sp = true -> all_chars word_char r = true ->
  forall depth, split_from kw 0 depth (sp +:+ r) = [sp +:+ r].
Proof.
  intros Hsp Hr.
  assert (Hword : forall depth, split_from kw 0 depth r = [r]).
  { rewrite <- (append_nil_r r).
    apply no_keyword_word; [exact Hr | apply no_keyword_nil]. }
  induction sp as [| c sp IH]; [exact Hword |].
  cbn [blank all_chars] in Hsp. apply andb_prop in Hsp.
  destruct Hsp as [Hc Hsp].
  rewrite append_cons. apply split_from_step; [| now apply IH].
  destruct (Ascii.eqb c " ") eqn:Ec.
  - apply Ascii.eqb_eq in Ec. subst c. destruct sp as [| c' sp].
    + apply keyword_before_word, Hr.
    + rewrite append_cons.
      cbn [all_chars] in Hsp. apply andb_prop in Hsp. destruct Hsp as [Hc' _].
      apply keyword_second; apply not_letter; now rewrite Hc'.
  - apply keyword_head, not_space_lower, Ec.
Qed.

Lemma no_keyword_op (x : ascii) (s : string) :
  op_char x = true ->
  (forall depth, split_from kw 0 depth s = [s]) ->
  forall depth, split_from kw 0 depth (String x s) = [String x s].
Proof.
  intros Hx Hs. apply split_from_step; [| exact Hs].
  apply keyword_head, not_space_lower, op_char_not_space, Hx.
Qed.

End NoKeyword.

(** ** Stripping and searching *)
Section SearchFacts.

Lemma lstrip_word (c : ascii) (s : string) :
  PyStr.is_space c = false -> PyStr.lstrip (String c s) = String c s.
Proof. intros H. cbn. now rewrite H. Qed.

Lemma lstrip_blank (sp s : string) :
  blank sp = true -> PyStr.lstrip (sp +:+ s) = PyStr.lstrip s.
Proof.
  induction sp as [| c sp IH]; intros H; [reflexivity |].
  cbn [blank all_chars] in H. apply andb_prop in H. destruct H as [Hc H].
  rewrite append_cons. cbn [PyStr.lstrip]. rewrite Hc. now apply IH.
Qed.

Lemma rstrip_word (r : string) :
  all_chars word_char r = true -> PyStr.rstrip r = r.
Proof.
  induction r as [| c r IH]; intros H; [reflexivity |].
  cbn [all_chars] in H. apply andb_prop in H. destruct H as [Hc H].
  cbn [PyStr.rstrip]. rewrite IH by exact H.
  destruct r; [| reflexivity]. now rewrite (word_char_not_blank _ Hc).
Qed.

Lemma rstrip_app_word (a r : string) :
  is_word r = true -> PyStr.rstrip (a +:+ r) = a +:+ r.
Proof.
  unfold is_word. intros H. apply andb_prop in H. destruct H as [Hne Hr].
  induction a as [| c a IH]; [now apply rstrip_word |].
  rewrite append_cons. cbn [PyStr.rstrip]. rewrite IH.
  destruct (a +:+ r) eqn:E; [| reflexivity].
  destruct a; [| discriminate E].
  change ("" +:+ r) with r in E. subst r. discriminate Hne.
Qed.

Lemma rstrip_blank (sp : string) : blank sp = true -> PyStr.rstrip sp = "".
Proof.
  induction sp as [| c sp IH]; intros H; [reflexivity |].
  cbn [blank all_chars] in H. apply andb_prop in H. destruct H as [Hc H].
  cbn [PyStr.rstrip]. rewrite IH by exact H. now rewrite Hc.
Qed.

Lemma rstrip_app_blank (a sp : string) :
  blank sp = true -> PyStr.rstrip (a +:+ sp) = PyStr.rstrip a.
Proof.
  intros H. induction a as [| c a IH]; [now apply rstrip_blank |].
  rewrite append_cons. cbn [PyStr.rstrip]. now rewrite IH.
Qed.

Lemma is_word_cons (s : string) :
  is_word s = true ->
  exists c s', s = String c s' /\ word_char c = true
               /\ all_chars word_char s' = true.
Proof.
  unfold is_word. intros H. apply andb_prop in H. destruct H as [Hne H].
  destruct s as [| c s']; [discriminate Hne |].
  cbn [all_chars] in H. apply andb_prop in H. destruct H as [Hc H].
  now exists c, s'.
Qed.

Lemma is_word_chars (s : string) :
  is_word s = true -> all_chars word_char s = true.
Proof. unfold is_word. intros H. now apply andb_prop in H. Qed.

(** An operand with white space after it, or before it. *)
Lemma strip_word_blank (l sp : string) :
  is_word l = true -> blank sp = true -> PyStr.strip (l +:+ sp) = l.
Proof.
  intros Hl Hsp. unfold PyStr.strip.
  destruct (is_word_cons _ Hl) as (c & l' & -> & Hc & _).
  rewrite append_cons, lstrip_word by now apply word_char_not_blank.
  rewrite <- append_cons, rstrip_app_blank by exact Hsp.
  apply rstrip_word, is_word_chars, Hl.
Qed.

Lemma strip_blank_word (sp r : string) :
  blank sp = true -> is_word r = true -> PyStr.strip (sp +:+ r) = r.
Proof.
  intros Hsp Hr. unfold PyStr.strip. rewrite lstrip_blank by exact Hsp.
  destruct (is_word_cons _ Hr) as (c & r' & E & Hc & _).
  rewrite E at 1. rewrite lstrip_word by now apply word_char_not_blank.
  rewrite <- E. apply rstrip_word, is_word_chars, Hr.
Qed.

Lemma strip_word (s : string) : is_word s = true -> PyStr.strip s = s.
Proof.
  intros H. rewrite <- (append_nil_r s) at 1.
  now apply strip_word_blank.
Qed.

(** A text between two words. *)
Lemma strip_between_words (l mid r : string) :
  is_word l = true -> is_word r = true ->
  PyStr.strip (l +:+ mid +:+ r) = l +:+ mid +:+ r.
Proof.
  intros Hl Hr. unfold PyStr.strip.
  destruct (is_word_cons _ Hl) as (c & l' & -> & Hc & _).
  rewrite append_cons, lstrip_word by now apply word_char_not_blank.
  rewrite <- append_cons, <- append_assoc. now apply rstrip_app_word.
Qed.

Lemma prefix_cons (a b : ascii) (s1 s2 : string) :
  String.prefix (String a s1) (String b s2)
  = Ascii.eqb a b && String.prefix s1 s2.
Proof.
  cbn [String.prefix]. destruct (ascii_dec a b) as [-> | Hab].
  - now rewrite Ascii.eqb_refl.
  - apply Ascii.eqb_neq in Hab. now rewrite Hab.
Qed.

Lemma index_0_cons (sub : string) (b : ascii) (s : string) :
  String.index 0 sub (String b s)
  = if String.prefix sub (String b s) then Some 0
    else match String.index 0 sub s with
         | Some n => Some (S n)
         | None => None
         end.
Proof. reflexivity. Qed.

Lemma index_absent (x : ascii) (sub s : string) :
  has_char x s = false -> String.index 0 (String x sub) s = None.
Proof.
  induction s as [| c s IH]; intros H; [reflexivity |].
  cbn [has_char] in H. apply orb_false_elim in H. destruct H as [Hc H].
  rewrite index_0_cons, prefix_cons, Hc, IH by exact H. reflexivity.
Qed.

Lemma index_skip (x : ascii) (sub a b : string) :
  has_char x a = false ->
  String.index 0 (String x sub) (a +:+ b)
  = option_map (Nat.add (String.length a)) (String.index 0 (String x sub) b).
Proof.
  induction a as [| c a IH]; intros H.
  - change ("" +:+ b) with b. cbn [String.length].
    now destruct (String.index 0 (String x sub) b).
  - cbn [has_char] in H. apply orb_false_elim in H. destruct H as [Hc H].
    rewrite append_cons, index_0_cons, prefix_cons, Hc, IH by exact H.
    cbn [andb String.length].
    now destruct (String.index 0 (String x sub) b).
Qed.

Lemma no_op_char (x : ascii) (s : string) :
  op_char x = true ->
  all_chars (fun c => negb (op_char c)) s = true -> has_char x s = false.
Proof.
  intros Hx. induction s as [| c s IH]; intros H; [reflexivity |].
  cbn [all_chars] in H. apply andb_prop in H. destruct H as [Hc H].
  cbn [has_char]. rewrite IH by exact H.
  destruct (Ascii.eqb x c) eqn:E; [| reflexivity].
  apply Ascii.eqb_eq in E. subst c. now rewrite Hx in Hc.
Qed.

End SearchFacts.

(** ** One comparison *)
Section ComparisonFacts.
Context {F : PyFloat}.
Import SafeEvaluator.

Lemma op_char_facts (t : ascii) :
  op_char t = false ->
  Ascii.eqb "<" t = false /\ Ascii.eqb ">" t = false
  /\ Ascii.eqb "=" t = false /\ Ascii.eqb "!" t = false.
Proof.
  unfold op_char. cbn [has_char]. intros H.
  repeat (apply orb_false_elim in H; destruct H as [? H]).
  repeat split; rewrite Ascii.eqb_sym; assumption.
Qed.

(** Where an operator is found in a text that holds one operator between
    two texts without operator characters: inside the operator. *)
Lemma find_operator (a tail sub op_str : string) :
  all_chars (fun c => negb (op_char c)) a = true ->
  all_chars (fun c => negb (op_char c)) tail = true ->
  tail <> "" ->
  In sub op_strs -> In op_str op_strs ->
  PyStr.find sub (a +:+ op_str +:+ tail)
  = option_map (Nat.add (String.length a)) (PyStr.find sub op_str).
Proof.
  intros Ha Htail Hne Hsub Hop.
  destruct tail as [| t tail']; [congruence |].
  assert (Ht : op_char t = false).
  { cbn [all_chars] in Htail. apply andb_prop in Htail.
    destruct Htail as [Ht _]. now destruct (op_char t). }
  destruct (op_char_facts _ Ht) as (Hlt & Hgt & Heq & Hne').
  unfold op_strs in Hsub, Hop. cbn [In] in Hsub, Hop.
  repeat (destruct Hsub as [<- | Hsub]); try contradiction;
    repeat (destruct Hop as [<- | Hop]); try contradiction;
    unfold PyStr.find;
    (rewrite index_skip by (apply no_op_char; [reflexivity | exact Ha]));
    f_equal;
    match goal with
    | |- String.index 0 (String ?x ?sub') _ = _ =>
        assert (H0 : String.index 0 (String x sub') (String t tail') = None)
          by (apply index_absent, no_op_char; [reflexivity | exact Htail])
    end;
    rewrite ?append_cons;
    change ("" +:+ String t tail') with (String t tail');
    repeat first [rewrite H0 | rewrite index_0_cons];
    rewrite ?prefix_cons, ?Hlt, ?Hgt, ?Heq, ?Hne'; reflexivity.
Qed.

Lemma blank_not_op (sp : string) :
  blank sp = true -> all_chars (fun c => negb (op_char c)) sp = true.
Proof.
  induction sp as [| c sp IH]; intros H; [reflexivity |].
  cbn [blank all_chars] in H. apply andb_prop in H. destruct H as [Hc H].
  cbn [all_chars]. now rewrite IH, (space_not_op _ Hc).
Qed.

Lemma word_not_op (l : string) :
  all_chars word_char l = true ->
  all_chars (fun c => negb (op_char c)) l = true.
Proof.
  induction l as [| c l IH]; intros H; [reflexivity |].
  cbn [all_chars] in H. apply andb_prop in H. destruct H as [Hc H].
  cbn [all_chars]. now rewrite IH, (word_char_not_op _ Hc).
Qed.

Lemma all_chars_app (p : ascii -> bool) (a b : string) :
  all_chars p a = true -> all_chars p b = true ->
  all_chars p (a +:+ b) = true.
Proof.
  induction a as [| c a IH]; intros Ha Hb; [exact Hb |].
  cbn [all_chars] in Ha. apply andb_prop in Ha. destruct Ha as [Hc Ha].
  rewrite append_cons. cbn [all_chars]. now rewrite Hc, IH.
Qed.

Section Expression.
Variables l sp1 op_str sp2 r : string.
Hypothesis Hl : is_word l = true.
Hypothesis Hr : is_word r = true.
Hypothesis Hsp1 : blank sp1 = true.
Hypothesis Hsp2 : blank sp2 = true.
Hypothesis Hop : In op_str op_strs.

Lemma comparison_no_keyword (kw : string) :
  kw = " and " \/ kw = " or " ->
  forall depth,
  split_from kw 0 depth (l +:+ sp1 +:+ op_str +:+ sp2 +:+ r)
  = [l +:+ sp1 +:+ op_str +:+ sp2 +:+ r].
Proof.
  intros Hkw.
  pose proof (no_keyword_blank_word Hkw sp2 r Hsp2 (is_word_chars _ Hr))
    as Htail.
  apply no_keyword_word; [exact Hkw | now apply is_word_chars |].
  pose proof Hop as H. unfold op_strs in H. cbn [In] in H.
  repeat (destruct H as [<- | H]); try contradiction;
    rewrite ?append_cons;
    change ("" +:+ (sp2 +:+ r)) with (sp2 +:+ r);
    apply no_keyword_blank_op; trivial;
    repeat (apply no_keyword_op; trivial).
Qed.

(** The text after the left operand starts with white space or with the
    operator. *)
Lemma after_left_operand :
  exists x rest,
    sp1 +:+ op_str +:+ sp2 +:+ r = String x rest
    /\ PyStr.is_space x || op_char x = true.
Proof.
  destruct sp1 as [| c sp].
  - change ("" +:+ op_str +:+ sp2 +:+ r) with (op_str +:+ sp2 +:+ r).
    pose proof Hop as H. unfold op_strs in H. cbn [In] in H.
    repeat (destruct H as [<- | H]); try contradiction;
      rewrite append_cons; eexists _, _; (split; [reflexivity |]);
      reflexivity.
  - pose proof Hsp1 as H. cbn [blank all_chars] in H. apply andb_prop in H.
    destruct H as [Hc _].
    rewrite append_cons. eexists _, _. split; [reflexivity |].
    now rewrite Hc.
Qed.

Lemma comparison_not_negated :
  l <> "not" ->
  PyStr.startswith "not " (l +:+ sp1 +:+ op_str +:+ sp2 +:+ r) = false.
Proof.
  intros Hnot. unfold PyStr.startswith.
  destruct after_left_operand as (x & rest & -> & Hx).
  destruct (not_the_word_not _ Hx) as [Po Pt].
  pose proof (is_word_chars _ Hl) as Hc.
  assert (Hs : forall c, word_char c = true -> Ascii.eqb " " c = false)
    by (intros c Hw; apply word_char_start, Hw).
  destruct l as [| c1 [| c2 [| c3 [| c4 l']]]];
    rewrite ?append_cons;
    change ("" +:+ String x rest) with (String x rest);
    rewrite ?prefix_cons.
  - discriminate Hl.
  - rewrite Po. apply andb_false_r.
  - rewrite Pt. now rewrite !andb_false_r.
  - destruct (Ascii.eqb "n" c1) eqn:E1; [| reflexivity].
    destruct (Ascii.eqb "o" c2) eqn:E2; [| reflexivity].
    destruct (Ascii.eqb "t" c3) eqn:E3; [| reflexivity].
    apply Ascii.eqb_eq in E1, E2, E3. subst. congruence.
  - cbn [all_chars] in Hc.
    repeat (apply andb_prop in Hc; destruct Hc as [? Hc]).
    rewrite (Hs c4) by assumption. now rewrite !andb_false_r.
Qed.

Lemma comparison_not_in_parentheses :
  PyStr.startswith "(" (l +:+ sp1 +:+ op_str +:+ sp2 +:+ r) = false.
Proof.
  unfold PyStr.startswith.
  destruct (is_word_cons _ Hl) as (c & l' & -> & Hc & _).
  rewrite append_cons, prefix_cons.
  now rewrite (proj2 (word_char_start _ Hc)).
Qed.

End Expression.

Lemma OPS_In (op_str : string) (op : cmp_op) :
  dict_get op_str OPS = Some op -> In (op_str, op) OPS.
Proof.
  unfold OPS. cbn [dict_get]. intros H.
  repeat match type of H with
         | (if String.eqb ?a ?b then _ else _) = _ =>
             let E := fresh "E" in
             destruct (String.eqb a b) eqn:E;
             [ apply String.eqb_eq in E; subst; injection H as <-;
               cbn; tauto | ]
         end.
  discriminate H.
Qed.

(** X3: a condition that is one comparison, two operands of one word each
    and an operator between them, with or without white space around the
    operator, evaluates to the comparison of what the two operands resolve
    to. (A left operand [not] would make the condition a negation.) *)
Theorem comparison_compares_operands (ctx : tree)
  (l sp1 op_str sp2 r : string) (op : cmp_op) :
  is_word l = true -> is_word r = true ->
  blank sp1 = true -> blank sp2 = true ->
  l <> "not" ->
  dict_get op_str OPS = Some op ->
  evaluate ctx (l +:+ sp1 +:+ op_str +:+ sp2 +:+ r)
  = compare_values op (_resolve_value ctx l) (_resolve_value ctx r).
Proof.
  intros Hl Hr Hsp1 Hsp2 Hnot Hop.
  assert (Hin : In op_str op_strs).
  { apply OPS_In in Hop. apply (in_map fst) in Hop. exact Hop. }
  unfold evaluate. cbn [evaluate_depth].
  assert (Hstrip : PyStr.strip (l +:+ sp1 +:+ op_str +:+ sp2 +:+ r)
                   = l +:+ sp1 +:+ op_str +:+ sp2 +:+ r).
  { rewrite <- (append_assoc op_str), <- (append_assoc sp1).
    now apply strip_between_words. }
  rewrite Hstrip.
  unfold _parse_or, _parse_and, _split_on_keyword.
  rewrite !comparison_no_keyword by auto.
  cbn [List.length Nat.ltb Nat.leb].
  unfold _parse_not. rewrite comparison_not_negated by assumption.
  unfold _parse_comparison.
  rewrite comparison_not_in_parentheses by assumption. cbn [andb].
  assert (Ha : all_chars (fun c => negb (op_char c)) (l +:+ sp1) = true)
    by (apply all_chars_app; [apply word_not_op, is_word_chars, Hl
                             | apply blank_not_op, Hsp1]).
  assert (Htail : all_chars (fun c => negb (op_char c)) (sp2 +:+ r) = true)
    by (apply all_chars_app; [apply blank_not_op, Hsp2
                             | apply word_not_op, is_word_chars, Hr]).
  assert (Hne : sp2 +:+ r <> "").
  { intros E. apply (f_equal String.length) in E.
    rewrite length_append in E.
    destruct (is_word_cons _ Hr) as (c & r' & -> & _). cbn in E. lia. }
  rewrite <- (append_assoc l sp1).
  pose proof (fun sub Hsub =>
                @find_operator _ _ sub _ Ha Htail Hne Hsub Hin) as Hfind.
  set (a := l +:+ sp1) in *. set (tail := sp2 +:+ r) in *.
  assert (Hleft : forall n, n = String.length a ->
            _resolve_value ctx
              (PyStr.strip (PyStr.take n (a +:+ op_str +:+ tail)))
            = _resolve_value ctx l).
  { intros n ->. rewrite take_append_length. subst a.
    now rewrite strip_word_blank. }
  assert (Hright : forall n, n = String.length a + String.length op_str ->
            _resolve_value ctx
              (PyStr.strip (PyStr.drop n (a +:+ op_str +:+ tail)))
            = _resolve_value ctx r).
  { intros n ->. rewrite <- length_append, <- append_assoc.
    rewrite drop_append_length. subst tail.
    now rewrite strip_blank_word. }
  apply OPS_In in Hop. unfold OPS in Hop. cbn [In] in Hop.
  repeat (destruct Hop as [Hop | Hop]); try contradiction;
    injection Hop as <- <-;
    unfold op_strs;
    repeat (rewrite Hfind by (cbn; tauto));
    repeat match goal with
           | |- context [PyStr.find ?x ?y] =>
               let v := eval vm_compute in (PyStr.find x y) in
               change (PyStr.find x y) with v
           end;
    cbn [option_map];
    rewrite Hleft, Hright by (cbn [String.length]; lia);
    reflexivity.
Qed.

End ComparisonFacts.

(** ** Computations that return *)
Section ReturnFacts.
Context {F : PyFloat}.

Lemma mbind_inv (A B : Type) (m : M A) (k : A -> M B) (h h' : heap) (b : B) :
  mbind m k h = (h', Ok b) ->
  exists h1 a, m h = (h1, Ok a) /\ k a h1 = (h', Ok b).
Proof.
  unfold mbind. destruct (m h) as [h1 [a | e]]; intros H.
  - now exists h1, a.
  - discriminate H.
Qed.

End ReturnFacts.

(** A computation that returned, taken apart at its first step. *)
Ltac inv_bind H :=
  let h1 := fresh "h" in
  let a := fresh "a" in
  let H1 := fresh "H" in
  apply mbind_inv in H; destruct H as (h1 & a & H1 & H).

(** The same, the first step being a value read without the heap. *)
Ltac inv_key H E :=
  let h1 := fresh "h" in
  let a := fresh "a" in
  let H1 := fresh "H" in
  apply mbind_inv in H; destruct H as (h1 & a & H1 & H);
  unfold lift in H1; injection H1 as -> E.

(** The steps up to the line an action returns. *)
Ltac inv_line H :=
  repeat (let h1 := fresh "h" in
          let a := fresh "a" in
          apply mbind_inv in H; destruct H as (h1 & a & _ & H));
  unfold ret in H; injection H as _ <-.

Ltac labelled := eexists; rewrite !append_assoc; reflexivity.

(** ** The log of an action list *)
Section LogFacts.
Context {F : PyFloat}.
Import RuleExecutor.

(** What an action returns: no line exactly when none of its keys is
    known, and else a line that starts with the label of the rule. *)
Lemma action_line (action rule_id : tree) (ctx : nat) (h h' : heap)
  (o : option string) :
  _execute_action action ctx rule_id h = (h', Ok o) ->
  match o with
  | None => recognised action = false
  | Some line =>
      recognised action = true /\ exists rest, line = label rule_id +:+ rest
  end.
Proof.
  intros H. unfold _execute_action in H.
  unfold recognised, action_keys, label. cbn [existsb].
  inv_key H E1. destruct a.
  { inv_line H. rewrite E1. split; [reflexivity | labelled]. }
  inv_key H E2. destruct a.
  { inv_line H. rewrite E1, E2.
    split; [reflexivity | labelled]. }
  inv_key H E3. destruct a.
  { inv_line H. rewrite E1, E2, E3.
    split; [reflexivity | labelled]. }
  inv_key H E4. destruct a.
  { inv_line H. rewrite E1, E2, E3, E4.
    split; [reflexivity | labelled]. }
  inv_key H E5. destruct a.
  { inv_line H. rewrite E1, E2, E3, E4, E5.
    split; [reflexivity | labelled]. }
  inv_key H E6. destruct a.
  { inv_line H. rewrite E1, E2, E3, E4, E5, E6.
    split; [reflexivity | labelled]. }
  inv_key H E7. destruct a.
  { inv_line H. rewrite E1, E2, E3, E4, E5, E6, E7.
    split; [reflexivity | labelled]. }
  unfold ret in H. injection H as _ <-.
  now rewrite E1, E2, E3, E4, E5, E6, E7.
Qed.

Lemma loop_lines (rule_id : tree) (ctx : nat) (actions : list tree) :
  forall logs h h' logs',
  execute_loop actions ctx rule_id logs h = (h', Ok logs') ->
  exists new,
    logs' = logs ++ new
    /\ List.length new = List.length (filter recognised actions)
    /\ Forall (fun line => exists rest, line = label rule_id +:+ rest) new.
Proof.
  induction actions as [| action actions IH]; intros logs h h' logs' H.
  - cbn in H. injection H as _ <-. exists []. now rewrite app_nil_r.
  - cbn [execute_loop] in H. inv_bind H.
    apply action_line in H0. apply IH in H. destruct H as (new & -> & Hn & Hl).
    cbn [filter]. destruct a as [line |].
    + destruct H0 as (-> & rest & ->).
      replace (String.eqb (label rule_id +:+ rest) "") with false
        by (unfold label; now rewrite !append_assoc).
      exists ((label rule_id +:+ rest) :: new). rewrite <- app_assoc.
      split; [reflexivity |]. split; [cbn; now rewrite Hn |].
      constructor; [now exists rest | exact Hl].
    + rewrite H0. now exists new.
Qed.

(** X4: the log of an action list that runs to its end has one line for
    each action in which the executor finds one of its keys, and none for
    the others, which it passes over in silence; every line starts with the
    identifier of the rule in brackets. *)
Theorem log_has_a_line_per_recognised_action (actions : list tree) (ctx : nat)
  (rule_id : tree) (h h' : heap) (logs : list string) :
  execute (TList actions) ctx rule_id h = (h', Ok logs) ->
  List.length logs = List.length (filter recognised actions)
  /\ Forall (fun line => exists rest, line = label rule_id +:+ rest) logs.
Proof.
  unfold execute. intros H.
  change (mbind (lift (py_iter (TList actions)))
                (fun items => execute_loop items ctx rule_id []) h)
    with (execute_loop actions ctx rule_id [] h) in H.
  apply loop_lines in H. destruct H as (new & -> & Hn & Hl). now split.
Qed.

Lemma execute_loop_app (rule_id : tree) (ctx : nat) (a b : list tree) :
  forall logs h,
  execute_loop (a ++ b) ctx rule_id logs h
  = match execute_loop a ctx rule_id logs h with
    | (h1, Ok l1) => execute_loop b ctx rule_id l1 h1
    | (h1, Raise e) => (h1, Raise e)
    end.
Proof.
  induction a as [| x a IH]; intros logs h; [reflexivity |].
  cbn [app execute_loop]. unfold mbind.
  destruct (_execute_action x ctx rule_id h) as [h1 [o | e]];
    [apply IH | reflexivity].
Qed.

Lemma execute_loop_logs (rule_id : tree) (ctx : nat) (b : list tree) :
  forall l1 l2 h,
  execute_loop b ctx rule_id (l1 ++ l2) h
  = match execute_loop b ctx rule_id l2 h with
    | (h', Ok l) => (h', Ok (l1 ++ l))
    | (h', Raise e) => (h', Raise e)
    end.
Proof.
  induction b as [| x b IH]; intros l1 l2 h; [reflexivity |].
  cbn [execute_loop]. unfold mbind.
  destruct (_execute_action x ctx rule_id h) as [h1 [o | e]];
    [| reflexivity].
  destruct o as [line |]; [| apply IH].
  destruct (String.eqb line ""); [apply IH |].
  rewrite <- app_assoc. apply IH.
Qed.

(** X5: an action list run in two batches does what it does run in one: the
    second batch starts from the context the first one left, the log is the
    two logs one after the other, and an action that raises in the first
    batch keeps the second from running. *)
Theorem execute_in_two_batches (a b : list tree) (ctx : nat) (rule_id : tree)
  (h : heap) :
  execute (TList (a ++ b)) ctx rule_id h
  = match execute (TList a) ctx rule_id h with
    | (h1, Ok la) =>
        match execute (TList b) ctx rule_id h1 with
        | (h2, Ok lb) => (h2, Ok (la ++ lb))
        | (h2, Raise e) => (h2, Raise e)
        end
    | (h1, Raise e) => (h1, Raise e)
    end.
Proof.
  change (execute (TList (a ++ b)) ctx rule_id h)
    with (execute_loop (a ++ b) ctx rule_id [] h).
  change (execute (TList a) ctx rule_id h)
    with (execute_loop a ctx rule_id [] h).
  rewrite execute_loop_app.
  destruct (execute_loop a ctx rule_id [] h) as [h1 [la | e]]; [| reflexivity].
  change (execute (TList b) ctx rule_id h1)
    with (execute_loop b ctx rule_id [] h1).
  rewrite <- (app_nil_r la) at 1. apply execute_loop_logs.
Qed.

End LogFacts.

(** ** The keys of the context *)
Section KeyFacts.
Context {F : PyFloat}.
Import RuleExecutor RulesEngine.
Variable ctx : nat.

Lemma keeps_keys_refl (h : heap) : keeps_keys ctx h h.
Proof. intros d H. exists d, []. now rewrite app_nil_r. Qed.

Lemma keeps_keys_trans (h1 h2 h3 : heap) :
  keeps_keys ctx h1 h2 -> keeps_keys ctx h2 h3 -> keeps_keys ctx h1 h3.
Proof.
  intros H12 H23 d Hd.
  destruct (H12 d Hd) as (d2 & a2 & Hd2 & E2).
  destruct (H23 d2 Hd2) as (d3 & a3 & Hd3 & E3).
  exists d3, (a2 ++ a3). split; [exact Hd3 |].
  now rewrite E3, E2, app_assoc.
Qed.

Lemma keeps_keys_app (h ext : heap) : keeps_keys ctx h (h ++ ext).
Proof.
  intros d Hd. exists d, []. rewrite app_nil_r. split; [| reflexivity].
  rewrite heap_get_app_l; [exact Hd |]. now apply heap_get_lt in Hd.
Qed.

Lemma keys_dict_set (V : Type) (k : string) (v : V) (d : dict V) :
  exists added, keys (dict_set k v d) = keys d ++ added.
Proof.
  induction d as [| [k' v'] d IH].
  - now exists [k].
  - cbn [dict_set]. destruct (String.eqb k k').
    + exists []. now rewrite app_nil_r.
    + destruct IH as (added & IH). exists added.
      unfold keys in *. cbn. now rewrite IH.
Qed.

Lemma key_keeping_same (A : Type) (r : heap -> result A) :
  key_keeping ctx (fun h => (h, r h)).
Proof. intros h. apply keeps_keys_refl. Qed.

Lemma key_keeping_bind (A B : Type) (m : M A) (k : A -> M B) :
  key_keeping ctx m -> (forall a, key_keeping ctx (k a)) ->
  key_keeping ctx (mbind m k).
Proof.
  intros Hm Hk h. unfold mbind. specialize (Hm h).
  destruct (m h) as [h1 [a | e]]; [| exact Hm].
  eapply keeps_keys_trans; [exact Hm | apply Hk].
Qed.

Lemma key_keeping_read_dict (l : nat) : key_keeping ctx (read_dict l).
Proof.
  intros h. unfold read_dict.
  destruct (heap_get h l) as [[] |]; apply keeps_keys_refl.
Qed.

Lemma key_keeping_alloc (o : obj) : key_keeping ctx (alloc o).
Proof. intros h. apply keeps_keys_app. Qed.

Lemma key_keeping_store (t : tree) : key_keeping ctx (store t).
Proof.
  intros h. unfold store. destruct (store_tree t h) as [h' v] eqn:E.
  apply store_tree_extends in E. destruct E as (ext & -> & _).
  apply keeps_keys_app.
Qed.

Lemma key_keeping_list_append (target v : value) :
  key_keeping ctx (list_append target v).
Proof.
  intros h. unfold list_append.
  destruct target as [| | | | | l]; try apply keeps_keys_refl.
  destruct (heap_get h l) as [[xs | kvs] |] eqn:El; try apply keeps_keys_refl.
  intros d Hd. cbn [fst]. exists d, []. rewrite app_nil_r.
  split; [| reflexivity].
  rewrite heap_get_set_neq; [exact Hd |]. intros ->. congruence.
Qed.

Lemma key_keeping_ctx_get (field : tree) (default : value) :
  key_keeping ctx (ctx_get ctx field default).
Proof.
  unfold ctx_get.
  apply key_keeping_bind; [apply key_keeping_same | intros k].
  apply key_keeping_bind; [apply key_keeping_read_dict | intros d].
  apply key_keeping_same.
Qed.

Lemma key_keeping_ctx_set (field : tree) (v : value) :
  key_keeping ctx (ctx_set ctx field v).
Proof.
  unfold ctx_set.
  apply key_keeping_bind; [apply key_keeping_same | intros k].
  intros h. unfold mbind, read_dict, write.
  destruct (heap_get h ctx) as [[xs | d0] |] eqn:E; try apply keeps_keys_refl.
  intros d Hd. cbn [fst]. rewrite E in Hd. injection Hd as <-.
  destruct (keys_dict_set k v d0) as (added & Hk).
  exists (dict_set k v d0), added. split; [| exact Hk].
  apply heap_get_set_eq. now apply heap_get_lt in E.
Qed.

Ltac keys_op :=
  first
    [ apply key_keeping_store
    | apply key_keeping_read_dict
    | apply key_keeping_ctx_get
    | apply key_keeping_ctx_set
    | apply key_keeping_list_append
    | apply key_keeping_alloc
    | apply key_keeping_same ].

Ltac keys_go :=
  repeat first
    [ keys_op
    | apply key_keeping_bind; [| intros ?]
    | match goal with
      | |- key_keeping _ (if ?b then _ else _) => destruct b
      end ].

Lemma key_keeping_execute_action (action rule_id : tree) :
  key_keeping ctx (_execute_action action ctx rule_id).
Proof.
  unfold _execute_action, arith, ctx_float, append_value, lift, ret, read,
    isinstance_list.
  keys_go.
Qed.

Lemma key_keeping_execute_loop (rule_id : tree) (actions : list tree) :
  forall logs, key_keeping ctx (execute_loop actions ctx rule_id logs).
Proof.
  induction actions as [| a actions IH]; intros logs.
  - apply key_keeping_same.
  - cbn [execute_loop]. apply key_keeping_bind.
    + apply key_keeping_execute_action.
    + intros o. apply IH.
Qed.

Lemma key_keeping_execute (actions rule_id : tree) :
  key_keeping ctx (execute actions ctx rule_id).
Proof.
  unfold execute. apply key_keeping_bind; [apply key_keeping_same |].
  intros items. apply key_keeping_execute_loop.
Qed.

(** X6: no action removes a key of the context or moves it: whatever the
    actions of a list do, and whether or not they run to the end, the
    context keeps the keys it had, in their order, and the keys the actions
    add come after them. *)
Theorem actions_keep_the_keys (actions rule_id : tree) (h : heap)
  (d : dict value) :
  heap_get h ctx = Some (ODict d) ->
  exists d' added,
    heap_get (fst (execute actions ctx rule_id h)) ctx = Some (ODict d')
    /\ keys d' = keys d ++ added.
Proof. apply key_keeping_execute. Qed.

End KeyFacts.

(** ** The context of a run *)
Section RunFacts.
Context {F : PyFloat}.
Import RuleExecutor RulesEngine.
Variable yaml_safe_load : string -> result tree.
Variable utcnow_isoformat : string.

Lemma key_keeping_visit (ctx : nat) (rule : tree) (t : trace) :
  key_keeping ctx (visit rule ctx t).
Proof.
  unfold visit, lift, read, ret.
  repeat (apply key_keeping_bind; [apply key_keeping_same | intros ?]).
  match goal with
  | |- key_keeping _ (match ?x with _ => _ end) => destruct x as [[|] | e]
  end.
  - apply key_keeping_bind; [apply key_keeping_same | intros ?].
    apply key_keeping_bind; [apply key_keeping_execute | intros ?].
    repeat (apply key_keeping_bind; [apply key_keeping_same | intros ?]).
    apply key_keeping_same.
  - apply key_keeping_bind; [apply key_keeping_same | intros ?].
    apply key_keeping_same.
  - apply key_keeping_same.
Qed.

Lemma key_keeping_run_rules (ctx : nat) (mode : tree) (rules : list tree) :
  forall t, key_keeping ctx (run_rules mode rules ctx t).
Proof.
  induction rules as [| rule rules IH]; intros t.
  - apply key_keeping_same.
  - cbn [run_rules]. apply key_keeping_bind; [apply key_keeping_visit |].
    intros r. destruct (snd r && is_first_match mode); [| apply IH].
    apply key_keeping_same.
Qed.

Lemma dict_mem_keys (V : Type) (k : string) (d : dict V) :
  dict_mem k d = true <-> In k (keys d).
Proof.
  unfold dict_mem, keys. induction d as [| [k' v] d IH]; cbn.
  - split; [discriminate | tauto].
  - destruct (String.eqb k k') eqn:E.
    + apply String.eqb_eq in E. subst k'. tauto.
    + apply String.eqb_neq in E. rewrite IH. split; [tauto |].
      intros [H | H]; [congruence | exact H].
Qed.

Lemma setdefault_tags_ok (context : value) (h h' : heap) (c : nat) :
  setdefault_tags context h = (h', Ok c) ->
  context = VRef c
  /\ exists d, heap_get h' c = Some (ODict d) /\ dict_mem "tags" d = true.
Proof.
  destruct context as [| | | | | l]; try discriminate.
  unfold setdefault_tags, mbind, alloc.
  destruct (heap_get (h ++ [OList []]) l) as [[xs | d] |] eqn:E;
    try discriminate.
  destruct (dict_mem "tags" d) eqn:Et; intros H; injection H as <- <-.
  - split; [reflexivity |]. now exists d.
  - split; [reflexivity |]. eexists. split.
    + apply heap_get_set_eq. now apply heap_get_lt in E.
    + unfold dict_mem. rewrite dict_get_set. now rewrite String.eqb_refl.
Qed.

(** X7: the context a run returns is a dict that has the key [tags]: the
    run gives its copy of the input the key when the input has none, and no
    action removes a key. *)
Theorem result_context_has_tags (fs : filesystem) (self self' : engine)
  (name : string) (input : value) (force : bool) (h h' : heap)
  (res : evaluation) :
  evaluate yaml_safe_load utcnow_isoformat fs self name input force h
  = (self', h', Ok res) ->
  exists c d,
    res.(context) = VRef c
    /\ heap_get h' c = Some (ODict d)
    /\ dict_mem "tags" d = true.
Proof.
  intros H. apply evaluate_loads in H.
  destruct H as [(e & _ & _ & H) | (data & _ & H)]; [discriminate H |].
  unfold evaluate_loaded in H.
  inv_key H Emeta. inv_key H Erules. inv_key H Emode.
  apply mbind_inv in H. destruct H as (h1 & ctxv & _ & H).
  apply mbind_inv in H. destruct H as (h2 & c & Htags & H).
  apply setdefault_tags_ok in Htags. destruct Htags as (-> & d & Hd & Ht).
  inv_key H Elist.
  apply mbind_inv in H. destruct H as (h3 & t & Hrun & H).
  inv_key H Etotal. inv_key H Ename. inv_key H Eversion.
  unfold ret in H. injection H as <- <-.
  pose proof (key_keeping_run_rules c a1 a2
                {| fired := []; skipped := []; log := [] |} _ Hd) as K.
  rewrite Hrun in K. destruct K as (d' & added & Hd' & Hk).
  exists c, d'. cbn [context]. repeat split; trivial.
  apply dict_mem_keys. rewrite Hk. apply in_or_app. left.
  now apply dict_mem_keys.
Qed.

Lemma one_matched_at_most (new : list log_entry) :
  (forall pre e post, new = pre ++ e :: post -> e.(le_matched) = true ->
                      post = []) ->
  List.length (filter le_matched new) <= 1.
Proof.
  induction new as [| e new IH]; intros H; [cbn; lia |].
  cbn [filter]. destruct (le_matched e) eqn:E.
  - rewrite (H [] e new eq_refl E). cbn. lia.
  - apply IH. intros pre e' post -> He'.
    exact (H (e :: pre) e' post eq_refl He').
Qed.

(** X8: under the first_match mode a run fires one rule at most. *)
Theorem first_match_fires_one_rule_at_most (fs : filesystem)
  (self self' : engine) (name : string) (input : value) (force : bool)
  (h h' : heap) (res : evaluation) :
  evaluate yaml_safe_load utcnow_isoformat fs self name input force h
  = (self', h', Ok res) ->
  is_first_match res.(metadata).(md_priority_mode) = true ->
  List.length res.(rules_fired) <= 1 /\ res.(rules_fired_count) <= 1.
Proof.
  intros H Hmode. apply evaluate_loads in H.
  destruct H as [(e & _ & _ & H) | (data & _ & H)]; [discriminate H |].
  apply evaluate_loaded_pass in H.
  destruct H as (rule_list & ctx & h0 & t & _ & _ & Hrun & Hf & _ & _ & Hc).
  apply run_rules_shape in Hrun.
  destruct Hrun as (new & _ & _ & _ & Hfired & _ & _ & Hlast).
  cbn [fired app] in Hfired.
  assert (Hle : List.length res.(rules_fired) <= 1).
  { rewrite Hf, Hfired, length_map.
    apply one_matched_at_most, Hlast, Hmode. }
  split; [exact Hle |]. rewrite Hc, <- Hf. exact Hle.
Qed.

End RunFacts.

(** ** The ruleset store *)
Section StoreFacts.
Context {F : PyFloat}.
Import RulesEngine.

Lemma bind_inv (A B : Type) (m : result A) (k : A -> result B) (b : B) :
  bind m k = Ok b -> exists a, m = Ok a /\ k a = Ok b.
Proof. destruct m as [a | e]; [now exists a | discriminate]. Qed.

Lemma dict_set_not_nil (V : Type) (k : string) (v : V) (d : dict V) :
  dict_set k v d <> [].
Proof.
  destruct d as [| [k' v'] d]; cbn; [discriminate |].
  destruct (String.eqb k k'); discriminate.
Qed.

Lemma py_eq_int_refl (z : Z) : py_eq (TInt z) (TInt z) = Ok true.
Proof. cbn. now rewrite Z.compare_refl. Qed.

(** What a load that returns leaves in the cache: the document it returns,
    which holds the modification time of the file. *)
Lemma loaded_is_cached (yaml_safe_load : string -> result tree)
  (utcnow_isoformat : string) (fs : filesystem) (self self' : engine)
  (name : string) (force : bool) (data : tree) (f : file) :
  dict_get (path_of self name) fs = Some f ->
  load_ruleset yaml_safe_load utcnow_isoformat fs self name force
  = (self', Ok data) ->
  self'.(rules_dir) = self.(rules_dir)
  /\ dict_get name self'.(_cache) = Some data
  /\ truthy data = true
  /\ exists m, py_get data "_mtime" TNone = Ok m
               /\ py_eq m (TInt f.(mtime)) = Ok true.
Proof.
  intros Hf. unfold load_ruleset. rewrite Hf.
  set (hit := if force then Ok None else _).
  destruct hit as [[c |] | e] eqn:Ehit; [| | discriminate].
  - (* served from the cache *)
    intros H. injection H as <- <-. subst hit.
    destruct force; [discriminate |].
    destruct (dict_get name self.(_cache)) as [c' |] eqn:Ec; [| discriminate].
    destruct (truthy c') eqn:Et; [| discriminate].
    apply bind_inv in Ehit. destruct Ehit as (m & Hm & Ehit).
    apply bind_inv in Ehit. destruct Ehit as (same & Hsame & Ehit).
    destruct same; [| discriminate]. injection Ehit as ->.
    repeat split; trivial. now exists m.
  - (* read from the file *)
    clear Ehit hit.
    destruct (yaml_safe_load f.(content)) as [doc | e]; [| discriminate].
    cbn [bind].
    destruct (py_in "ruleset" doc) as [[|] | e]; try discriminate.
    cbn [bind negb].
    destruct (py_in "rules" doc) as [[|] | e]; try discriminate.
    cbn [bind negb].
    destruct (py_getitem doc "rules") as [rules | e]; [| discriminate].
    cbn [bind].
    destruct (sort_rules rules) as [sorted | e]; [| discriminate].
    cbn [bind].
    destruct doc; try discriminate.
    intros H. injection H as <- <-.
    repeat split.
    + unfold cache_set. cbn [_cache]. rewrite dict_get_set.
      now rewrite String.eqb_refl.
    + cbn [truthy].
      match goal with
      | |- match ?d with _ => _ end = true =>
          pose proof (@dict_set_not_nil tree "_loaded_at"
                        (TStr utcnow_isoformat)
                        (dict_set "_mtime" (TInt f.(mtime))
                           (dict_set "rules" sorted items))) as Hn;
          destruct d; [congruence | reflexivity]
      end.
    + exists (TInt f.(mtime)). split; [| apply py_eq_int_refl].
      cbn [py_get]. rewrite !dict_get_set. reflexivity.
Qed.

(** X9: a ruleset that has been loaded is served from the cache as long as
    the modification time of its file is the same: the file is not read
    again, so that neither its text nor the parser nor the clock has a part
    in what the load returns, and the engine stays as it is. *)
Theorem loaded_ruleset_is_served_from_cache
  (yaml_safe_load yaml_safe_load' : string -> result tree)
  (utcnow_isoformat utcnow_isoformat' : string) (fs fs' : filesystem)
  (self self' : engine) (name : string) (force : bool) (data : tree)
  (f f' : file) :
  dict_get (path_of self name) fs = Some f ->
  load_ruleset yaml_safe_load utcnow_isoformat fs self name force
  = (self', Ok data) ->
  dict_get (path_of self name) fs' = Some f' ->
  f'.(mtime) = f.(mtime) ->
  load_ruleset yaml_safe_load' utcnow_isoformat' fs' self' name false
  = (self', Ok data).
Proof.
  intros Hf Hload Hf' Hm.
  destruct (loaded_is_cached _ _ _ _ _ _ Hf Hload)
    as (Hdir & Hc & Ht & m & Hget & Heq).
  unfold load_ruleset, path_of. rewrite Hdir.
  unfold path_of in Hf'. rewrite Hf', Hc, Ht, Hget. cbn [bind].
  rewrite Hm, Heq. reflexivity.
Qed.

Lemma dict_get_del_neq (V : Type) (k k' : string) (d : dict V) :
  k <> k' -> dict_get k (dict_del k' d) = dict_get k d.
Proof.
  intros Hk. induction d as [| [k0 v0] d IH]; [reflexivity |].
  cbn [dict_del dict_get]. destruct (String.eqb k' k0) eqn:E.
  - apply String.eqb_eq in E. subst k0.
    apply String.eqb_neq in Hk. now rewrite Hk.
  - cbn [dict_get]. now rewrite IH.
Qed.

Lemma dict_get_absent (V : Type) (k : string) (d : dict V) :
  ~ In k (keys d) -> dict_get k d = None.
Proof.
  induction d as [| [k0 v0] d IH]; intros H; [reflexivity |].
  cbn [dict_get]. destruct (String.eqb k k0) eqn:E.
  - apply String.eqb_eq in E. subst k0. exfalso. apply H. now left.
  - apply IH. intros Hin. apply H. now right.
Qed.

Lemma dict_get_del_eq (V : Type) (k : string) (d : dict V) :
  NoDup (keys d) -> dict_get k (dict_del k d) = None.
Proof.
  induction d as [| [k0 v0] d IH]; intros H; [reflexivity |].
  unfold keys in H. cbn [map fst] in H. inversion H as [| ? ? Hnot Hd]; subst.
  cbn [dict_del]. destruct (String.eqb k k0) eqn:E.
  - apply String.eqb_eq in E. subst k0. now apply dict_get_absent.
  - cbn [dict_get]. rewrite E. now apply IH.
Qed.

(** X10: what a save that returns leaves: the file of the ruleset holds
    the text that was saved, the other files and the other cache entries
    are as they were, and the cache has no entry for the ruleset any more,
    so that the next load reads the file as a forced one does. *)
Theorem saved_text_is_read_back (yaml_safe_load : string -> result tree)
  (utcnow_isoformat : string) (written_at : Z) (fs fs' : filesystem)
  (self self' : engine) (name content : string) (r : string * nat) :
  NoDup (keys self.(_cache)) ->
  save_ruleset_yaml yaml_safe_load written_at fs self name content
  = (fs', self', Ok r) ->
  get_ruleset_yaml fs' self' name = Ok content
  /\ load_ruleset yaml_safe_load utcnow_isoformat fs' self' name false
     = load_ruleset yaml_safe_load utcnow_isoformat fs' self' name true
  /\ (forall p, p <> path_of self name -> dict_get p fs' = dict_get p fs)
  /\ (forall n, n <> name ->
                dict_get n self'.(_cache) = dict_get n self.(_cache)).
Proof.
  intros Hnodup. unfold save_ruleset_yaml.
  match goal with
  | |- match ?c with _ => _ end = _ -> _ => destruct c as [parsed | e]
  end; [| discriminate].
  intros H. injection H as <- <- _.
  assert (Hdir : (if dict_mem name self.(_cache)
                  then {| rules_dir := self.(rules_dir);
                          _cache := dict_del name self.(_cache) |}
                  else self).(rules_dir) = self.(rules_dir))
    by now destruct (dict_mem name self.(_cache)).
  assert (Hmiss : dict_get name
                    (if dict_mem name self.(_cache)
                     then {| rules_dir := self.(rules_dir);
                             _cache := dict_del name self.(_cache) |}
                     else self).(_cache) = None).
  { unfold dict_mem.
    destruct (dict_get name self.(_cache)) eqn:E; [| exact E].
    cbn [_cache]. now apply dict_get_del_eq. }
  repeat split.
  - unfold get_ruleset_yaml, path_of. rewrite Hdir.
    fold (path_of self name). rewrite dict_get_set.
    now rewrite String.eqb_refl.
  - unfold load_ruleset. rewrite Hmiss. reflexivity.
  - intros p Hp. rewrite dict_get_set.
    apply String.eqb_neq in Hp. now rewrite Hp.
  - intros n Hn. destruct (dict_mem name self.(_cache)); [| reflexivity].
    cbn [_cache]. now apply dict_get_del_neq.
Qed.

(** X11: the texts a save accepts are those that parse to a mapping with
    the keys [ruleset] and [rules] whose rules have a length, and the count
    it returns is that length. The rules need not be a sequence: a string
    or a mapping passes, counted by its characters or its keys. *)
Theorem save_accepts_rules_with_a_length
  (yaml_safe_load : string -> result tree) (written_at : Z) (fs : filesystem)
  (self : engine) (name content : string) (r : string * nat) :
  snd (save_ruleset_yaml yaml_safe_load written_at fs self name content)
  = Ok r
  <-> exists d rules n,
        yaml_safe_load content = Ok (TDict d)
        /\ dict_mem "ruleset" d = true
        /\ dict_get "rules" d = Some rules
        /\ py_len rules = Ok n
        /\ r = (path_of self name, n).
Proof.
  unfold save_ruleset_yaml. split.
  - destruct (yaml_safe_load content) as [parsed | e]; [| discriminate].
    cbn [bind].
    destruct (py_in "ruleset" parsed) as [[|] | e] eqn:E1; try discriminate.
    cbn [bind negb].
    destruct (py_in "rules" parsed) as [[|] | e] eqn:E2; try discriminate.
    cbn [bind negb snd].
    destruct parsed; try discriminate.
    cbn [py_in] in E1, E2. injection E1 as E1. injection E2 as E2.
    cbn [py_getitem].
    destruct (dict_get "rules" items) as [rules |] eqn:Er; [| discriminate].
    cbn [bind].
    destruct (py_len rules) as [n | e] eqn:En; [| discriminate].
    cbn [bind]. intros H. injection H as <-.
    now exists items, rules, n.
  - intros (d & rules & n & Hy & Hr & Hg & Hn & ->).
    rewrite Hy. cbn [bind py_in]. rewrite Hr. cbn [negb].
    unfold dict_mem at 1. rewrite Hg. cbn [negb snd py_getitem].
    rewrite Hg. cbn [bind]. rewrite Hn. reflexivity.
Qed.

End StoreFacts.

(** ** Inputs and conditions a run cannot use *)
Section EdgeFacts.
Context {F : PyFloat}.
Import RuleExecutor RulesEngine.

(** X12: a rule whose condition is not a string (the YAML scalars [true]
    or [1], say, written without quotes) never fires: its condition cannot
    be evaluated, the rule is recorded as skipped with the error, nothing
    of the context changes, and the pass goes on with the next rule, under
    either mode. *)
Theorem condition_that_is_no_string_skips_the_rule (mode : tree)
  (r : dict tree) (rest : list tree) (c : tree) (ctx : nat) (t : trace)
  (h : heap) :
  dict_get "condition" r = Some c ->
  kind_eqb (kind_of c) KStr = false ->
  exists e,
    run_rules mode (TDict r :: rest) ctx t h
    = run_rules mode rest ctx
        {| fired := t.(fired);
           skipped := t.(skipped) ++ [rule_id_of (TDict r)];
           log := t.(log) ++ [e] |} h
    /\ e.(le_rule_id) = rule_id_of (TDict r)
    /\ e.(le_matched) = false
    /\ e.(le_error) = Some AttributeError.
Proof.
  intros Hc Hk. eexists. split.
  - rewrite run_rules_cons. unfold visit.
    unfold mbind, lift, read, ret. cbn [py_get]. rewrite Hc.
    destruct c; try discriminate Hk; cbn [andb fst snd]; reflexivity.
  - repeat split.
Qed.

(** X13: an input that is no container (a number, a string, a boolean,
    null) is refused once the ruleset is loaded: the run raises
    AttributeError where it gives the context its [tags], and the heap is
    as it was. *)
Theorem input_that_is_no_mapping_is_refused
  (yaml_safe_load : string -> result tree) (utcnow_isoformat : string)
  (fs : filesystem) (self self' : engine) (name : string) (input : value)
  (force : bool) (h : heap) (data meta : tree) :
  load_ruleset yaml_safe_load utcnow_isoformat fs self name force
  = (self', Ok data) ->
  py_getitem data "ruleset" = Ok meta ->
  scalar input = true ->
  evaluate yaml_safe_load utcnow_isoformat fs self name input force h
  = (self', h, Raise AttributeError).
Proof.
  intros Hload Hmeta Hin. unfold evaluate. rewrite Hload.
  unfold evaluate_loaded, mbind, lift. rewrite Hmeta.
  assert (Hdata : exists d, data = TDict d).
  { destruct data; try discriminate Hmeta. now eexists. }
  destruct Hdata as (d & ->). cbn [py_get].
  destruct meta; try reflexivity.
  cbn [py_get]. unfold copy_deepcopy.
  destruct input as [| | | | | l]; cbn [deepcopy setdefault_tags];
    try reflexivity.
  discriminate Hin.
Qed.

End EdgeFacts.

(** ** The listing of the rulesets *)
Section ListingFacts.
Context {F : PyFloat}.
Import RulesEngine.
Variable yaml_safe_load : string -> result tree.
Variable utcnow_isoformat : string.

Lemma summary_id (name : string) (data : tree) (info : dict tree) :
  summary name data = Ok info -> dict_get "id" info = Some (TStr name).
Proof.
  unfold summary. intros H.
  repeat (apply bind_inv in H; destruct H as (? & _ & H)).
  injection H as <-. reflexivity.
Qed.

Lemma list_loop_ids (fs : filesystem) (fnames : list string) :
  forall self rulesets,
  map listed_id
      (snd (list_loop yaml_safe_load utcnow_isoformat fnames fs self rulesets))
  = map listed_id rulesets
    ++ map (fun fname => Some (TStr (stem fname)))
           (filter ruleset_file fnames).
Proof.
  induction fnames as [| fname fnames IH]; intros self rulesets.
  - cbn. now rewrite app_nil_r.
  - cbn [list_loop filter]. fold (ruleset_file fname).
    destruct (ruleset_file fname); [| apply IH].
    fold (stem fname).
    destruct (load_ruleset yaml_safe_load utcnow_isoformat fs self
                           (stem fname) false) as [self' [data | e]];
      rewrite IH, map_app, <- app_assoc; cbn [map app listed_id];
      [| reflexivity].
    destruct (summary (stem fname) data) as [info | e] eqn:E;
      cbn [listed_id]; [| reflexivity].
    now rewrite (summary_id _ _ E).
Qed.

(** X14: the listing has one item for each name of the directory that
    ends in [.yaml] or [.yml], in the order of the directory, whether or
    not the ruleset loads: an item carries as its identifier the file name
    up to its last dot. *)
Theorem listing_has_an_item_per_ruleset_file (listing : list string)
  (fs : filesystem) (self : engine) :
  map listed_id
      (snd (list_rulesets yaml_safe_load utcnow_isoformat listing fs self))
  = map (fun fname => Some (TStr (stem fname))) (filter ruleset_file listing).
Proof. unfold list_rulesets. now rewrite list_loop_ids. Qed.

Lemma rsplit1_whole (sep : ascii) (s : string) :
  has_char sep s = false -> PyStr.rsplit1 sep s = [s].
Proof.
  induction s as [| c s IH]; intros H; [reflexivity |].
  cbn [has_char] in H. apply orb_false_elim in H. destruct H as [Hc H].
  cbn [PyStr.rsplit1]. rewrite IH by exact H.
  rewrite Ascii.eqb_sym, Hc. reflexivity.
Qed.

Lemma rsplit1_last (sep : ascii) (s ext : string) :
  has_char sep ext = false ->
  PyStr.rsplit1 sep (s +:+ String sep ext) = [s; ext].
Proof.
  intros H. induction s as [| c s IH].
  - change ("" +:+ String sep ext) with (String sep ext).
    cbn [PyStr.rsplit1]. rewrite rsplit1_whole by exact H.
    now rewrite Ascii.eqb_refl.
  - rewrite append_cons. cbn [PyStr.rsplit1]. now rewrite IH.
Qed.

Lemma endswith_append (s p : string) : PyStr.endswith p (s +:+ p) = true.
Proof.
  unfold PyStr.endswith. rewrite length_append.
  replace (String.length s + String.length p - String.length p)
    with (String.length s) by lia.
  rewrite drop_append_length, String.eqb_refl.
  replace (String.length p <=? String.length s + String.length p) with true
    by (symmetry; apply Nat.leb_le; lia).
  reflexivity.
Qed.

Lemma load_keeps_rules_dir (fs : filesystem) (self : engine) (name : string)
  (force : bool) :
  (fst (load_ruleset yaml_safe_load utcnow_isoformat fs self name force))
    .(rules_dir)
  = self.(rules_dir).
Proof.
  unfold load_ruleset.
  destruct (dict_get (path_of self name) fs) as [f |]; [| reflexivity].
  match goal with
  | |- (fst match ?hit with _ => _ end).(rules_dir) = _ =>
      destruct hit as [[c |] | e]; try reflexivity
  end.
  match goal with
  | |- (fst match ?loaded with _ => _ end).(rules_dir) = _ =>
      destruct loaded as [data | e]; reflexivity
  end.
Qed.

Lemma list_loop_keeps (fs : filesystem) (item : listed)
  (fnames : list string) :
  forall self rulesets,
  In item rulesets ->
  In item
     (snd (list_loop yaml_safe_load utcnow_isoformat fnames fs self rulesets)).
Proof.
  induction fnames as [| fname fnames IH]; intros self rulesets H;
    [exact H |].
  cbn [list_loop].
  destruct (PyStr.endswith ".yaml" fname || PyStr.endswith ".yml" fname);
    [| now apply IH].
  destruct (load_ruleset yaml_safe_load utcnow_isoformat fs self
                         (hd "" (PyStr.rsplit1 "." fname)) false)
    as [self' [data | e]];
    apply IH, in_or_app; now left.
Qed.

Lemma list_loop_missing (fs : filesystem) (self0 : engine) (name : string)
  (fnames : list string) :
  dict_get (path_of self0 name) fs = None ->
  In (name +:+ ".yml") fnames ->
  forall self rulesets,
  self.(rules_dir) = self0.(rules_dir) ->
  In (Broken name FileNotFoundError)
     (snd (list_loop yaml_safe_load utcnow_isoformat fnames fs self rulesets)).
Proof.
  intros Hnone. induction fnames as [| fname fnames IH];
    intros Hin self rulesets Hdir; [destruct Hin |].
  cbn [list_loop]. destruct Hin as [-> | Hin].
  - rewrite (endswith_append name ".yml"), orb_true_r.
    rewrite (@rsplit1_last "." name "yml") by reflexivity.
    cbn [hd]. unfold load_ruleset at 1.
    unfold path_of in *. rewrite Hdir, Hnone.
    apply list_loop_keeps, in_or_app. right. now left.
  - destruct (PyStr.endswith ".yaml" fname || PyStr.endswith ".yml" fname);
      [| now apply IH].
    pose proof (load_keeps_rules_dir fs self
                  (hd "" (PyStr.rsplit1 "." fname)) false) as Hk.
    destruct (load_ruleset yaml_safe_load utcnow_isoformat fs self
                           (hd "" (PyStr.rsplit1 "." fname)) false)
      as [self' [data | e]];
      cbn [fst] in Hk; apply IH; trivial; congruence.
Qed.

(** X15: a ruleset kept in a file [name.yml] is listed and cannot be
    loaded: the listing takes the file for a ruleset, and the load looks for
    [name.yaml] only. Unless that file exists too, the item of the listing
    is the identifier with the error of the file that was not found. *)
Theorem yml_file_is_listed_but_not_loaded (listing : list string)
  (fs : filesystem) (self : engine) (name : string) :
  In (name +:+ ".yml") listing ->
  dict_get (path_of self name) fs = None ->
  In (Broken name FileNotFoundError)
     (snd (list_rulesets yaml_safe_load utcnow_isoformat listing fs self)).
Proof.
  intros Hin Hnone. unfold list_rulesets.
  now apply (list_loop_missing fs self name listing Hnone Hin).
Qed.

End ListingFacts.

(** ** Values put in the heap and read back *)
Section StoreFacts2.
Context {F : PyFloat}.
Import RuleExecutor.

Lemma not_on_path (l : nat) (path : list nat) :
  (forall x, In x path -> l < x) -> existsb (Nat.eqb l) path = false.
Proof.
  induction path as [| x path IH]; intros H; [reflexivity |].
  cbn [existsb]. rewrite IH by (intros y Hy; apply H; now right).
  replace (l =? x) with false; [reflexivity |].
  symmetry. apply Nat.eqb_neq. specialize (H x (or_introl eq_refl)). lia.
Qed.

Lemma heap_get_last (h : heap) (o : obj) :
  heap_get (h ++ [o]) (List.length h) = Some o.
Proof.
  unfold heap_get. rewrite nth_error_app2 by lia.
  now rewrite Nat.sub_diag.
Qed.

(** A tree read back from where it was stored, in any heap that holds the
    objects the store made. *)
Lemma store_reify (t : tree) :
  plain t = true ->
  forall h h' v, store_tree t h = (h', v) ->
  forall H fuel path,
  (forall l, List.length h <= l -> l < List.length h' ->
             heap_get H l = heap_get h' l) ->
  (forall l, In l path -> List.length h' <= l) ->
  List.length h' - List.length h <= fuel ->
  reify fuel H path v = t.
Proof.
  induction t as [| | | | |ts IH|kvs IH|] using tree_nested_ind;
    intros Hplain h h' v Hst H fuel path Hagree Hpath Hfuel;
    cbn in Hst; try (inversion Hst; subst; destruct fuel; reflexivity);
    try discriminate Hplain.
  - match type of Hst with
    | (let '(_, _) := ?go ts h in _) = _ =>
        assert (Hgo : forall h0 h1 vs, go ts h0 = (h1, vs) ->
                  (exists ext, h1 = h0 ++ ext)
                  /\ forall H n path,
                  (forall l, List.length h0 <= l -> l < List.length h1 ->
                             heap_get H l = heap_get h1 l) ->
                  (forall l, In l path -> List.length h1 <= l) ->
                  List.length h1 - List.length h0 <= n ->
                  map (reify n H path) vs = ts)
    end.
    { clear Hst Hagree Hpath Hfuel. cbn [plain] in Hplain.
      induction IH as [| t ts Ht _ IHts]; intros h0 h1 vs Hgo.
      - inversion Hgo; subst. split; [exists []; now rewrite app_nil_r |].
        reflexivity.
      - cbn [forallb] in Hplain. apply andb_prop in Hplain.
        destruct Hplain as [Hp Hps].
        destruct (store_tree t h0) as [h2 v2] eqn:Ht2.
        match type of Hgo with
        | (let '(_, _) := ?g ts h2 in _) = _ =>
            destruct (g ts h2) as [h3 vs3] eqn:Hts3
        end.
        inversion Hgo; subst.
        destruct (store_tree_extends _ _ Ht2) as (e1 & -> & _).
        destruct (IHts Hps _ _ _ Hts3) as ((e2 & ->) & Htail).
        split; [exists (e1 ++ e2); now rewrite app_assoc |].
        intros H0 n path0 Hagree Hpath Hfuel.
        rewrite ?length_app in *.
        cbn [map]. f_equal.
        + apply (Ht Hp _ _ _ Ht2).
          * intros l Hl1 Hl2. rewrite ?length_app in Hl2.
            rewrite Hagree by (rewrite ?length_app; lia).
            apply heap_get_app_l. rewrite ?length_app. lia.
          * intros l Hl. apply Hpath in Hl. rewrite ?length_app. lia.
          * rewrite ?length_app. lia.
        + apply Htail.
          * intros l Hl1 Hl2. rewrite ?length_app in *.
            apply Hagree; rewrite ?length_app; lia.
          * intros l Hl. apply Hpath in Hl. rewrite ?length_app. lia.
          * rewrite ?length_app. lia. }
    match type of Hst with
    | (let '(_, _) := ?go ts h in _) = _ =>
        destruct (go ts h) as [h1 vs] eqn:Hts
    end.
    inversion Hst; subst.
    destruct (Hgo _ _ _ Hts) as ((ext & ->) & Hread).
    rewrite ?length_app in *. cbn [List.length] in *.
    destruct fuel as [| n]; [lia |].
    cbn [reify].
    rewrite Hagree by (rewrite ?length_app; lia).
    rewrite <- length_app, heap_get_last.
    rewrite not_on_path
      by (intros x Hx; apply Hpath in Hx; rewrite ?length_app; lia).
    f_equal. apply Hread.
    + intros l Hl1 Hl2. rewrite Hagree by (rewrite ?length_app in *; lia).
      apply heap_get_app_l. rewrite ?length_app. lia.
    + intros l [<- | Hl]; [rewrite ?length_app; lia |]. apply Hpath in Hl.
      rewrite ?length_app. lia.
    + rewrite ?length_app. lia.
  - match type of Hst with
    | (let '(_, _) := ?go kvs h in _) = _ =>
        assert (Hgo : forall h0 h1 vs, go kvs h0 = (h1, vs) ->
                  (exists ext, h1 = h0 ++ ext)
                  /\ forall H n path,
                  (forall l, List.length h0 <= l -> l < List.length h1 ->
                             heap_get H l = heap_get h1 l) ->
                  (forall l, In l path -> List.length h1 <= l) ->
                  List.length h1 - List.length h0 <= n ->
                  map (fun kv => (fst kv, reify n H path (snd kv))) vs = kvs)
    end.
    { clear Hst Hagree Hpath Hfuel. cbn [plain] in Hplain.
      induction IH as [| [k t] kvs Ht _ IHts]; intros h0 h1 vs Hgo.
      - inversion Hgo; subst. split; [exists []; now rewrite app_nil_r |].
        reflexivity.
      - cbn [forallb snd] in Hplain, Ht. apply andb_prop in Hplain.
        destruct Hplain as [Hp Hps].
        destruct (store_tree t h0) as [h2 v2] eqn:Ht2.
        match type of Hgo with
        | (let '(_, _) := ?g kvs h2 in _) = _ =>
            destruct (g kvs h2) as [h3 vs3] eqn:Hts3
        end.
        inversion Hgo; subst.
        destruct (store_tree_extends _ _ Ht2) as (e1 & -> & _).
        destruct (IHts Hps _ _ _ Hts3) as ((e2 & ->) & Htail).
        split; [exists (e1 ++ e2); now rewrite app_assoc |].
        intros H0 n path0 Hagree Hpath Hfuel.
        rewrite ?length_app in *.
        cbn [map fst snd]. f_equal; [f_equal |].
        + apply (Ht Hp _ _ _ Ht2).
          * intros l Hl1 Hl2. rewrite ?length_app in Hl2.
            rewrite Hagree by (rewrite ?length_app; lia).
            apply heap_get_app_l. rewrite ?length_app. lia.
          * intros l Hl. apply Hpath in Hl. rewrite ?length_app. lia.
          * rewrite ?length_app. lia.
        + apply Htail.
          * intros l Hl1 Hl2. rewrite ?length_app in *.
            apply Hagree; rewrite ?length_app; lia.
          * intros l Hl. apply Hpath in Hl. rewrite ?length_app. lia.
          * rewrite ?length_app. lia. }
    match type of Hst with
    | (let '(_, _) := ?go kvs h in _) = _ =>
        destruct (go kvs h) as [h1 vs] eqn:Hts
    end.
    inversion Hst; subst.
    destruct (Hgo _ _ _ Hts) as ((ext & ->) & Hread).
    rewrite ?length_app in *. cbn [List.length] in *.
    destruct fuel as [| n]; [lia |].
    cbn [reify].
    rewrite Hagree by (rewrite ?length_app; lia).
    rewrite <- length_app, heap_get_last.
    rewrite not_on_path
      by (intros x Hx; apply Hpath in Hx; rewrite ?length_app; lia).
    f_equal. apply Hread.
    + intros l Hl1 Hl2. rewrite Hagree by (rewrite ?length_app in *; lia).
      apply heap_get_app_l. rewrite ?length_app. lia.
    + intros l [<- | Hl]; [rewrite ?length_app; lia |]. apply Hpath in Hl.
      rewrite ?length_app. lia.
    + rewrite ?length_app. lia.
Qed.

Lemma stored_value_reads_back (t : tree) (h h1 h' : heap) (v : value) :
  plain t = true ->
  store_tree t h = (h1, v) ->
  List.length h' = List.length h1 ->
  (forall l, List.length h <= l -> heap_get h' l = heap_get h1 l) ->
  snapshot h' v = t.
Proof.
  intros Hp Hst Hlen Hagree. unfold snapshot.
  apply (store_reify t Hp _ Hst).
  - intros l Hl _. now apply Hagree.
  - intros l [].
  - lia.
Qed.

(** X16: what SET puts in the context is read back from it: after the
    action the field holds a value that reads as the value the action
    carries, the other fields hold what they held, no other object of the
    heap has changed, and the line of the log names the field and the
    value. *)
Theorem set_value_is_read_back (h : heap) (ctx : nat) (items : dict value)
  (a : dict tree) (field : string) (rule_id : tree) :
  heap_get h ctx = Some (ODict items) ->
  dict_get "set" a = Some (TStr field) ->
  plain (value_of a) = true ->
  exists h' v,
    _execute_action (TDict a) ctx rule_id h
    = (h', Ok (Some (label rule_id +:+ "SET " +:+ field +:+ " = "
                     +:+ repr (value_of a))))
    /\ heap_get h' ctx = Some (ODict (dict_set field v items))
    /\ snapshot h' v = value_of a
    /\ (forall l, l < List.length h -> l <> ctx ->
                  heap_get h' l = heap_get h l).
Proof.
  intros Hctx Hset Hplain.
  destruct (store_tree (value_of a) h) as [h1 v] eqn:Hst.
  destruct (store_tree_extends _ _ Hst) as (ext & -> & _).
  assert (Hlt : ctx < List.length h) by now apply heap_get_lt in Hctx.
  exists (heap_set (h ++ ext) ctx (ODict (dict_set field v items))), v.
  split; [| split; [| split]].
  - unfold _execute_action, ctx_set, store, read_dict, write, mbind, lift,
      ret.
    cbn [py_in py_getitem py_get as_key]. unfold dict_mem. rewrite Hset.
    fold (value_of a). rewrite Hst.
    rewrite heap_get_app_l, Hctx by exact Hlt.
    unfold label. now rewrite !append_assoc.
  - apply heap_get_set_eq. rewrite length_app. lia.
  - apply (@stored_value_reads_back _ _ _ _ _ Hplain Hst).
    + apply length_heap_set.
    + intros l Hl. apply heap_get_set_neq. lia.
  - intros l Hl Hne. rewrite heap_get_set_neq by congruence.
    now apply heap_get_app_l.
Qed.

(** X17: APPEND on a field that holds a list extends that list object by
    the value the action carries, which comes last; the context dict and
    every other object are as they were. (It is the object that grows:
    whatever else holds the same list shows the new item too.) *)
Theorem append_extends_the_list (h : heap) (ctx l : nat) (items : dict value)
  (a : dict tree) (field : string) (rule_id : tree) (xs : list value) :
  heap_get h ctx = Some (ODict items) ->
  action_kind a = Some "append" ->
  dict_get "append" a = Some (TStr field) ->
  dict_get field items = Some (VRef l) ->
  heap_get h l = Some (OList xs) ->
  plain (value_of a) = true ->
  exists h' v,
    _execute_action (TDict a) ctx rule_id h
    = (h', Ok (Some (label rule_id +:+ "APPEND " +:+ repr (value_of a)
                     +:+ " → " +:+ field)))
    /\ heap_get h' l = Some (OList (xs ++ [v]))
    /\ snapshot h' v = value_of a
    /\ (forall l', l' < List.length h -> l' <> l ->
                   heap_get h' l' = heap_get h l').
Proof.
  intros Hctx Hkind Happ Hfield Hl Hplain.
  destruct (store_tree (value_of a) h) as [h1 v] eqn:Hst.
  destruct (store_tree_extends _ _ Hst) as (ext & -> & _).
  assert (Hlt : l < List.length h) by now apply heap_get_lt in Hl.
  exists (heap_set (h ++ ext) l (OList (xs ++ [v]))), v.
  split; [| split; [| split]].
  - kind_cases Hkind.
    unfold _execute_action, append_value, ctx_get, read_dict,
      isinstance_list, store, list_append, mbind, lift, ret.
    cbn [py_in py_getitem py_get]. rewrite ?E, ?E0, ?E1, ?E2, ?E3, ?E4.
    unfold dict_mem. rewrite Happ. fold (value_of a).
    cbn [as_key]. rewrite Hctx, Hfield, Hl. cbn [negb].
    rewrite Hctx, Hfield, Hst.
    rewrite heap_get_app_l, Hl by exact Hlt.
    unfold label. now rewrite !append_assoc.
  - apply heap_get_set_eq. rewrite length_app. lia.
  - apply (@stored_value_reads_back _ _ _ _ _ Hplain Hst).
    + apply length_heap_set.
    + intros l' Hl'. apply heap_get_set_neq. lia.
  - intros l' Hl' Hne. rewrite heap_get_set_neq by congruence.
    now apply heap_get_app_l.
Qed.

(** X18: MULTIPLY, ADD and SUBTRACT assign to their field the result of
    the operation on the number the field holds (0 when it has none) and
    the operand (1 for MULTIPLY without [by], 0 for the two others), both
    converted by [float], rounded to four decimals; the other fields and
    the rest of the heap stay as they are, and the line of the log gives
    the operand as written and the new value. *)
Theorem arithmetic_assigns_the_rounded_result (h : heap) (ctx : nat)
  (items : dict value) (a : dict tree) (k field word sign : string)
  (op : pyfloat -> pyfloat -> pyfloat) (rule_id : tree) (x y : pyfloat) :
  heap_get h ctx = Some (ODict items) ->
  action_kind a = Some k ->
  arith_op k = Some (op, word, sign) ->
  dict_get k a = Some (TStr field) ->
  as_float (snapshot h (field_or items field (VInt 0))) = Ok x ->
  as_float (operand a (default_operand k)) = Ok y ->
  _execute_action (TDict a) ctx rule_id h
  = (heap_set h ctx
       (ODict (dict_set field (VFloat (float_round4 (op x y))) items)),
     Ok (Some (label rule_id +:+ word +:+ " " +:+ field +:+ " " +:+ sign
               +:+ " " +:+ str (operand a (default_operand k)) +:+ " → "
               +:+ float_repr (float_round4 (op x y))))).
Proof.
  intros Hctx Hkind Hop Hfield Hx Hy.
  unfold arith_op in Hop.
  destruct (String.eqb k "multiply") eqn:Em;
    [| destruct (String.eqb k "add") eqn:Ea;
       [| destruct (String.eqb k "subtract") eqn:Es; [| discriminate Hop]]];
    injection Hop as <- <- <-;
    [apply String.eqb_eq in Em | apply String.eqb_eq in Ea
     | apply String.eqb_eq in Es];
    subst k; kind_cases Hkind;
    unfold _execute_action, arith, ctx_float, ctx_get, ctx_set, read_dict,
      read, write, mbind, lift, ret;
    cbn [py_in py_getitem py_get]; rewrite ?E, ?E0, ?E1, ?E2;
    unfold dict_mem; rewrite Hfield;
    cbn [as_key]; rewrite Hctx;
    unfold field_or in Hx; rewrite Hx;
    unfold operand, default_operand in Hy |- *; cbn [String.eqb] in Hy |- *;
    cbn [Ascii.eqb Bool.eqb orb] in Hy |- *;
    rewrite Hy, Hctx; unfold label; now rewrite !append_assoc.
Qed.

End StoreFacts2.

(** ** Conjunctions and disjunctions *)
Section ConnectiveFacts.
Context {F : PyFloat}.
Import SafeEvaluator.

Lemma keyword_free_split (kw s : string) :
  keyword_free kw s = true ->
  forall depth, split_from kw 0 depth s = [s].
Proof.
  induction s as [| c s IH]; intros H; [reflexivity |].
  cbn [keyword_free] in H. apply andb_prop in H. destruct H as [Hc H].
  apply split_from_step; [| now apply IH].
  now destruct (String.eqb _ kw).
Qed.

Lemma keyword_free_drop (kw x s : string) :
  keyword_free kw (x +:+ s) = true -> keyword_free kw s = true.
Proof.
  induction x as [| c x IH]; intros H; [exact H |].
  rewrite append_cons in H. cbn [keyword_free] in H.
  apply andb_prop in H. now apply IH.
Qed.

Lemma keyword_read_app (kw x y : string) :
  String.eqb (PyStr.lower (PyStr.take (String.length kw) x)) kw = true ->
  String.eqb (PyStr.lower (PyStr.take (String.length kw) (x +:+ y))) kw
  = true.
Proof.
  intros H. rewrite take_append_le; [exact H |].
  apply String.eqb_eq in H. apply (f_equal String.length) in H.
  rewrite length_lower, length_take in H. lia.
Qed.

Lemma keyword_free_prefix (kw x y : string) :
  keyword_free kw (x +:+ y) = true -> keyword_free kw x = true.
Proof.
  induction x as [| c x IH]; intros H; [reflexivity |].
  rewrite append_cons in H. cbn [keyword_free] in H |- *.
  apply andb_prop in H. destruct H as [Hc H]. rewrite IH by exact H.
  rewrite andb_true_r.
  destruct (String.eqb (PyStr.lower (PyStr.take (String.length kw)
                                                (String c x))) kw) eqn:E;
    [| reflexivity].
  rewrite <- append_cons, (keyword_read_app _ _ _ E) in Hc.
  discriminate Hc.
Qed.

Lemma split_from_skip (kw x s : string) :
  forall depth,
  split_from kw (String.length x) depth (x +:+ s) = split_from kw 0 depth s.
Proof.
  induction x as [| c x IH]; intros depth; [reflexivity |].
  rewrite append_cons. cbn [String.length split_from]. apply IH.
Qed.

Lemma lower_space : PyStr.lower_char " " = " "%char.
Proof. reflexivity. Qed.

(** Whether a keyword is read at a place before a keyword depends on the
    text up to the space the keyword that follows starts with. *)
Lemma keyword_read_before (kw sep : string) (c : ascii) (x y : string) :
  kw = " and " \/ kw = " or " ->
  sep = " and " \/ sep = " or " ->
  String.eqb (PyStr.lower (PyStr.take (String.length kw)
                                      (String c x +:+ sep +:+ y))) kw
  = String.eqb (PyStr.lower (PyStr.take (String.length kw)
                                        (String c x +:+ " "))) kw.
Proof.
  intros [-> | ->] [-> | ->];
    destruct x as [| c2 [| c3 [| c4 [| c5 x']]]];
    rewrite ?append_cons;
    repeat match goal with
           | |- context ["" +:+ ?s] => change ("" +:+ s) with s
           end;
    rewrite ?append_cons;
    repeat match goal with
           | |- context ["" +:+ ?s] => change ("" +:+ s) with s
           end;
    cbn [String.length]; rewrite ?take_S, ?take_0;
    cbn [PyStr.lower String.eqb];
    rewrite ?lower_space;
    repeat match goal with
           | |- context [Ascii.eqb (PyStr.lower_char ?a) ?b] =>
               destruct (Ascii.eqb (PyStr.lower_char a) b)
           end;
    reflexivity.
Qed.

Lemma unquoted_cons (c : ascii) (s : string) :
  unquoted (String c s) = true -> is_opener c = false /\ unquoted s = true.
Proof.
  unfold unquoted. cbn [all_chars]. intros H.
  apply andb_prop in H. destruct H as [Hc H].
  split; [now destruct (is_opener c) | exact H].
Qed.

(** A keyword after a text without quotes in which it is not read: the
    text is the first part. *)
Lemma split_at_keyword (kw a b : string) :
  kw = " and " \/ kw = " or " ->
  unquoted a = true ->
  keyword_free kw (a +:+ " ") = true ->
  split_from kw 0 0 (a +:+ kw +:+ b) = a :: split_from kw 0 0 b.
Proof.
  intros Hkw. induction a as [| c a IH]; intros Hq Hfree.
  - change ("" +:+ kw +:+ b) with (kw +:+ b).
    assert (Ht : String.eqb
                   (PyStr.lower (PyStr.take (String.length kw) (kw +:+ b)))
                   kw = true)
      by (rewrite take_append_length; destruct Hkw as [-> | ->];
          reflexivity).
    destruct Hkw as [-> | ->]; rewrite append_cons; cbn [split_from];
      change (is_opener " ") with false;
      change (is_closer " ") with false; cbn [andb Nat.eqb];
      rewrite <- append_cons, Ht; cbn [String.length Nat.sub].
    + reflexivity.
    + reflexivity.
  - apply unquoted_cons in Hq. destruct Hq as [Hc Hq].
    rewrite append_cons in Hfree. cbn [keyword_free] in Hfree.
    apply andb_prop in Hfree. destruct Hfree as [Hfree1 Hfree].
    rewrite append_cons. cbn [split_from]. rewrite Hc.
    cbn [Nat.ltb Nat.leb]. rewrite andb_false_r.
    rewrite <- append_cons.
    rewrite (keyword_read_before _ _ _ Hkw Hkw).
    change (String c a +:+ " ") with (String c (a +:+ " ")).
    destruct (String.eqb _ kw); [discriminate Hfree1 |].
    rewrite andb_false_r. rewrite IH by assumption. reflexivity.
Qed.

Lemma keyword_free_before_and (a b : string) :
  keyword_free " or " (a +:+ " ") = true ->
  keyword_free " or " (" " +:+ b) = true ->
  keyword_free " or " (a +:+ " and " +:+ b) = true.
Proof.
  intros Ha Hb. induction a as [| c a IH].
  - change ("" +:+ " and " +:+ b) with (" and " +:+ b).
    change (" " +:+ b) with (String " " b) in Hb.
    rewrite !append_cons. change ("" +:+ b) with b.
    cbn [keyword_free String.length] in Hb |- *.
    rewrite ?take_S, ?take_0 in *.
    apply andb_prop in Hb. destruct Hb as [Hb1 Hb2].
    repeat (apply andb_true_intro; split); trivial; cbn; reflexivity.
  - rewrite append_cons in Ha. cbn [keyword_free] in Ha.
    apply andb_prop in Ha. destruct Ha as [Hc Ha].
    rewrite append_cons. cbn [keyword_free].
    rewrite <- append_cons.
    rewrite (@keyword_read_before " or " " and " c a b) by auto.
    change (String c a +:+ " ") with (String c (a +:+ " ")).
    rewrite Hc. now apply IH.
Qed.

Lemma length_lstrip (s : string) :
  String.length (PyStr.lstrip s) <= String.length s.
Proof.
  induction s as [| c s IH]; cbn; [lia |].
  destruct (PyStr.is_space c); cbn; lia.
Qed.

Lemma length_rstrip (s : string) :
  String.length (PyStr.rstrip s) <= String.length s.
Proof.
  induction s as [| c s IH]; cbn; [lia |].
  destruct (PyStr.rstrip s); [destruct (PyStr.is_space c) |]; cbn in *; lia.
Qed.

(** A text that [strip] leaves as it is starts with no white space. *)
Lemma stripped_start (c : ascii) (s : string) :
  PyStr.strip (String c s) = String c s -> PyStr.is_space c = false.
Proof.
  unfold PyStr.strip. cbn [PyStr.lstrip].
  destruct (PyStr.is_space c); [| reflexivity].
  intros H. apply (f_equal String.length) in H. cbn in H.
  pose proof (length_rstrip (PyStr.lstrip s)).
  pose proof (length_lstrip s). lia.
Qed.

Lemma stripped_end (s : string) : PyStr.strip s = s -> PyStr.rstrip s = s.
Proof.
  destruct s as [| c s]; [reflexivity |].
  intros H. pose proof (stripped_start H) as Hc.
  unfold PyStr.strip in H. cbn [PyStr.lstrip] in H. now rewrite Hc in H.
Qed.

Lemma rstrip_app_stripped (x b : string) :
  PyStr.rstrip b = b -> b <> "" -> PyStr.rstrip (x +:+ b) = x +:+ b.
Proof.
  intros Hb Hne. induction x as [| c x IH]; [exact Hb |].
  rewrite append_cons. cbn [PyStr.rstrip]. rewrite IH.
  destruct (x +:+ b) eqn:E; [| reflexivity].
  destruct x; [| discriminate E].
  change ("" +:+ b) with b in E. congruence.
Qed.

Lemma strip_joined (a mid b : string) :
  PyStr.strip a = a -> a <> "" -> PyStr.strip b = b -> b <> "" ->
  PyStr.strip (a +:+ mid +:+ b) = a +:+ mid +:+ b.
Proof.
  intros Ha Hane Hb Hbne. destruct a as [| c a]; [congruence |].
  unfold PyStr.strip. rewrite append_cons. cbn [PyStr.lstrip].
  rewrite (stripped_start Ha). rewrite <- append_cons, <- append_assoc.
  apply rstrip_app_stripped; [now apply stripped_end | exact Hbne].
Qed.

Lemma has_char_substring (c : ascii) (s : string) :
  forall n m, has_char c (String.substring n m s) = true ->
              has_char c s = true.
Proof.
  induction s as [| x s IH]; intros n m H.
  - destruct n, m; cbn in H; discriminate H.
  - destruct n as [| n].
    + destruct m as [| m]; cbn in H; [discriminate H |].
      cbn [has_char]. apply orb_prop in H. destruct H as [-> | H];
        [reflexivity |].
      rewrite (IH _ _ H). apply orb_true_r.
    + cbn in H. cbn [has_char]. rewrite (IH _ _ H). apply orb_true_r.
Qed.

Lemma has_char_lstrip (c : ascii) (s : string) :
  has_char c (PyStr.lstrip s) = true -> has_char c s = true.
Proof.
  induction s as [| x s IH]; intros H; [discriminate H |].
  cbn [PyStr.lstrip] in H. destruct (PyStr.is_space x); [| exact H].
  cbn [has_char]. rewrite IH by exact H. apply orb_true_r.
Qed.

Lemma has_char_rstrip (c : ascii) (s : string) :
  has_char c (PyStr.rstrip s) = true -> has_char c s = true.
Proof.
  induction s as [| x s IH]; intros H; [discriminate H |].
  cbn [PyStr.rstrip] in H. cbn [has_char].
  destruct (PyStr.rstrip s) eqn:E.
  - destruct (PyStr.is_space x); [discriminate H |].
    cbn in H. rewrite orb_false_r in H. now rewrite H.
  - cbn [has_char] in H. apply orb_prop in H. destruct H as [-> | H];
      [reflexivity |].
    rewrite IH by exact H. apply orb_true_r.
Qed.

Lemma no_paren_start (s : string) :
  has_char "(" s = false -> PyStr.startswith "(" s = false.
Proof.
  destruct s as [| c s]; [reflexivity |].
  cbn [has_char]. intros H. apply orb_false_elim in H. destruct H as [H _].
  unfold PyStr.startswith. rewrite prefix_cons, H. reflexivity.
Qed.

(** A text without an opening parenthesis is parsed without a call of
    [evaluate]. *)
Lemma parse_not_without_parentheses (ctx : tree)
  (self1 self2 : string -> result bool) (s : string) :
  has_char "(" s = false ->
  _parse_not ctx self1 s = _parse_not ctx self2 s.
Proof.
  intros H. unfold _parse_not, _parse_comparison.
  rewrite (no_paren_start _ H).
  destruct (PyStr.startswith "not " s); [| reflexivity].
  assert (Hd : has_char "(" (PyStr.strip (PyStr.drop 4 s)) = false).
  { destruct (has_char "(" (PyStr.strip (PyStr.drop 4 s))) eqn:E;
      [| reflexivity].
    unfold PyStr.strip in E. apply has_char_rstrip, has_char_lstrip in E.
    unfold PyStr.drop in E. apply has_char_substring in E. congruence. }
  now rewrite (no_paren_start _ Hd).
Qed.

Lemma simple_facts (kw s : string) :
  kw = " and " \/ kw = " or " ->
  simple s = true ->
  PyStr.strip s = s /\ s <> ""
  /\ has_char "(" s = false
  /\ keyword_free kw (s +:+ " ") = true
  /\ keyword_free kw (" " +:+ s) = true
  /\ keyword_free kw s = true.
Proof.
  intros Hkw H. unfold simple in H.
  repeat (apply andb_prop in H; destruct H as [H ?]).
  apply String.eqb_eq in H.
  assert (Hpad : keyword_free kw (" " +:+ s +:+ " ") = true)
    by now destruct Hkw as [-> | ->].
  assert (Hright : keyword_free kw (s +:+ " ") = true)
    by exact (keyword_free_drop _ _ _ Hpad).
  repeat split; trivial.
  - intros ->. discriminate.
  - now destruct (has_char "(" s).
  - rewrite <- append_assoc in Hpad. exact (keyword_free_prefix _ _ _ Hpad).
  - exact (keyword_free_prefix _ _ _ Hright).
Qed.

Lemma parse_and_simple (ctx : tree) (self : string -> result bool)
  (s : string) :
  simple s = true -> _parse_and ctx self s = _parse_not ctx self s.
Proof.
  intros H.
  destruct (@simple_facts " and " s (or_introl eq_refl) H)
    as (_ & _ & _ & _ & _ & Hfree).
  unfold _parse_and, _split_on_keyword.
  now rewrite (keyword_free_split _ _ Hfree).
Qed.

Lemma evaluate_simple (ctx : tree) (self : string -> result bool)
  (s : string) :
  simple s = true -> evaluate ctx s = _parse_not ctx self s.
Proof.
  intros H.
  destruct (@simple_facts " or " s (or_intror eq_refl) H)
    as (Hstrip & _ & Hparen & _ & _ & Hfree).
  unfold evaluate. cbn [evaluate_depth]. rewrite Hstrip.
  unfold _parse_or, _split_on_keyword.
  rewrite (keyword_free_split _ _ Hfree). cbn [List.length Nat.ltb Nat.leb].
  rewrite parse_and_simple by exact H.
  now apply parse_not_without_parentheses.
Qed.

(** X19: [a and b], for two conditions without a keyword and without an
    opening parenthesis, the first one without a quote: the value of [a],
    and when it is true the value of [b]; [b] is not evaluated when [a] is
    false, and an error in [a] is the error of the whole. *)
Theorem conjunction_is_evaluated_in_order (ctx : tree) (a b : string) :
  simple a = true -> unquoted a = true -> simple b = true ->
  evaluate ctx (a +:+ " and " +:+ b)
  = (x <- evaluate ctx a ;; if x then evaluate ctx b else Ok false).
Proof.
  intros Ha Hq Hb.
  destruct (@simple_facts " and " a (or_introl eq_refl) Ha)
    as (Hsa & Hna & _ & Haa & _ & _).
  destruct (@simple_facts " or " a (or_intror eq_refl) Ha)
    as (_ & _ & _ & Hao & _ & _).
  destruct (@simple_facts " and " b (or_introl eq_refl) Hb)
    as (Hsb & Hnb & _ & _ & _ & Hba).
  destruct (@simple_facts " or " b (or_intror eq_refl) Hb)
    as (_ & _ & _ & _ & Hbo & _).
  unfold evaluate at 1. cbn [evaluate_depth].
  rewrite (strip_joined " and " Hsa Hna Hsb Hnb).
  set (self := evaluate_depth ctx _).
  unfold _parse_or, _split_on_keyword.
  rewrite (keyword_free_split _ _ (keyword_free_before_and _ _ Hao Hbo)).
  cbn [List.length Nat.ltb Nat.leb].
  unfold _parse_and, _split_on_keyword.
  rewrite (@split_at_keyword " and " a b (or_introl eq_refl) Hq Haa).
  rewrite (keyword_free_split _ _ Hba).
  cbn [List.length Nat.ltb Nat.leb all_of]. rewrite Hsa, Hsb.
  rewrite (@evaluate_simple ctx self a Ha), (@evaluate_simple ctx self b Hb).
  destruct (_parse_not ctx self a) as [[|] | e]; cbn [bind]; try reflexivity.
  now destruct (_parse_not ctx self b) as [[|] | e].
Qed.

(** X20: [a or b], under the same conditions: the value of [a], and when
    it is false the value of [b]; [b] is not evaluated when [a] is true. *)
Theorem disjunction_is_evaluated_in_order (ctx : tree) (a b : string) :
  simple a = true -> unquoted a = true -> simple b = true ->
  evaluate ctx (a +:+ " or " +:+ b)
  = (x <- evaluate ctx a ;; if x then Ok true else evaluate ctx b).
Proof.
  intros Ha Hq Hb.
  destruct (@simple_facts " or " a (or_intror eq_refl) Ha)
    as (Hsa & Hna & _ & Hao & _ & _).
  destruct (@simple_facts " or " b (or_intror eq_refl) Hb)
    as (Hsb & Hnb & _ & _ & _ & Hbo).
  unfold evaluate at 1. cbn [evaluate_depth].
  rewrite (strip_joined " or " Hsa Hna Hsb Hnb).
  set (self := evaluate_depth ctx _).
  unfold _parse_or, _split_on_keyword.
  rewrite (@split_at_keyword " or " a b (or_intror eq_refl) Hq Hao).
  rewrite (keyword_free_split _ _ Hbo).
  cbn [List.length Nat.ltb Nat.leb any_of]. rewrite Hsa, Hsb.
  rewrite !parse_and_simple by assumption.
  rewrite (@evaluate_simple ctx self a Ha), (@evaluate_simple ctx self b Hb).
  destruct (_parse_not ctx self a) as [[|] | e]; cbn [bind]; try reflexivity.
  now destruct (_parse_not ctx self b) as [[|] | e].
Qed.

Lemma startswith_append (p s : string) : PyStr.startswith p (p +:+ s) = true.
Proof.
  unfold PyStr.startswith. induction p as [| c p IH]; [now destruct s |].
  now rewrite append_cons, prefix_cons, Ascii.eqb_refl, IH.
Qed.

Lemma keyword_free_after_not (kw s : string) :
  kw = " and " \/ kw = " or " ->
  keyword_free kw (" " +:+ s) = true ->
  keyword_free kw (" not " +:+ s) = true.
Proof.
  intros Hkw H. change (" " +:+ s) with (String " " s) in H.
  rewrite !append_cons. change ("" +:+ s) with s.
  destruct Hkw as [-> | ->];
    cbn [keyword_free String.length] in H |- *;
    rewrite ?take_S, ?take_0 in *;
    apply andb_prop in H; destruct H as [H1 H2];
    repeat (apply andb_true_intro; split); trivial; cbn; reflexivity.
Qed.

(** X21: [not a], for a condition without a keyword and without an opening
    parenthesis that does not itself start with [not]: the negation of the
    value of [a]. *)
Theorem negation_negates (ctx : tree) (a : string) :
  simple a = true ->
  PyStr.startswith "not " a = false ->
  evaluate ctx ("not " +:+ a) = (x <- evaluate ctx a ;; Ok (negb x)).
Proof.
  intros Ha Hnot.
  destruct (@simple_facts " and " a (or_introl eq_refl) Ha)
    as (Hsa & Hna & Hpa & Haa & _ & _).
  destruct (@simple_facts " or " a (or_intror eq_refl) Ha)
    as (_ & _ & _ & Hao & _ & _).
  unfold simple in Ha. repeat (apply andb_prop in Ha; destruct Ha as [Ha ?]).
  assert (Hs : simple ("not " +:+ a) = true).
  { unfold simple.
    apply andb_true_intro; split;
      [apply andb_true_intro; split;
       [apply andb_true_intro; split;
        [apply andb_true_intro; split |] |] |].
    - apply String.eqb_eq. unfold PyStr.strip.
      rewrite !append_cons. cbn [PyStr.lstrip].
      change (PyStr.is_space "n") with false. cbv iota.
      rewrite <- !append_cons.
      now apply rstrip_app_stripped; [apply stripped_end |].
    - reflexivity.
    - change (" " +:+ ("not " +:+ a) +:+ " ") with (" not " +:+ a +:+ " ").
      now apply keyword_free_after_not; [left |].
    - change (" " +:+ ("not " +:+ a) +:+ " ") with (" not " +:+ a +:+ " ").
      now apply keyword_free_after_not; [right |].
    - rewrite !append_cons. cbn [has_char].
      change ("" +:+ a) with a. rewrite Hpa. reflexivity. }
  set (self := evaluate_depth ctx (String.length a)).
  rewrite (@evaluate_simple ctx self _ Hs).
  assert (Hs' : simple a = true).
  { unfold simple. now rewrite Ha, H2, H1, H0, H. }
  rewrite (@evaluate_simple ctx self _ Hs').
  unfold _parse_not at 1 2. rewrite Hnot.
  rewrite startswith_append.
  replace (PyStr.drop 4 ("not " +:+ a)) with a
    by (symmetry; apply (drop_append_length "not " a)).
  now rewrite Hsa.
Qed.

End ConnectiveFacts.

(** * Examples

    The statements above at the example data. *)
Module Examples.
Import RulesEngine PrimFloat Fixtures.

(** The empty condition against a context without the empty key. *)
Lemma empty_condition_example :
  SafeEvaluator.evaluate ctx0 "" = Ok false.
Proof.
  exact (@empty_condition_reads_empty_key Binary64.floats ctx0 eq_refl).
Defined.

(** A rule with the empty condition is visited and skipped: its action does
    not run. *)
Lemma empty_condition_rule_is_skipped :
  visit unconditional_rule 0 empty_trace heap0
  = (heap0,
     Ok ({| fired := [];
            skipped := [TStr "R1"];
            log := [{| le_rule_id := TStr "R1"; le_name := TStr "R1";
                       le_priority := Some (TInt 50);
                       le_description := None;
                       le_condition := Some (TStr "");
                       le_matched := false; le_actions_executed := None;
                       le_error := None; le_logs := [] |}] |}, false)).
Proof. reflexivity. Qed.

(** A string against a number, under [>]. *)
Lemma mismatched_comparison_example :
  SafeEvaluator.compare_values OpGt (TStr "bob") (TInt 5) = Ok false.
Proof.
  exact (@mismatched_comparison_does_not_raise Binary64.floats OpGt
           (TStr "bob") (TInt 5) eq_refl).
Defined.

(** The condition [name > 5] on a name that is a string is false, and the
    rule is recorded as one that did not match, with no error. *)
Lemma mismatched_rule_is_skipped_without_error :
  SafeEvaluator.evaluate ctx0 "name > 5" = Ok false
  /\ visit mismatched_rule 0 empty_trace heap0
     = (heap0,
        Ok ({| fired := [];
               skipped := [TStr "R2"];
               log := [{| le_rule_id := TStr "R2"; le_name := TStr "R2";
                          le_priority := Some (TInt 50);
                          le_description := None;
                          le_condition := Some (TStr "name > 5");
                          le_matched := false; le_actions_executed := None;
                          le_error := None; le_logs := [] |}] |}, false)).
Proof. split; reflexivity. Qed.

(** The log line of the LOG action of the specification's example. *)
Lemma log_line_example :
  RuleExecutor._execute_action (TDict log_action) 0 (TStr "R1") heap0
  = (heap0, Ok (Some "[R1] LOG: Premium is 360.0")).
Proof.
  exact (@log_line_is_labelled_rendering Binary64.floats heap0 0 _ log_action
           _ (TStr "R1") eq_refl eq_refl eq_refl).
Defined.

(** The log line carries the label, and a value put in by one replacement
    is read by the next: [{a}] becomes [{b}] and then [x]. *)
Lemma log_line_is_labelled_and_cascades :
  RuleExecutor.execute (TList [TDict log_action]) 0 (TStr "R1") heap0
  = (heap0, Ok ["[R1] LOG: Premium is 360.0"])
  /\ RuleExecutor.execute (TList [TDict [("log", TStr "{a}")]]) 0 (TStr "R1")
       heap_nested
     = (heap_nested, Ok ["[R1] LOG: x"]).
Proof. split; reflexivity. Qed.

Lemma heap0_numeric : ctx_numeric ["total"] heap0 0.
Proof.
  eexists. split; [reflexivity |].
  intros f v Hin. cbn in Hin. rewrite orb_false_r in Hin.
  apply String.eqb_eq in Hin. subst f. cbn. discriminate.
Qed.


(** What the action list leaves and logs. *)
Example totals_run :
  snapshot (fst (RuleExecutor.execute (TList totals) 0 (TStr "R1") heap0))
           (VRef 0)
  = TDict [("age", TInt 67); ("name", TList [TStr "a"; TStr "b"]);
           ("base_premium", TFloat 360%float); ("total", TFloat 3%float);
           ("tags", TList [TStr "senior"])]
  /\ snd (RuleExecutor.execute (TList totals) 0 (TStr "R1") heap0)
     = Ok ["[R1] ADD total + 2 → 2.0";
           "[R1] MULTIPLY total × 1.5 → 3.0";
           "[R1] DIVIDE total / 0 → 3.0";
           "[R1] APPEND 'senior' → tags";
           "[R1] SET name = ['a', 'b']";
           "[R1] LOG: total is 3.0"].
Proof. split; reflexivity. Qed.


(** DIVIDE by zero and by two. *)
Lemma divide_example :
  (exists line,
      RuleExecutor._execute_action
        (TDict [("divide", TStr "base_premium"); ("by", TInt 0)]) 0
        (TStr "R1") heap0
      = (heap0, Ok (Some line)))
  /\ (exists line,
         RuleExecutor._execute_action
           (TDict [("divide", TStr "base_premium"); ("by", TInt 2)]) 0
           (TStr "R1") heap0
         = ([ODict [("age", VInt 67); ("name", VStr "bob");
                    ("base_premium", VFloat 180%float)]],
            Ok (Some line))).
Proof.
  split.
  - exact (proj1 (@divide_guards_zero Binary64.floats heap0 0 _
                    [("divide", TStr "base_premium"); ("by", TInt 0)]
                    "base_premium" (TStr "R1") 0%float
                    eq_refl eq_refl eq_refl eq_refl) eq_refl).
  - exact (proj2 (@divide_guards_zero Binary64.floats heap0 0 _
                    [("divide", TStr "base_premium"); ("by", TInt 2)]
                    "base_premium" (TStr "R1") 2%float
                    eq_refl eq_refl eq_refl eq_refl) eq_refl
                 360%float eq_refl).
Defined.

(** The pass ends with the senior rule: the adult rule, which would match,
    is not visited. *)
Lemma first_match_example :
  run_rules first_match [minor_rule; senior_rule; adult_rule] 1 empty_trace
            heap_start
  = (fst after_senior, Ok (snd after_senior)).
Proof.
  apply (@first_match_stops_the_pass Binary64.floats first_match senior_rule
           [minor_rule] [adult_rule] 1 empty_trace after_minor
           (snd after_senior) heap_start heap_start (fst after_senior));
    reflexivity.
Defined.

(** What the pass leaves. *)
Example first_match_pass :
  snapshot (fst after_senior) (VRef 1)
  = TDict [("age", TInt 67); ("base_premium", TFloat 360%float);
           ("tags", TList [TStr "senior"])]
  /\ (snd after_senior).(fired) = [TStr "senior"]
  /\ (snd after_senior).(skipped) = [TStr "minor"]
  /\ map le_rule_id (snd after_senior).(log) = [TStr "minor"; TStr "senior"].
Proof. repeat split; reflexivity. Qed.

(** Rules written in the order 30, 10, 50 run in the order 10, 30, 50. *)
Lemma priority_order_example :
  exists sorted,
    Permutation priorities_rules sorted
    /\ StronglySorted (fun a b => (prio a <= prio b)%Z) sorted
    /\ (forall p, with_priority p sorted = with_priority p priorities_rules)
    /\ map le_rule_id demo_result.(execution_log)
       = map rule_id_of
           (firstn (List.length demo_result.(execution_log)) sorted)
    /\ (is_first_match demo_result.(metadata).(md_priority_mode) = false ->
        map le_rule_id demo_result.(execution_log) = map rule_id_of sorted).
Proof.
  apply (@rules_run_in_stable_priority_order Binary64.floats yaml_safe_load
           now files fresh_engine (fst (fst demo_run)) "demo" (VRef 0) false
           heap_input (snd (fst demo_run)) demo_result demo_file
           priorities_doc priorities_rules);
    reflexivity.
Defined.

Example priority_order_run :
  map le_rule_id demo_result.(execution_log)
  = [TStr "R10"; TStr "R30"; TStr "R50"]
  /\ demo_result.(rules_fired) = [TStr "R10"; TStr "R30"; TStr "R50"].
Proof. split; reflexivity. Qed.

Example insurance_outcome :
  snapshot (heap_after insurance_run) insurance_result.(context)
  = TDict [("age", TInt 67); ("base_premium", TFloat 360%float);
           ("tags", TList [TStr "senior"])]
  /\ insurance_result.(rules_fired) = [TStr "senior"]
  /\ insurance_result.(rules_skipped) = [TStr "minor"]
  /\ insurance_result.(rules_fired_count) = 1
  /\ insurance_result.(rules_total) = 3
  /\ map le_rule_id insurance_result.(execution_log)
     = [TStr "minor"; TStr "senior"].
Proof. repeat split; reflexivity. Qed.

(** The counts of the run: one rule fired, one skipped, three in all. *)
Lemma insurance_counts :
  insurance_result.(rules_fired_count)
  = List.length insurance_result.(rules_fired)
  /\ List.length insurance_result.(execution_log)
     = List.length insurance_result.(rules_fired)
       + List.length insurance_result.(rules_skipped)
  /\ List.length insurance_result.(rules_fired)
     + List.length insurance_result.(rules_skipped)
     <= insurance_result.(rules_total).
Proof.
  destruct (@completed_run_accounts_for_visited_rules Binary64.floats
              yaml_safe_load now insurance_files fresh_engine
              (fst (fst insurance_run)) "insurance" (VRef 0) false heap_input
              (heap_after insurance_run) insurance_result eq_refl)
    as (data & rule_list & _ & _ & _ & Hcount & Hlog & _ & _ & _ & Hle & _).
  exact (conj Hcount (conj Hlog Hle)).
Defined.

Lemma heap_input_closed : closed heap_input.
Proof. repeat constructor. Qed.


(** Saving the list of the two words over the demo ruleset, loaded
    before: the file is overwritten and the cache entry dropped, and then
    the call fails. *)
Lemma save_two_words_example :
  save_ruleset_yaml yaml_safe_load 2 files (fst (fst demo_run)) "demo"
                    two_words_text
  = ([("rules/demo.yaml", {| content := two_words_text; mtime := 2 |})],
     {| rules_dir := "rules"; _cache := [] |},
     Raise TypeError).
Proof.
  exact (@save_writes_a_list_of_the_two_words Binary64.floats yaml_safe_load
           2 files (fst (fst demo_run)) "demo" two_words_text
           [TStr "ruleset"; TStr "rules"] eq_refl eq_refl eq_refl).
Defined.

(** After it the ruleset no longer loads. *)
Example demo_ruleset_is_broken :
  load_ruleset yaml_safe_load now
    [("rules/demo.yaml", {| content := two_words_text; mtime := 2 |})]
    {| rules_dir := "rules"; _cache := [] |} "demo" false
  = ({| rules_dir := "rules"; _cache := [] |}, Raise TypeError).
Proof. reflexivity. Qed.

(** A mapping without the rule sequence is refused, and nothing changes. *)
Example save_without_rules :
  save_ruleset_yaml yaml_safe_load 2 files (fst (fst demo_run)) "demo"
                    no_rules_text
  = (files, fst (fst demo_run), Raise ValueError).
Proof.
  exact (@save_refuses_mapping_without_key Binary64.floats yaml_safe_load 2
           files (fst (fst demo_run)) "demo" no_rules_text _ eq_refl eq_refl).
Qed.

(** The keyword is found whatever its case, and the parts put together
    again give the expression up to that case. *)
Lemma split_parts_rejoin_example :
  PyStr.lower (PyStr.join " and "
                 (SafeEvaluator._split_on_keyword "a > 1 AND b" " and "))
  = PyStr.lower "a > 1 AND b".
Proof. apply split_parts_rejoin. discriminate. Defined.

Example split_parts :
  SafeEvaluator._split_on_keyword "a > 1 AND b" " and " = ["a > 1"; "b"].
Proof. reflexivity. Qed.

(** The conjunction after a string literal is not split. *)
Lemma quote_ends_splitting_example :
  SafeEvaluator._split_on_keyword south_condition " and " = [south_condition].
Proof.
  exact (@quote_ends_splitting "region == " "south' and accidents == 0"
           " and " "'" eq_refl eq_refl eq_refl).
Defined.

(** It is read as one comparison, of the field with a text that is no
    literal and no field, and is false where both of its comparisons
    hold. *)
Example south_condition_is_false :
  SafeEvaluator.evaluate south_context "region == 'south'" = Ok true
  /\ SafeEvaluator.evaluate south_context "accidents == 0" = Ok true
  /\ SafeEvaluator.evaluate south_context south_condition = Ok false.
Proof. repeat split; reflexivity. Qed.

Lemma comparison_example : SafeEvaluator.evaluate ctx0 "age > 60" = Ok true.
Proof.
  apply (@comparison_compares_operands Binary64.floats ctx0
           "age" " " ">" " " "60" OpGt);
    [reflexivity | reflexivity | reflexivity | reflexivity | discriminate
    | reflexivity].
Defined.

(** The misspelt action leaves no line. *)
Lemma log_lines_example :
  List.length ["[R1] SET flag = 1"; "[R1] LOG: flag is 1"]
  = List.length (filter recognised mixed_actions)
  /\ Forall (fun line => exists rest, line = label (TStr "R1") +:+ rest)
            ["[R1] SET flag = 1"; "[R1] LOG: flag is 1"].
Proof.
  eapply (@log_has_a_line_per_recognised_action Binary64.floats mixed_actions
            0 (TStr "R1") heap0).
  reflexivity.
Defined.

Lemma keys_example :
  exists d' added,
    heap_get (fst (RuleExecutor.execute (TList totals) 0 (TStr "R1") heap0)) 0
    = Some (ODict d')
    /\ keys d' = ["age"; "name"; "base_premium"] ++ added.
Proof.
  exact (@actions_keep_the_keys Binary64.floats 0 (TList totals) (TStr "R1")
           heap0 _ eq_refl).
Defined.

Example keys_after_totals :
  match heap_get (fst (RuleExecutor.execute (TList totals) 0 (TStr "R1")
                         heap0)) 0 with
  | Some (ODict d) => keys d
  | _ => []
  end = ["age"; "name"; "base_premium"; "total"; "tags"].
Proof. reflexivity. Qed.

Lemma tags_example :
  exists c d,
    insurance_result.(context) = VRef c
    /\ heap_get (heap_after insurance_run) c = Some (ODict d)
    /\ dict_mem "tags" d = true.
Proof.
  apply (@result_context_has_tags Binary64.floats yaml_safe_load now
           insurance_files fresh_engine (fst (fst insurance_run)) "insurance"
           (VRef 0) false heap_input (heap_after insurance_run)
           insurance_result).
  reflexivity.
Defined.

Lemma first_match_fires_one_example :
  List.length insurance_result.(rules_fired) <= 1
  /\ insurance_result.(rules_fired_count) <= 1.
Proof.
  apply (@first_match_fires_one_rule_at_most Binary64.floats yaml_safe_load
           now insurance_files fresh_engine (fst (fst insurance_run))
           "insurance" (VRef 0) false heap_input (heap_after insurance_run)
           insurance_result); reflexivity.
Defined.

(** The file has another text, which does not even parse to a ruleset: the
    load returns the document of the text it read before. *)
Lemma cache_example :
  load_ruleset (fun _ => Raise YAMLError) "later" stale_files (fst demo_load)
               "demo" false
  = (fst demo_load, Ok demo_data).
Proof.
  apply (@loaded_ruleset_is_served_from_cache Binary64.floats yaml_safe_load
           (fun _ => Raise YAMLError) now "later" files stale_files
           fresh_engine (fst demo_load) "demo" false demo_data demo_file
           {| content := two_words_text; mtime := 1 |}); reflexivity.
Defined.

Lemma save_example :
  get_ruleset_yaml
    [("rules/demo.yaml", {| content := insurance_text; mtime := 2 |})]
    {| rules_dir := "rules"; _cache := [] |} "demo"
  = Ok insurance_text
  /\ load_ruleset yaml_safe_load now
       [("rules/demo.yaml", {| content := insurance_text; mtime := 2 |})]
       {| rules_dir := "rules"; _cache := [] |} "demo" false
     = load_ruleset yaml_safe_load now
         [("rules/demo.yaml", {| content := insurance_text; mtime := 2 |})]
         {| rules_dir := "rules"; _cache := [] |} "demo" true
  /\ (forall p, p <> path_of (fst demo_load) "demo" ->
                dict_get p [("rules/demo.yaml",
                             {| content := insurance_text; mtime := 2 |})]
                = dict_get p files)
  /\ (forall n, n <> "demo" ->
                dict_get n (@nil (string * tree))
                = dict_get n (fst demo_load).(_cache)).
Proof.
  apply (@saved_text_is_read_back Binary64.floats yaml_safe_load now 2 files
           [("rules/demo.yaml", {| content := insurance_text; mtime := 2 |})]
           (fst demo_load) {| rules_dir := "rules"; _cache := [] |} "demo"
           insurance_text ("rules/demo.yaml", 3)).
  - repeat constructor. intros [].
  - reflexivity.
Defined.

(** A text whose rules are a string is saved, and counted by its
    characters. *)
Example save_counts_characters :
  snd (save_ruleset_yaml yaml_safe_load' 2 files fresh_engine "demo"
                         text_rules_text)
  = Ok ("rules/demo.yaml", 3).
Proof. reflexivity. Qed.

Lemma condition_true_example :
  exists e,
    run_rules first_match [yaml_true_rule; senior_rule] 1 empty_trace
              heap_start
    = run_rules first_match [senior_rule] 1
        {| fired := [];
           skipped := [] ++ [rule_id_of yaml_true_rule];
           log := [] ++ [e] |} heap_start
    /\ e.(le_rule_id) = rule_id_of yaml_true_rule
    /\ e.(le_matched) = false
    /\ e.(le_error) = Some AttributeError.
Proof.
  exact (@condition_that_is_no_string_skips_the_rule Binary64.floats
           first_match yaml_true [senior_rule] (TBool true) 1 empty_trace
           heap_start eq_refl eq_refl).
Defined.

Lemma number_input_example :
  evaluate yaml_safe_load now insurance_files fresh_engine "insurance"
           (VInt 5) false heap_input
  = (fst (fst insurance_run), heap_input, Raise AttributeError).
Proof.
  eapply (@input_that_is_no_mapping_is_refused Binary64.floats yaml_safe_load
            now insurance_files fresh_engine (fst (fst insurance_run))
            "insurance" (VInt 5) false heap_input); reflexivity.
Defined.

Example listing_run :
  snd (list_rulesets yaml_safe_load now listing files fresh_engine)
  = [Summary [("id", TStr "demo"); ("name", TStr "Demo");
              ("description", TStr ""); ("version", TStr "—");
              ("author", TStr "—"); ("rule_count", TInt 3);
              ("priority_mode", TStr "all")];
     Broken "loans" FileNotFoundError].
Proof. reflexivity. Qed.

Lemma yml_example :
  In (Broken "loans" FileNotFoundError)
     (snd (list_rulesets yaml_safe_load now listing files fresh_engine)).
Proof.
  apply (@yml_file_is_listed_but_not_loaded Binary64.floats yaml_safe_load
           now listing files fresh_engine "loans").
  - right. left. reflexivity.
  - reflexivity.
Defined.

Lemma set_example :
  exists h' v,
    RuleExecutor._execute_action (TDict set_action) 0 (TStr "R1") heap0
    = (h', Ok (Some "[R1] SET name = ['a', 'b']"))
    /\ heap_get h' 0
       = Some (ODict [("age", VInt 67); ("name", v);
                      ("base_premium", VFloat 360%float)])
    /\ snapshot h' v = TList [TStr "a"; TStr "b"]
    /\ (forall l, l < 1 -> l <> 0 -> heap_get h' l = heap_get heap0 l).
Proof.
  exact (@set_value_is_read_back Binary64.floats heap0 0 _ set_action "name"
           (TStr "R1") eq_refl eq_refl eq_refl).
Defined.

Lemma append_example :
  exists h' v,
    RuleExecutor._execute_action (TDict append_action) 1 (TStr "R1")
                                 heap_start
    = (h', Ok (Some "[R1] APPEND 'senior' → tags"))
    /\ heap_get h' 2 = Some (OList ([] ++ [v]))
    /\ snapshot h' v = TStr "senior"
    /\ (forall l', l' < 3 -> l' <> 2 -> heap_get h' l' = heap_get heap_start l').
Proof.
  exact (@append_extends_the_list Binary64.floats heap_start 1 2 _
           append_action "tags" (TStr "R1") [] eq_refl eq_refl eq_refl
           eq_refl eq_refl eq_refl).
Defined.

Lemma multiply_example :
  RuleExecutor._execute_action (TDict multiply_action) 0 (TStr "R1") heap0
  = ([ODict [("age", VInt 67); ("name", VStr "bob");
             ("base_premium", VFloat 324%float)]],
     Ok (Some "[R1] MULTIPLY base_premium × 0.9 → 324.0")).
Proof.
  apply (@arithmetic_assigns_the_rounded_result Binary64.floats heap0 0
           items0 multiply_action "multiply" "base_premium" "MULTIPLY" "×"
           (@float_mul Binary64.floats) (TStr "R1") 360%float 0.9%float);
    reflexivity.
Defined.

Lemma conjunction_example :
  SafeEvaluator.evaluate ctx0 "age > 60 and age < 70" = Ok true.
Proof.
  apply (@conjunction_is_evaluated_in_order Binary64.floats ctx0
           "age > 60" "age < 70"); reflexivity.
Defined.

Lemma disjunction_example :
  SafeEvaluator.evaluate ctx0 "age < 18 or age > 60" = Ok true.
Proof.
  apply (@disjunction_is_evaluated_in_order Binary64.floats ctx0
           "age < 18" "age > 60"); reflexivity.
Defined.

Lemma negation_example :
  SafeEvaluator.evaluate ctx0 "not age < 18" = Ok true.
Proof.
  apply (@negation_negates Binary64.floats ctx0 "age < 18"); reflexivity.
Defined.

(** [not not age < 18] is no double negation: what follows the first [not]
    is read as one operand. *)
Example double_negation :
  SafeEvaluator.evaluate ctx0 "not not age < 18" = Ok true.
Proof. reflexivity. Qed.

End Examples.
